(** * Badminton match scheduler: the scheduling engine of
      [backend/src/scheduler.ts], embedded function by function, with the
      schedule store of [backend/src/store.ts] and the request handlers of
      [backend/src/index.ts] that call it.

    - Numbers.  The numbers that the scheduler computes are integers
      (round indices, counters, weighted differences) and are modelled by
      [Z].  The number of courts comes from the caller and is never
      checked for being whole: it is a JavaScript [number], see
      [Module Num].  The only fraction that the scheduler computes is
      [avgRest], a sum of rest counts divided by the number of players of
      a match; it is modelled by [Q].  For the matches that the scheduler
      builds the divisor is 2 or 4, so the quotient and the difference of
      two quotients are exact in binary floating point and are multiples
      of 1/4; the test [> 0.3] on the double nearest to 0.3 and the test
      [> 3/10] on rationals then agree.
    - Containers.  [Map] objects are only read with [get], written with
      [set] and measured with [size]: they are [gmap]s.  [Set] objects that
      are only tested with [has] are [gset]s; sets that are iterated are
      duplicate-free lists in insertion order.
    - Identifiers.  [uuidv4()] is a supply of fresh identifiers, threaded
      through the functions that call it.
    - Sorting.  The scheduler is embedded over the function that
      [Array.prototype.sort] is, see [Section Scheduler].
    - Requests.  The handlers are embedded over the function that
      [String.prototype.trim] is, see [Section Handlers]; the identifier
      that [uuidv4()] gives a new schedule is an argument of the handler. *)

From Stdlib Require Import ZArith QArith Qabs.
From stdpp Require Import base numbers option list sets gmap strings pretty sorting.

Local Open Scope string_scope.
Local Open Scope list_scope.
Local Open Scope Z_scope.

(** ** Data model ([types.ts]) *)

Abbreviation Player := string (only parsing).
Abbreviation Team := (list string) (only parsing).

Inductive MatchType := singles | doubles.

(** [id] is the string produced by [uuidv4()].  The generator is modelled
    as a supply of fresh identifiers: the [k]-th call returns [k]. *)
Record MatchObj := mkMatch {
  matchId : nat;
  teamA : Team;
  teamB : Team
}.

Record Round := mkRound {
  roundId : string;
  matches : list MatchObj;
  resting : list Player;
  completed : bool
}.

Record PlayerStats := mkStats {
  playCount : Z;
  restCount : Z;
  lastPlayedRound : Z
}.

Record Schedule := mkSchedule {
  rounds : list Round;
  warning : option string
}.

#[global] Instance MatchObj_eq_dec : EqDecision MatchObj.
Proof. solve_decision. Defined.

#[global] Instance MatchType_eq_dec : EqDecision MatchType.
Proof. solve_decision. Defined.

(** ** JavaScript numbers

    A [number] is a finite value, an infinity or [NaN].  The finite values
    are modelled by rationals, which include every finite double.  The
    number of courts is only ever compared, with a count and with the
    constants 0 and 1; the comparisons are JavaScript's, false whenever an
    operand is [NaN]. *)
Module Num.

Inductive t :=
| Finite (q : Q)
| PosInfinity
| NegInfinity
| NaN.

Definition ofZ (n : Z) : t := Finite (inject_Z n).

(** A count, such as the [length] of an array. *)
Definition ofNat (n : nat) : t := ofZ (Z.of_nat n).

(** [x < y] *)
Definition ltb (x y : t) : bool :=
  match x, y with
  | NaN, _ | _, NaN => false
  | Finite p, Finite q => negb (Qle_bool q p)
  | _, NegInfinity => false
  | NegInfinity, _ => true
  | PosInfinity, _ => false
  | Finite _, PosInfinity => true
  end.

(** [x >= y] *)
Definition geb (x y : t) : bool :=
  match x, y with
  | NaN, _ | _, NaN => false
  | Finite p, Finite q => Qle_bool q p
  | _, NegInfinity => true
  | NegInfinity, _ => false
  | PosInfinity, _ => true
  | Finite _, PosInfinity => false
  end.

(** [x === y] *)
Definition eqb (x y : t) : bool :=
  match x, y with
  | Finite p, Finite q => Qeq_bool p q
  | PosInfinity, PosInfinity | NegInfinity, NegInfinity => true
  | _, _ => false
  end.

End Num.

Arguments Num.ltb : simpl never.
Arguments Num.geb : simpl never.
Arguments Num.eqb : simpl never.

(** ** JavaScript library functions used by the scheduler *)

(** [Array.from(new Set(xs))]: the elements of [xs] without repetition, in
    order of first occurrence. *)
Fixpoint setFrom (seen : list string) (xs : list string) : list string :=
  match xs with
  | [] => []
  | x :: rest =>
      if bool_decide (x ∈ seen) then setFrom seen rest
      else x :: setFrom (x :: seen) rest
  end.

Definition arrayFromSet (xs : list string) : list string := setFrom [] xs.

(** [v || d] on an optional number: [undefined] and [0] are both falsy. *)
Definition orElse (v : option Z) (d : Z) : Z :=
  match v with
  | Some x => if x =? 0 then d else x
  | None => d
  end.

(** [v ?? d]: only [undefined] is replaced. *)
Definition nullish (v : option Z) (d : Z) : Z := default d v.

(** [Math.max(...xs)] and [Math.min(...xs)] for a non-empty argument list.
    (On no arguments JavaScript answers an infinity; every match that the
    scheduler builds has players, see [generated_validMatch], so it never
    asks.) *)
Definition mathMax (xs : list Z) : Z :=
  match xs with
  | [] => 0
  | x :: rest => fold_left Z.max rest x
  end.

Definition mathMin (xs : list Z) : Z :=
  match xs with
  | [] => 0
  | x :: rest => fold_left Z.min rest x
  end.

Definition sumZ (xs : list Z) : Z := fold_left Z.add xs 0.

(** [xs.sort()] on strings: ascending lexicographic order of the code
    units, here of the characters of the [string]. *)
Fixpoint insertString (x : string) (xs : list string) : list string :=
  match xs with
  | [] => [x]
  | y :: rest => if String.leb x y then x :: y :: rest else y :: insertString x rest
  end.

Definition sortStrings (xs : list string) : list string :=
  foldr insertString [] xs.

(** [xs.sort(cmp)] is a stable sort; on a comparator that is a consistent
    ordering of the elements every stable sort gives the same array.
    [stableSort] is the stable insertion sort ([cmp x y <= 0] keeps [x]
    before [y]). *)
Section StableSort.
Context {A : Type} (cmp : A → A → Z).

Fixpoint insertBy (x : A) (xs : list A) : list A :=
  match xs with
  | [] => [x]
  | y :: rest => if cmp x y <=? 0 then x :: y :: rest else y :: insertBy x rest
  end.

Definition stableSort (xs : list A) : list A := foldr insertBy [] xs.
End StableSort.

(** ** Enumeration of teams and matches *)

Fixpoint allPairs (players : list Player) : list Team :=
  match players with
  | [] => []
  | p :: rest => ((λ q, [p; q]) <$> rest) ++ allPairs rest
  end.

Definition generateTeams (players : list Player) (matchType : MatchType) : list Team :=
  match matchType with
  | singles => (λ p, [p]) <$> players
  | doubles => allPairs players
  end.

Definition teamsOverlap (a b : Team) : bool :=
  existsb (λ player, bool_decide (player ∈ a)) b.

(** The inner loop of [generateAllMatches] for a fixed [teams[i]]; [next] is
    the state of the identifier supply. *)
Fixpoint matchesAgainst (t : Team) (others : list Team) (next : nat)
    : list MatchObj * nat :=
  match others with
  | [] => ([], next)
  | u :: rest =>
      if teamsOverlap t u then matchesAgainst t rest next
      else
        let '(ms, next') := matchesAgainst t rest (S next) in
        (mkMatch next t u :: ms, next')
  end.

Fixpoint generateAllMatches (teams : list Team) (next : nat)
    : list MatchObj * nat :=
  match teams with
  | [] => ([], next)
  | t :: rest =>
      let '(ms1, next1) := matchesAgainst t rest next in
      let '(ms2, next2) := generateAllMatches rest next1 in
      (ms1 ++ ms2, next2)
  end.

Definition getMatchPlayers (m : MatchObj) : list Player :=
  arrayFromSet (teamA m ++ teamB m).

Definition getTeamKey (team : Team) : string :=
  String.concat "," (sortStrings team).

Definition getMatchTeams (m : MatchObj) : string * string :=
  (getTeamKey (teamA m), getTeamKey (teamB m)).

(** ** Scoring *)

Definition calculateTeamFreshnessScore (m : MatchObj)
    (teamUsageCount teamLastUsedRound : gmap string Z) (currentRound : Z) : Z :=
  let '(teamAKey, teamBKey) := getMatchTeams m in
  let teamAUsage := orElse (teamUsageCount !! teamAKey) 0 in
  let teamBUsage := orElse (teamUsageCount !! teamBKey) 0 in
  let totalUsage := teamAUsage + teamBUsage in
  let teamALastRound := orElse (teamLastUsedRound !! teamAKey) (-10) in
  let teamBLastRound := orElse (teamLastUsedRound !! teamBKey) (-10) in
  let roundsSinceA := currentRound - teamALastRound in
  let roundsSinceB := currentRound - teamBLastRound in
  let penaltyA := if roundsSinceA <=? 1 then 100 else if roundsSinceA <=? 2 then 50 else 0 in
  let penaltyB := if roundsSinceB <=? 1 then 100 else if roundsSinceB <=? 2 then 50 else 0 in
  let recencyPenalty := penaltyA + penaltyB in
  totalUsage * 100 + recencyPenalty + (10 - Z.min roundsSinceA roundsSinceB).

Record MatchCandidate := mkCandidate {
  cMatch : MatchObj;
  cPlayers : list Player;
  avgRest : Q;
  roundsSincePlay : Z;
  freshnessScore : Z
}.

(** [currentRound - (playerStats.get(p)?.lastPlayedRound ?? -10)] *)
Definition roundsSince (playerStats : gmap string PlayerStats) (currentRound : Z)
    (p : Player) : Z :=
  currentRound - nullish (lastPlayedRound <$> playerStats !! p) (-10).

Definition maxRoundsSince playerStats currentRound (players : list Player) : Z :=
  mathMax (roundsSince playerStats currentRound <$> players).

Definition minRoundsSince playerStats currentRound (players : list Player) : Z :=
  mathMin (roundsSince playerStats currentRound <$> players).

Definition sumRoundsSince playerStats currentRound (players : list Player) : Z :=
  sumZ (roundsSince playerStats currentRound <$> players).

(** [numPlayers <= 7 ? 1 : 2] *)
Definition restThreshold (numPlayers : nat) : Z :=
  if Z.of_nat numPlayers <=? 7 then 1 else 2.

Definition makeCandidate (playerStats : gmap string PlayerStats)
    (teamUsageCount teamLastUsedRound : gmap string Z) (currentRound : Z)
    (m : MatchObj) : MatchCandidate :=
  let players := getMatchPlayers m in
  let restSum :=
    sumZ ((λ p, orElse (restCount <$> playerStats !! p) 0) <$> players) in
  let lastPlayedMax :=
    mathMax ((λ p, nullish (lastPlayedRound <$> playerStats !! p) (-1)) <$> players) in
  {| cMatch := m;
     cPlayers := players;
     avgRest := (inject_Z restSum / inject_Z (Z.of_nat (length players)))%Q;
     roundsSincePlay := currentRound - lastPlayedMax;
     freshnessScore :=
       calculateTeamFreshnessScore m teamUsageCount teamLastUsedRound currentRound |}.

(** [x > y] on rationals, as a boolean. *)
Definition Qgtb (x y : Q) : bool := negb (Qle_bool x y).

(** The comparator handed to [candidates.sort].  Each [return] of the source
    is one branch; a branch whose guard fails falls through to the next. *)
Definition compareCandidates (playerStats : gmap string PlayerStats)
    (currentRound : Z) (a b : MatchCandidate) : Z :=
  let maxRoundsSinceA := maxRoundsSince playerStats currentRound (cPlayers a) in
  let maxRoundsSinceB := maxRoundsSince playerStats currentRound (cPlayers b) in
  let maxConsecutiveRests := restThreshold (size playerStats) in
  let maxDiff := maxRoundsSinceB - maxRoundsSinceA in
  if ((maxConsecutiveRests <=? maxRoundsSinceA) || (maxConsecutiveRests <=? maxRoundsSinceB))
     && negb (maxDiff =? 0)
  then maxDiff * 100000
  else
  let urgencyThreshold := Z.max 1 (maxConsecutiveRests - 1) in
  if ((urgencyThreshold <=? maxRoundsSinceA) || (urgencyThreshold <=? maxRoundsSinceB))
     && negb (maxDiff =? 0)
  then maxDiff * 10000
  else
  let sumRoundsSinceA := sumRoundsSince playerStats currentRound (cPlayers a) in
  let sumRoundsSinceB := sumRoundsSince playerStats currentRound (cPlayers b) in
  if negb (sumRoundsSinceA =? sumRoundsSinceB)
  then (sumRoundsSinceB - sumRoundsSinceA) * 100
  else
  let restDiff := (avgRest b - avgRest a)%Q in
  if Qgtb (Qabs restDiff) (3 # 10)
  then (if Qgtb restDiff 0 then 1 else -1) * 50
  else
  let minRoundsSinceA := minRoundsSince playerStats currentRound (cPlayers a) in
  let minRoundsSinceB := minRoundsSince playerStats currentRound (cPlayers b) in
  if negb (minRoundsSinceA =? minRoundsSinceB)
  then (minRoundsSinceB - minRoundsSinceA) * 10
  else freshnessScore a - freshnessScore b.

(** ** Round packing ([selectRoundMatches]) *)

Definition hasConflict (usedPlayers : gset string) (players : list Player) : bool :=
  existsb (λ player, bool_decide (player ∈ usedPlayers)) players.

(** First pass: only candidates holding a player who waited at least
    [maxConsecutiveRests] rounds.  The recursion stops where the source
    executes [break]. *)
Fixpoint firstPass (courts : Num.t) (playerStats : gmap string PlayerStats)
    (currentRound maxConsecutiveRests : Z) (candidates : list MatchCandidate)
    (selected : list MatchObj) (usedPlayers : gset string)
    : list MatchObj * gset string :=
  match candidates with
  | [] => (selected, usedPlayers)
  | candidate :: rest =>
      if Num.geb (Num.ofNat (length selected)) courts then (selected, usedPlayers)
      else
        let maxWait := maxRoundsSince playerStats currentRound (cPlayers candidate) in
        let hasCriticalPlayer := maxConsecutiveRests <=? maxWait in
        if negb hasCriticalPlayer
        then firstPass courts playerStats currentRound maxConsecutiveRests rest selected usedPlayers
        else if hasConflict usedPlayers (cPlayers candidate)
        then firstPass courts playerStats currentRound maxConsecutiveRests rest selected usedPlayers
        else firstPass courts playerStats currentRound maxConsecutiveRests rest
               (selected ++ [cMatch candidate])
               (usedPlayers ∪ list_to_set (cPlayers candidate))
  end.

(** Second pass: any candidate that is not selected yet and has no player
    in use.  ([selected.includes] compares object identities; the matches of
    the pool are distinct objects with distinct ids, so this is equality of
    the records.) *)
Fixpoint secondPass (courts : Num.t) (candidates : list MatchCandidate)
    (selected : list MatchObj) (usedPlayers : gset string)
    : list MatchObj * gset string :=
  match candidates with
  | [] => (selected, usedPlayers)
  | candidate :: rest =>
      if Num.geb (Num.ofNat (length selected)) courts then (selected, usedPlayers)
      else if bool_decide (cMatch candidate ∈ selected)
      then secondPass courts rest selected usedPlayers
      else if hasConflict usedPlayers (cPlayers candidate)
      then secondPass courts rest selected usedPlayers
      else secondPass courts rest
             (selected ++ [cMatch candidate])
             (usedPlayers ∪ list_to_set (cPlayers candidate))
  end.

(** The state of the [while] loop of [generateSchedule]: its mutable
    locals, and the identifier supply. *)
Module St.
Record t := mk {
  remainingMatches : list MatchObj;
  playerStats : gmap string PlayerStats;
  teamUsageCount : gmap string Z;
  teamLastUsedRound : gmap string Z;
  rounds : list Round;
  roundNumber : Z;
  nextId : nat
}.
End St.

Definition maxIterations : Z := 1000.

(** [playerStats.get(player)!]: every player of the roster has an entry
    (see [inv_stats]), so the default is never taken. *)
Definition getStats (playerStats : gmap string PlayerStats) (player : Player)
    : PlayerStats :=
  default (mkStats 0 0 (-1)) (playerStats !! player).

(** Third pass, in [generateSchedule]: candidates are freshly enumerated
    matches, accepted when they hold a missing urgent player and no player
    in use. *)
Fixpoint repairPass (courts : Num.t) (missingUrgentPlayers : list Player)
    (allPossibleMatches : list MatchObj) (roundMatches : list MatchObj)
    (playingPlayers : gset string) : list MatchObj :=
  match allPossibleMatches with
  | [] => roundMatches
  | m :: rest =>
      if Num.geb (Num.ofNat (length roundMatches)) courts then roundMatches
      else
        let matchPlayers := getMatchPlayers m in
        let hasUrgent :=
          existsb (λ urgentPlayer, bool_decide (urgentPlayer ∈ matchPlayers))
                  missingUrgentPlayers in
        if negb hasUrgent
        then repairPass courts missingUrgentPlayers rest roundMatches playingPlayers
        else if hasConflict playingPlayers matchPlayers
        then repairPass courts missingUrgentPlayers rest roundMatches playingPlayers
        else repairPass courts missingUrgentPlayers rest
               (roundMatches ++ [m]) (playingPlayers ∪ list_to_set matchPlayers)
  end.

(** The players of a list of matches, match after match, and as the [Set]
    that the source accumulates them in. *)
Definition playersOfMatches (roundMatches : list MatchObj) : list Player :=
  roundMatches ≫= getMatchPlayers.

Definition playingOf (roundMatches : list MatchObj) : gset string :=
  list_to_set (playersOfMatches roundMatches).

(** End-of-round update of the player statistics. *)
Definition updatePlayerStats (players : list Player) (playingPlayers : gset string)
    (roundNumber : Z) (playerStats : gmap string PlayerStats)
    : gmap string PlayerStats :=
  foldl (λ acc player,
           let stats := getStats acc player in
           if bool_decide (player ∈ playingPlayers)
           then <[player := {| playCount := playCount stats + 1;
                               restCount := restCount stats;
                               lastPlayedRound := roundNumber |}]> acc
           else <[player := {| playCount := playCount stats;
                               restCount := restCount stats + 1;
                               lastPlayedRound := lastPlayedRound stats |}]> acc)
        playerStats players.

(** End-of-round update of the two team maps. *)
Definition updateTeamTracking (roundMatches : list MatchObj) (roundNumber : Z)
    (maps : gmap string Z * gmap string Z) : gmap string Z * gmap string Z :=
  foldl (λ '(usage, lastUsed) m,
           let '(teamAKey, teamBKey) := getMatchTeams m in
           let usage1 := <[teamAKey := orElse (usage !! teamAKey) 0 + 1]> usage in
           let usage2 := <[teamBKey := orElse (usage1 !! teamBKey) 0 + 1]> usage1 in
           (usage2, <[teamBKey := roundNumber]> (<[teamAKey := roundNumber]> lastUsed)))
        maps roundMatches.

(** What a call of [generateSchedule] does: return a schedule or throw an
    [Error] with a message.  [OutOfFuel] is the embedding's own: the loop
    did not finish within the iterations granted, which
    [generateSchedule_validation] excludes. *)
Inductive Outcome :=
| Returned (s : Schedule)
| Thrown (message : string)
| OutOfFuel.

Section Scheduler.

(** [Array.prototype.sort] with a comparator.  In every engine its result
    is a rearrangement of the array, but the language fixes the order only
    when the comparator is a consistent ordering, which [compareCandidates]
    is not on all inputs (differences of [avgRest] up to 0.3 count as
    ties).  The scheduler is therefore embedded over the sort function:
    the general properties are proved for every function that rearranges
    its argument, and the concrete runs use [stableSort]. *)
Variable sortBy :
  (MatchCandidate → MatchCandidate → Z) → list MatchCandidate → list MatchCandidate.

Definition selectRoundMatches (availableMatches : list MatchObj) (courts : Num.t)
    (playerStats : gmap string PlayerStats)
    (teamUsageCount teamLastUsedRound : gmap string Z) (currentRound : Z)
    : list MatchObj :=
  if (Z.of_nat (length availableMatches) =? 0) || Num.eqb courts (Num.ofZ 0) then []
  else
    let candidates :=
      makeCandidate playerStats teamUsageCount teamLastUsedRound currentRound
        <$> availableMatches in
    let candidates := sortBy (compareCandidates playerStats currentRound) candidates in
    let maxConsecutiveRests := restThreshold (size playerStats) in
    let '(selected, usedPlayers) :=
      firstPass courts playerStats currentRound maxConsecutiveRests candidates [] ∅ in
    fst (secondPass courts candidates selected usedPlayers).

Section Loop.
(** The locals of [generateSchedule] that the loop only reads. *)
Variables (players : list Player) (courts : Num.t) (matchType : MatchType).

Definition maxConsecutiveRests : Z := restThreshold (length players).

Definition isUrgent (st : St.t) (player : Player) : bool :=
  let stats := getStats (St.playerStats st) player in
  let roundsSincePlay := St.roundNumber st - lastPlayedRound stats in
  maxConsecutiveRests <=? roundsSincePlay.

Definition hasUrgentPlayer (st : St.t) : bool := existsb (isUrgent st) players.

Definition urgentPlayers (st : St.t) : list Player := filter (λ p, isUrgent st p) players.

Definition canScheduleUrgent (st : St.t) : bool :=
  existsb (λ m, existsb (λ urgentPlayer,
                           bool_decide (urgentPlayer ∈ getMatchPlayers m))
                        (urgentPlayers st))
          (St.remainingMatches st).

(** The block guarded by [if (hasUrgentPlayer)] after the selection;
    answers the round's matches and the identifier supply. *)
Definition urgencyRepair (st : St.t) (roundMatches : list MatchObj)
    : list MatchObj * nat :=
  let playingPlayers := playingOf roundMatches in
  let missingUrgentPlayers :=
    filter (λ p, p ∉ playingPlayers) (urgentPlayers st) in
  if (0 <? Z.of_nat (length missingUrgentPlayers))
     && Num.ltb (Num.ofNat (length roundMatches)) courts
  then
    let '(allPossibleMatches, next) :=
      generateAllMatches (generateTeams players matchType) (St.nextId st) in
    (repairPass courts missingUrgentPlayers allPossibleMatches roundMatches
                playingPlayers, next)
  else (roundMatches, St.nextId st).

(** One evaluation of the loop condition followed by one execution of
    the loop body.  [None]: the loop is left (condition false, or one of
    the two [break]s). *)
Definition loopIteration (st : St.t) : option St.t :=
  if negb ((0 <? Z.of_nat (length (St.remainingMatches st)))
           && (St.roundNumber st <? maxIterations))
  then None
  else if hasUrgentPlayer st && negb (canScheduleUrgent st) then None
  else
    let selected :=
      selectRoundMatches (St.remainingMatches st) courts (St.playerStats st)
        (St.teamUsageCount st) (St.teamLastUsedRound st) (St.roundNumber st) in
    let '(roundMatches, next) :=
      if hasUrgentPlayer st then urgencyRepair st selected
      else (selected, St.nextId st) in
    if Z.of_nat (length roundMatches) =? 0 then None
    else
      let playingPlayers := playingOf roundMatches in
      let restingPlayers := filter (λ p, p ∉ playingPlayers) players in
      let '(usage, lastUsed) :=
        updateTeamTracking roundMatches (St.roundNumber st)
          (St.teamUsageCount st, St.teamLastUsedRound st) in
      let scheduledIds := matchId <$> roundMatches in
      Some {| St.remainingMatches :=
                filter (λ m, matchId m ∉ scheduledIds) (St.remainingMatches st);
              St.playerStats :=
                updatePlayerStats players playingPlayers (St.roundNumber st)
                  (St.playerStats st);
              St.teamUsageCount := usage;
              St.teamLastUsedRound := lastUsed;
              St.rounds :=
                St.rounds st ++
                [{| roundId := "r" +:+ pretty (St.roundNumber st + 1);
                    matches := roundMatches;
                    resting := restingPlayers;
                    completed := false |}];
              St.roundNumber := St.roundNumber st + 1;
              St.nextId := next |}.

(** The [while] loop; [None] only if [fuel] iterations were not enough
    to leave it. *)
Fixpoint whileLoop (fuel : nat) (st : St.t) : option St.t :=
  match fuel with
  | O => None
  | S fuel' =>
      match loopIteration st with
      | None => Some st
      | Some st' => whileLoop fuel' st'
      end
  end.

(** The state on entry to the loop. *)
Definition initialState : St.t :=
  let teams := generateTeams players matchType in
  let '(allMatches, next) := generateAllMatches teams 0 in
  {| St.remainingMatches := allMatches;
     St.playerStats :=
       foldl (λ acc player, <[player := mkStats 0 0 (-1)]> acc) ∅ players;
     St.teamUsageCount :=
       foldl (λ acc team, <[getTeamKey team := 0]> acc) ∅ teams;
     St.teamLastUsedRound :=
       foldl (λ acc team, <[getTeamKey team := -10]> acc) ∅ teams;
     St.rounds := [];
     St.roundNumber := 0;
     St.nextId := next |}.
End Loop.

Definition generateSchedule (inputPlayers : list Player) (courts : Num.t)
    (matchType : MatchType) : Outcome :=
  let uniquePlayers := arrayFromSet inputPlayers in
  if (length uniquePlayers <? length inputPlayers)%nat
     && (length uniquePlayers <? 5)%nat
  then
    let duplicateCount := (length inputPlayers - length uniquePlayers)%nat in
    Thrown ("After removing " +:+ pretty duplicateCount
            +:+ " duplicate(s), only " +:+ pretty (length uniquePlayers)
            +:+ " unique players remain. Minimum 5 required.")
  else if (length uniquePlayers <? 5)%nat
  then Thrown "At least 5 unique players required"
  else if Num.ltb courts (Num.ofZ 1)
  then Thrown "At least 1 court required"
  else
    let players := uniquePlayers in
    let useFallback := (16 <? length players)%nat in
    let warning :=
      if useFallback then Some "large_n; fallback_to_greedy" else None in
    match whileLoop players courts matchType (S (Z.to_nat maxIterations))
                    (initialState players matchType) with
    | Some st => Returned {| rounds := St.rounds st; warning := warning |}
    | None => OutOfFuel
    end.

End Scheduler.

(** ** Observations on a schedule *)

Definition roundPlayers (r : Round) : list Player := playersOfMatches (matches r).

Definition scheduledIds (rs : list Round) : list nat :=
  rs ≫= (λ r, matchId <$> matches r).

(** Number of rounds at the end of [rs] that [p] spent resting, counted the
    way the test-suite counts streaks. *)
Fixpoint restingRunFrom (current : nat) (rs : list Round) (p : Player) : nat :=
  match rs with
  | [] => current
  | r :: rest =>
      restingRunFrom (if bool_decide (p ∈ resting r) then S current else O) rest p
  end.

Definition restingRun (rs : list Round) (p : Player) : nat := restingRunFrom 0 rs p.

Fixpoint longestRestFrom (current best : nat) (rs : list Round) (p : Player) : nat :=
  match rs with
  | [] => best
  | r :: rest =>
      let current' := if bool_decide (p ∈ resting r) then S current else O in
      longestRestFrom current' (Nat.max best current') rest p
  end.

(** The longest run of consecutive rounds of [rs] in which [p] rests. *)
Definition longestRestingRun (rs : list Round) (p : Player) : nat :=
  longestRestFrom 0 0 rs p.

(** [p] is urgent before round [length rs] of a schedule that starts with
    [rs]: resting once more brings the run to [threshold] rounds or more. *)
Definition urgentAfter (threshold : Z) (rs : list Round) (p : Player) : Prop :=
  threshold ≤ Z.of_nat (restingRun rs p) + 1.

(** ** The ordering rule as the specification words it

    The six comparators of the ordering rule, each answering a sign
    (negative: [a] first), and their lexicographic combination: the first
    comparator that is not zero decides. *)
Module Spec.

Definition wait (playerStats : gmap string PlayerStats) (r : Z) (p : Player) : Z :=
  r - lastPlayedRound (getStats playerStats p).

Definition max_wait playerStats r (m : MatchObj) : Z :=
  mathMax (wait playerStats r <$> getMatchPlayers m).
Definition sum_wait playerStats r (m : MatchObj) : Z :=
  sumZ (wait playerStats r <$> getMatchPlayers m).
Definition min_wait playerStats r (m : MatchObj) : Z :=
  mathMin (wait playerStats r <$> getMatchPlayers m).
Definition avg_rest (playerStats : gmap string PlayerStats) (m : MatchObj) : Q :=
  (inject_Z (sumZ ((λ p, restCount (getStats playerStats p)) <$> getMatchPlayers m))
   / inject_Z (Z.of_nat (length (getMatchPlayers m))))%Q.

Definition usage_count (teamUsageCount : gmap string Z) (key : string) : Z :=
  default 0 (teamUsageCount !! key).
(** [-10] is the sentinel of a team that was never used. *)
Definition last_used_round (teamLastUsedRound : gmap string Z) (key : string) : Z :=
  default (-10) (teamLastUsedRound !! key).

Definition recency_penalty (since : Z) : Z :=
  if since <=? 1 then 100 else if since <=? 2 then 50 else 0.

Definition freshness (teamUsageCount teamLastUsedRound : gmap string Z) (r : Z)
    (m : MatchObj) : Z :=
  let a := getTeamKey (teamA m) in
  let b := getTeamKey (teamB m) in
  let usage := usage_count teamUsageCount a + usage_count teamUsageCount b in
  let since_a := r - last_used_round teamLastUsedRound a in
  let since_b := r - last_used_round teamLastUsedRound b in
  usage * 100 + (recency_penalty since_a + recency_penalty since_b)
  + (10 - Z.min since_a since_b).

Definition T (numPlayers : nat) : Z := if (numPlayers <=? 7)%nat then 1 else 2.
Definition U (numPlayers : nat) : Z := Z.max 1 (T numPlayers - 1).

(** Sign of "compare by [f] descending" and "ascending". *)
Definition descending (fa fb : Z) : Z := Z.sgn (fb - fa).
Definition ascending (fa fb : Z) : Z := Z.sgn (fa - fb).

Fixpoint firstNonZero (cs : list Z) : Z :=
  match cs with
  | [] => 0
  | c :: rest => if c =? 0 then firstNonZero rest else c
  end.

Definition order (numPlayers : nat) (playerStats : gmap string PlayerStats)
    (teamUsageCount teamLastUsedRound : gmap string Z) (r : Z)
    (a b : MatchObj) : Z :=
  let max_a := max_wait playerStats r a in
  let max_b := max_wait playerStats r b in
  let critical :=
    if (T numPlayers <=? max_a) || (T numPlayers <=? max_b)
    then descending max_a max_b else 0 in
  let approaching :=
    if (T numPlayers <=? max_a) || (T numPlayers <=? max_b) then 0
    else if (U numPlayers <=? max_a) || (U numPlayers <=? max_b)
    then descending max_a max_b else 0 in
  let collective :=
    descending (sum_wait playerStats r a) (sum_wait playerStats r b) in
  let rest_diff := (avg_rest playerStats b - avg_rest playerStats a)%Q in
  let rest_balance :=
    if Qgtb (Qabs rest_diff) (3 # 10)
    then match (rest_diff ?= 0)%Q with Gt => 1 | Lt => -1 | Eq => 0 end
    else 0 in
  let minimum :=
    descending (min_wait playerStats r a) (min_wait playerStats r b) in
  let partnership :=
    ascending (freshness teamUsageCount teamLastUsedRound r a)
              (freshness teamUsageCount teamLastUsedRound r b) in
  firstNonZero [critical; approaching; collective; rest_balance; minimum; partnership].

End Spec.


(** ** Predicates used by the proofs *)

(** A match over the roster: it has players, and they are all on it. *)
Definition validMatch (players : list Player) (m : MatchObj) : Prop :=
  getMatchPlayers m ≠ [] ∧ ∀ p, p ∈ getMatchPlayers m → p ∈ players.

(** [n] matches were pushed one by one, each while the test
    [length >= courts] of the passes was false. *)
Definition courtsAllow (courts : Num.t) (n : nat) : Prop :=
  ∀ k, (k < n)%nat → Num.geb (Num.ofNat k) courts = false.

(** The state of a packing pass: [usedPlayers] is the set of the players of
    [selected], no player is in two selected matches, the selected matches
    come from [pool], and each was pushed while the courts were not full. *)
Record Packed (courts : Num.t) (pool selected : list MatchObj)
    (usedPlayers : gset string) : Prop := mkPacked {
  packed_used : usedPlayers = playingOf selected;
  packed_disjoint : NoDup (playersOfMatches selected);
  packed_pool : ∀ m, m ∈ selected → m ∈ pool;
  packed_courts : courtsAllow courts (length selected)
}.

(** A candidate as [selectRoundMatches] builds it from a match of [pool]. *)
Definition candidateOf (pool : list MatchObj) (c : MatchCandidate) : Prop :=
  cMatch c ∈ pool ∧ cPlayers c = getMatchPlayers (cMatch c).

(** What every round of a schedule over roster [players] satisfies, given
    the rounds [before] it. *)
Record RoundOk (players : list Player) (courts : Num.t) (before : list Round)
    (r : Round) : Prop := mkRoundOk {
  ok_disjoint : NoDup (roundPlayers r);
  ok_valid : ∀ m, m ∈ matches r → validMatch players m;
  ok_resting : resting r = filter (λ p, p ∉ playingOf (matches r)) players;
  ok_courts : (1 ≤ length (matches r))%nat ∧ courtsAllow courts (length (matches r));
  ok_urgent :
    (∃ p, p ∈ players ∧ urgentAfter (restThreshold (length players)) before p) →
    ∃ p, p ∈ players ∧ urgentAfter (restThreshold (length players)) before p
         ∧ p ∈ roundPlayers r
}.

(** The invariant of the scheduling loop. *)
Record Inv (players : list Player) (courts : Num.t) (st : St.t) : Prop := mkInv {
  inv_roundNumber : St.roundNumber st = Z.of_nat (length (St.rounds st));
  inv_cap : St.roundNumber st ≤ maxIterations;
  inv_stats : dom (St.playerStats st) = list_to_set players;
  inv_lastPlayed : ∀ p, p ∈ players →
    lastPlayedRound (getStats (St.playerStats st) p)
    = Z.of_nat (length (St.rounds st)) - 1 - Z.of_nat (restingRun (St.rounds st) p);
  inv_remaining : ∀ m, m ∈ St.remainingMatches st → validMatch players m;
  inv_ids : NoDup ((matchId <$> St.remainingMatches st) ++ scheduledIds (St.rounds st));
  inv_fresh : ∀ i, i ∈ (matchId <$> St.remainingMatches st) ++ scheduledIds (St.rounds st) →
    (i < St.nextId st)%nat;
  inv_rounds : ∀ k r, St.rounds st !! k = Some r →
    RoundOk players courts (take k (St.rounds st)) r
}.


(** What the selection and the urgency repair leave behind, for a round
    [r] that follows the rounds [before]: a player of the roster who is
    urgent before [r] and does not play in it finds that the round does
    not have fewer than [courts] matches, or that every two teams of the
    roster that share no player and include the player include somebody
    who plays in [r] (no match with the player could be added). *)
Definition RepairOk (players : list Player) (courts : Num.t) (matchType : MatchType)
    (before : list Round) (r : Round) : Prop :=
  ∀ p, p ∈ players → urgentAfter (restThreshold (length players)) before p →
    p ∉ roundPlayers r →
    Num.ltb (Num.ofNat (length (matches r))) courts = false
    ∨ ∀ t u, t ∈ generateTeams players matchType →
             u ∈ generateTeams players matchType →
             (∀ x, x ∈ t → x ∉ u) → p ∈ t ∨ p ∈ u →
             ∃ q, (q ∈ t ∨ q ∈ u) ∧ q ∈ roundPlayers r.

Definition Repaired (players : list Player) (courts : Num.t) (matchType : MatchType)
    (st : St.t) : Prop :=
  ∀ k r, St.rounds st !! k = Some r →
    RepairOk players courts matchType (take k (St.rounds st)) r.

(** The number of players of a match. *)
Definition matchSize (matchType : MatchType) : nat :=
  match matchType with singles => 2 | doubles => 4 end.

(** The state at the top of the iteration reached after [k] full
    iterations from [st], if the loop gets that far. *)
Fixpoint iterations
    (sortBy : (MatchCandidate → MatchCandidate → Z) → list MatchCandidate → list MatchCandidate)
    (players : list Player) (courts : Num.t) (matchType : MatchType)
    (k : nat) (st : St.t) : option St.t :=
  match k with
  | O => Some st
  | S k' =>
      match loopIteration sortBy players courts matchType st with
      | Some st' => iterations sortBy players courts matchType k' st'
      | None => None
      end
  end.

(** The singles matches over a roster, as pairs of teams: every player
    against every later player. *)
Fixpoint pairings (players : list Player) : list (Team * Team) :=
  match players with
  | [] => []
  | p :: rest => ((λ q, ([p], [q])) <$> rest) ++ pairings rest
  end.

Definition teamsOf (m : MatchObj) : Team * Team := (teamA m, teamB m).

(** The comparator of [selectRoundMatches] at a loop state, on the
    candidates that it builds for two matches, and the specification's
    order at the same state. *)
Definition compareMatches (st : St.t) (a b : MatchObj) : Z :=
  let candidate :=
    makeCandidate (St.playerStats st) (St.teamUsageCount st)
      (St.teamLastUsedRound st) (St.roundNumber st) in
  compareCandidates (St.playerStats st) (St.roundNumber st) (candidate a) (candidate b).

Definition specOrder (players : list Player) (st : St.t) (a b : MatchObj) : Z :=
  Spec.order (length players) (St.playerStats st) (St.teamUsageCount st)
    (St.teamLastUsedRound st) (St.roundNumber st) a b.

(** Scenario S3 of the specification. *)
Definition playersS3 : list Player := ["A"; "B"; "C"; "D"; "E"; "F"; "G"; "H"].

(** ** Concrete runs *)

Definition scheduleOf (o : Outcome) : Schedule :=
  match o with
  | Returned s => s
  | _ => {| rounds := []; warning := None |}
  end.

(** Scenario S1 of the specification: five players, one court, singles. *)
Definition playersS1 : list Player := ["A"; "B"; "C"; "D"; "E"].

Definition scheduleS1 : Schedule :=
  Eval vm_compute in scheduleOf (generateSchedule stableSort playersS1 (Num.ofZ 1) singles).

(** Six players on three courts, singles: from the second round on, the
    urgency repair completes the rounds with matches that were played
    before. *)
Definition playersSix : list Player := ["A"; "B"; "C"; "D"; "E"; "F"].

Definition scheduleSix : Schedule :=
  Eval vm_compute in scheduleOf (generateSchedule stableSort playersSix (Num.ofZ 3) singles).

(** Eight players on one court, singles: the threshold is 2. *)
Definition scheduleEight : Schedule :=
  Eval vm_compute in
    scheduleOf (generateSchedule stableSort playersS3 (Num.ofZ 1) singles).

(** The roster of S1 with one court and a half: [courts] is a number that
    is not whole. *)
Definition scheduleS1Fractional : Schedule :=
  Eval vm_compute in
    scheduleOf (generateSchedule stableSort playersS1 (Num.Finite (3 # 2)) singles).

(** A roster of five names, one of them empty. *)
Definition playersWithEmptyName : list Player := [""; "A"; "B"; "C"; "D"].

(** A loop state over the roster of S3 at which the safety gate closes:
    before round 3, C to H have not played since round 0, and the only
    match left is between A and B, who both played round 2. *)
Definition gateState : St.t :=
  {| St.remainingMatches := [{| matchId := 0; teamA := ["A"]; teamB := ["B"] |}];
     St.playerStats :=
       list_to_map
         (((λ p, (p, mkStats 1 2 2)) <$> ["A"; "B"])
          ++ ((λ p, (p, mkStats 1 2 0)) <$> ["C"; "D"; "E"; "F"; "G"; "H"]));
     St.teamUsageCount := ∅;
     St.teamLastUsedRound := ∅;
     St.rounds := [];
     St.roundNumber := 3;
     St.nextId := 28 |}.

(** ** The helpers of [scheduler.ts] that the scheduler does not call *)

(** [matchesOverlap]: the two loops over the [Set]s of players. *)
Definition matchesOverlap (m1 m2 : MatchObj) : bool :=
  let players1 := getMatchPlayers m1 in
  let players2 := getMatchPlayers m2 in
  existsb (λ p, bool_decide (p ∈ players2)) players1.

Definition calculatePlayerFrequency (matches : list MatchObj) : gmap string Z :=
  foldl (λ frequency m,
           foldl (λ frequency player,
                    <[player := orElse (frequency !! player) 0 + 1]> frequency)
                 frequency (getMatchPlayers m))
        ∅ matches.

Definition calculateMatchRarity (m : MatchObj) (playerFreq : gmap string Z) : Z :=
  foldl (λ sum player, sum + orElse (playerFreq !! player) 0) 0 (getMatchPlayers m).

(** ** The checks of the test-suite ([validateSchedule], [calculateRestStats])

    Match identifiers are written in a message the way the identifier
    supply numbers them. *)

(** The character that encloses the player's name in a message. *)
Definition doubleQuote : string := String (Ascii.ascii_of_nat 34) EmptyString.

Record ValidationResult := mkValidation {
  valid : bool;
  errors : list string
}.

(** The body of the loop over the players of a match of round [i]. *)
Definition checkPlayer (i : nat) (acc : list string * gset string) (player : Player)
    : list string * gset string :=
  let '(errors, playersInRound) := acc in
  let errors :=
    if bool_decide (player ∈ playersInRound)
    then errors ++ ["Round " +:+ pretty (i + 1)%nat +:+ ": Player " +:+ doubleQuote
                    +:+ player +:+ doubleQuote +:+ " appears multiple times"]
    else errors in
  (errors, playersInRound ∪ {[player]}).

(** The body of the loop over the matches of round [i]. *)
Definition checkMatch (i : nat) (acc : list string * gset string * gset nat) (m : MatchObj)
    : list string * gset string * gset nat :=
  let '(errors, playersInRound, allMatchIds) := acc in
  let '(errors, playersInRound) :=
    foldl (checkPlayer i) (errors, playersInRound) (getMatchPlayers m) in
  let errors :=
    if bool_decide (matchId m ∈ allMatchIds)
    then errors ++ ["Duplicate match ID: " +:+ pretty (matchId m)]
    else errors in
  (errors, playersInRound, allMatchIds ∪ {[matchId m]}).

(** The loop over the rounds, from index [i] on. *)
Fixpoint checkRounds (i : nat) (rounds : list Round) (acc : list string * gset nat)
    : list string * gset nat :=
  match rounds with
  | [] => acc
  | round :: rest =>
      let '(errors, allMatchIds) := acc in
      let '(errors, _, allMatchIds) :=
        foldl (checkMatch i) (errors, ∅, allMatchIds) (matches round) in
      checkRounds (S i) rest (errors, allMatchIds)
  end.

Definition validateSchedule (rounds : list Round) : ValidationResult :=
  let '(errors, _) := checkRounds 0 rounds ([], ∅) in
  {| valid := (length errors =? 0)%nat; errors := errors |}.

Record RestStats := mkRestStats {
  restCounts : gmap string Z;
  maxDiff : Z
}.

(** [Array.from(restCounts.values())] lists the counts in the order in
    which the keys were inserted; only its length, its maximum and its
    minimum are used, which do not depend on the order. *)
Definition calculateRestStats (rounds : list Round) (players : list Player) : RestStats :=
  let restCounts :=
    foldl (λ acc player, <[player := 0]> acc) (∅ : gmap string Z) players in
  let restCounts :=
    foldl (λ acc round,
             foldl (λ acc player, <[player := orElse (acc !! player) 0 + 1]> acc)
                   acc (resting round))
          restCounts rounds in
  let counts := (map_to_list restCounts).*2 in
  {| restCounts := restCounts;
     maxDiff := if (0 <? Z.of_nat (length counts))
                then mathMax counts - mathMin counts else 0 |}.

(** ** The schedule store ([store.ts])

    The store keeps the schedules in a [Map] from schedule identifiers.
    It writes the map to a JSON file after every change and reads the file
    once, when it is constructed; its methods answer from the map alone,
    which is what is modelled. *)
Module Store.

(** [Schedule] of [types.ts]. *)
Record Schedule := mkSchedule {
  id : string;
  players : list Player;
  courts : Num.t;
  matchType : MatchType;
  rounds : list Round
}.

Abbreviation t := (gmap string Schedule) (only parsing).

Definition saveSchedule (schedule : Schedule) (schedules : t) : t :=
  <[id schedule := schedule]> schedules.

Definition getSchedule (scheduleId : string) (schedules : t) : option Schedule :=
  schedules !! scheduleId.

(** [rounds.find((r) => r.id === roundId)] followed by
    [round.completed = !round.completed]: the first round with the
    identifier changes; [None] when there is no such round. *)
Fixpoint toggleFirst (rid : string) (rounds : list Round) : option (list Round) :=
  match rounds with
  | [] => None
  | r :: rest =>
      if String.eqb (roundId r) rid
      then Some ({| roundId := roundId r; matches := matches r; resting := resting r;
                    completed := negb (completed r) |} :: rest)
      else cons r <$> toggleFirst rid rest
  end.

(** Answers the schedule, or [None] for [null], and the map afterwards. *)
Definition toggleRoundComplete (scheduleId rid : string) (schedules : t)
    : option Schedule * t :=
  match schedules !! scheduleId with
  | None => (None, schedules)
  | Some schedule =>
      match toggleFirst rid (rounds schedule) with
      | None => (None, schedules)
      | Some rounds' =>
          let schedule' :=
            {| id := id schedule; players := players schedule;
               courts := courts schedule; matchType := matchType schedule;
               rounds := rounds' |} in
          (Some schedule', <[scheduleId := schedule']> schedules)
      end
  end.

Definition clear (schedules : t) : t := ∅.

End Store.

(** ** The request handlers ([index.ts])

    A handler is a function from the parameters and the body of the
    request, and the store, to the status and the body of the response,
    and the store afterwards. *)
Module Api.

(** A value of a parsed JSON body. *)
#[local] Unset Elimination Schemes.
Inductive Json :=
| JNull
| JBool (b : bool)
| JNum (n : Num.t)
| JStr (s : string)
| JArr (items : list Json)
| JObj (fields : list (string * Json)).
#[local] Set Elimination Schemes.

(** The three properties read off [req.body]; [None] is [undefined]. *)
Record ScheduleRequest := mkRequest {
  players : option Json;
  courts : option Json;
  matchType : option Json
}.

(** The JSON bodies that the handlers send. *)
Inductive Body :=
| Error (error : string)
| Created (scheduleId : string) (rounds : list Round) (warning : option string)
| Found (scheduleId : string) (rounds : list Round) (players : list Player)
        (courts : Num.t) (matchType : MatchType)
| Toggled (scheduleId roundId : string) (completed : bool).

Record Response := mkResponse {
  status : Z;
  body : Body
}.

End Api.

Definition badRequest (error : string) : Api.Response :=
  {| Api.status := 400; Api.body := Api.Error error |}.

Definition notFound (error : string) : Api.Response :=
  {| Api.status := 404; Api.body := Api.Error error |}.

(** [matchType !== "singles" && matchType !== "doubles"] *)
Definition parseMatchType (v : option Api.Json) : option MatchType :=
  match v with
  | Some (Api.JStr s) =>
      if String.eqb s "singles" then Some singles
      else if String.eqb s "doubles" then Some doubles
      else None
  | _ => None
  end.

Section Handlers.
(** [String.prototype.trim], and the sort of the scheduler. *)
Variable trim : string → string.
Variable sortBy :
  (MatchCandidate → MatchCandidate → Z) → list MatchCandidate → list MatchCandidate.

(** [players.map((p) => typeof p === "string" ? p.trim() : "")
            .filter((p) => p.length > 0)] *)
Definition cleanPlayers (players : list Api.Json) : list Player :=
  filter (λ p, (0 < String.length p)%nat)
         ((λ p, match p with Api.JStr s => trim s | _ => "" end) <$> players).

(** [POST /api/schedule].  [uuid] is what [uuidv4()] answers for the
    schedule identifier.  The result is the response and the store
    afterwards; [None] stands for a scheduler that ran out of fuel. *)
Definition postSchedule (uuid : string) (request : Api.ScheduleRequest)
    (store : Store.t) : option (Api.Response * Store.t) :=
  match Api.players request with
  | Some (Api.JArr players) =>
      if (length players =? 0)%nat
      then Some (badRequest "Invalid request: at least one player required", store)
      else
        match Api.courts request with
        | Some (Api.JNum courts) =>
            if Num.ltb courts (Num.ofZ 1)
            then Some (badRequest "Invalid request: courts must be a number >= 1", store)
            else
              match parseMatchType (Api.matchType request) with
              | None =>
                  Some (badRequest ("Invalid request: matchType must be " +:+ doubleQuote
                                    +:+ "singles" +:+ doubleQuote +:+ " or " +:+ doubleQuote
                                    +:+ "doubles" +:+ doubleQuote), store)
              | Some matchType =>
                  let cleanedPlayers := cleanPlayers players in
                  if (length cleanedPlayers <? 5)%nat
                  then Some (badRequest
                               ("Invalid request: at least 5 non-empty players required (got "
                                +:+ pretty (length cleanedPlayers) +:+ ")"), store)
                  else
                    match generateSchedule sortBy cleanedPlayers courts matchType with
                    | Returned result =>
                        let scheduleId := "sch_" +:+ uuid in
                        let schedule :=
                          {| Store.id := scheduleId;
                             Store.players := cleanedPlayers;
                             Store.courts := courts;
                             Store.matchType := matchType;
                             Store.rounds := rounds result |} in
                        let warning :=
                          match warning result with
                          | Some w => if (0 <? String.length w)%nat then Some w else None
                          | None => None
                          end in
                        Some ({| Api.status := 201;
                                 Api.body := Api.Created scheduleId (rounds result) warning |},
                              Store.saveSchedule schedule store)
                    | Thrown message => Some (badRequest message, store)
                    | OutOfFuel => None
                    end
              end
        | _ => Some (badRequest "Invalid request: courts must be a number >= 1", store)
        end
  | _ => Some (badRequest "Invalid request: players must be an array of strings", store)
  end.

End Handlers.

(** [GET /api/schedule/:scheduleId] *)
Definition getScheduleById (scheduleId : string) (store : Store.t) : Api.Response :=
  match Store.getSchedule scheduleId store with
  | None => notFound ("Schedule not found: " +:+ scheduleId)
  | Some schedule =>
      {| Api.status := 200;
         Api.body := Api.Found (Store.id schedule) (Store.rounds schedule)
                       (Store.players schedule) (Store.courts schedule)
                       (Store.matchType schedule) |}
  end.

(** [POST /api/schedule/:scheduleId/round/:roundId/complete] *)
Definition postRoundComplete (scheduleId rid : string) (store : Store.t)
    : Api.Response * Store.t :=
  match Store.toggleRoundComplete scheduleId rid store with
  | (None, store') =>
      (notFound ("Schedule or round not found: " +:+ scheduleId +:+ " / " +:+ rid), store')
  | (Some schedule, store') =>
      let round := find (λ r, bool_decide (roundId r = rid)) (Store.rounds schedule) in
      ({| Api.status := 200;
          Api.body := Api.Toggled (Store.id schedule) rid
                        (from_option completed false round) |}, store')
  end.

(** ** Notions used by the further properties *)

(** The number of matches that [generateAllMatches] makes of [teams]. *)
Fixpoint countMatches (teams : list Team) : nat :=
  match teams with
  | [] => 0
  | t :: rest => length (filter (λ u, teamsOverlap t u = false) rest) + countMatches rest
  end.

(** [m] is a match between the teams [t] and [u], on either side. *)
Definition meets (t u : Team) (m : MatchObj) : Prop :=
  (teamA m = t ∧ teamB m = u) ∨ (teamA m = u ∧ teamB m = t).

#[global] Instance meets_dec t u m : Decision (meets t u m).
Proof. unfold meets. apply _. Defined.

(** The matches that [generateSchedule] enumerates on entry. *)
Definition initialPool (players : list Player) (matchType : MatchType) : list MatchObj :=
  (generateAllMatches (generateTeams players matchType) 0).1.

(** Number of rounds of [rs] in which [p] plays, and in which [p] rests. *)
Definition roundsPlayed (rs : list Round) (p : Player) : nat :=
  length (filter (λ r, p ∈ roundPlayers r) rs).

Definition roundsRested (rs : list Round) (p : Player) : nat :=
  length (filter (λ r, p ∈ resting r) rs).

(** A match between two teams of the roster that share no player. *)
Definition wellFormed (players : list Player) (matchType : MatchType) (m : MatchObj) : Prop :=
  teamA m ∈ generateTeams players matchType
  ∧ teamB m ∈ generateTeams players matchType
  ∧ teamsOverlap (teamA m) (teamB m) = false.

(** What the loop keeps besides [Inv]: every match of the initial pool is
    still in the pool or in a round, each round took at least one match
    out of the pool, rounds are numbered from 1, and the counters of the
    player statistics count the rounds. *)
Record Ledger (players : list Player) (matchType : MatchType) (st : St.t) : Prop :=
  mkLedger {
  led_pool : ∀ m, m ∈ initialPool players matchType →
    m ∈ St.remainingMatches st ∨ m ∈ St.rounds st ≫= matches;
  led_sub : ∀ m, m ∈ St.remainingMatches st → m ∈ initialPool players matchType;
  led_shape : ∀ m, m ∈ St.rounds st ≫= matches → wellFormed players matchType m;
  led_first : ∀ r, r ∈ St.rounds st →
    ∃ m, matches r !! 0%nat = Some m ∧ m ∈ initialPool players matchType;
  led_count :
    St.roundNumber st + Z.of_nat (length (St.remainingMatches st))
    ≤ Z.of_nat (length (initialPool players matchType));
  led_ids : ∀ k r, St.rounds st !! k = Some r →
    roundId r = "r" +:+ pretty (Z.of_nat k + 1) ∧ completed r = false;
  led_stats : ∀ p, p ∈ players →
    playCount (getStats (St.playerStats st) p) = Z.of_nat (roundsPlayed (St.rounds st) p)
    ∧ restCount (getStats (St.playerStats st) p) = Z.of_nat (roundsRested (St.rounds st) p)
}.

(** Number of occurrences of [p] in [l]. *)
Definition occurrences (p : Player) (l : list Player) : nat :=
  length (filter (λ q, q = p) l).

(** Number of matches of [ms] that [p] plays in. *)
Definition appearances (p : Player) (ms : list MatchObj) : nat :=
  length (filter (λ m, p ∈ getMatchPlayers m) ms).

(** The separator of the names in a key, as a character. *)
Definition comma : Ascii.ascii := Ascii.ascii_of_nat 44.

(** The name holds no comma. *)
Fixpoint commaFree (name : string) : bool :=
  match name with
  | EmptyString => true
  | String c rest => negb (Ascii.eqb c comma) && commaFree rest
  end.

(** [String.leb], the order of [sort()], as a relation. *)
Definition stringLe (x y : string) : Prop := String.leb x y = true.

(** The name of a match type in a request. *)
Definition matchTypeName (matchType : MatchType) : string :=
  match matchType with singles => "singles" | doubles => "doubles" end.

(** What makes a request for a schedule acceptable: an array of players,
    a number of courts that is not below 1, a match type, and at least
    five different names that are not empty once trimmed. *)
Definition acceptable (trim : string → string) (request : Api.ScheduleRequest) : Prop :=
  ∃ items courts matchType,
    Api.players request = Some (Api.JArr items)
    ∧ Api.courts request = Some (Api.JNum courts)
    ∧ Num.ltb courts (Num.ofZ 1) = false
    ∧ Api.matchType request = Some (Api.JStr (matchTypeName matchType))
    ∧ (5 ≤ length (arrayFromSet (cleanPlayers trim items)))%nat.

(** The keys of the teams of a match, and of the matches of a round. *)
Definition matchKeys (m : MatchObj) : list string :=
  [getTeamKey (teamA m); getTeamKey (teamB m)].

Definition roundKeys (r : Round) : list string := matches r ≫= matchKeys.

(** Number of times a team with key [key] is on court in [rs]. *)
Definition teamUses (rs : list Round) (key : string) : nat :=
  occurrences key (rs ≫= roundKeys).

(** Index of the last round of [rs] with a team with key [key]; [last] if
    there is none, the first round having index [i]. *)
Fixpoint lastUseFrom (i : Z) (rs : list Round) (key : string) (last : Z) : Z :=
  match rs with
  | [] => last
  | r :: rest =>
      lastUseFrom (i + 1) rest key (if bool_decide (key ∈ roundKeys r) then i else last)
  end.

Definition lastUse (rs : list Round) (key : string) : Z := lastUseFrom 0 rs key (-10).

(** The two team maps account for the rounds. *)
Definition Tracked (players : list Player) (matchType : MatchType) (st : St.t) : Prop :=
  ∀ key, key ∈ getTeamKey <$> generateTeams players matchType →
    St.teamUsageCount st !! key = Some (Z.of_nat (teamUses (St.rounds st) key))
    ∧ St.teamLastUsedRound st !! key = Some (lastUse (St.rounds st) key).

(** ** Concrete inputs of the further properties *)

(** The roster of the repository's test of repeated names. *)
Definition playersRepeated : list Player := ["A"; "B"; "C"; "D"; "E"; "E"; "F"].

(** A request for scenario S1. *)
Definition requestS1 : Api.ScheduleRequest :=
  {| Api.players := Some (Api.JArr (Api.JStr <$> playersS1));
     Api.courts := Some (Api.JNum (Num.ofZ 1));
     Api.matchType := Some (Api.JStr "singles") |}.

(** * Properties *)

(** ** The JavaScript helpers *)

Lemma setFrom_elem_of seen xs x : x ∈ setFrom seen xs ↔ x ∈ xs ∧ x ∉ seen.
Proof.
  revert seen. induction xs as [|y rest IH]; intros seen; simpl.
  - set_solver.
  - case_bool_decide as Hy.
    + rewrite IH. set_solver.
    + rewrite elem_of_cons, IH. destruct (decide (x = y)); set_solver.
Qed.

Lemma setFrom_NoDup seen xs : NoDup (setFrom seen xs).
Proof.
  revert seen. induction xs as [|y rest IH]; intros seen; simpl.
  - constructor.
  - case_bool_decide; [apply IH|].
    apply NoDup_cons. split; [|apply IH].
    rewrite setFrom_elem_of. set_solver.
Qed.

Lemma setFrom_filter seen xs :
  setFrom seen xs = filter (λ y, y ∉ seen) (arrayFromSet xs).
Proof.
  unfold arrayFromSet. revert seen.
  induction xs as [|x rest IH]; intros seen; [done|]. simpl.
  rewrite (IH [x]). case_bool_decide as Hx.
  - rewrite filter_cons_False by tauto.
    rewrite IH, list_filter_filter. apply list_filter_iff. set_solver.
  - rewrite filter_cons_True by done. f_equal.
    rewrite IH, list_filter_filter. apply list_filter_iff. set_solver.
Qed.

Lemma arrayFromSet_cons x xs :
  arrayFromSet (x :: xs) = x :: filter (λ y, y ≠ x) (arrayFromSet xs).
Proof.
  unfold arrayFromSet at 1. simpl. f_equal.
  rewrite setFrom_filter. apply list_filter_iff. set_solver.
Qed.

Lemma arrayFromSet_elem_of xs x : x ∈ arrayFromSet xs ↔ x ∈ xs.
Proof. unfold arrayFromSet. rewrite setFrom_elem_of. set_solver. Qed.

Lemma arrayFromSet_NoDup xs : NoDup (arrayFromSet xs).
Proof. apply setFrom_NoDup. Qed.


Lemma filter_all {A} (P : A → Prop) `{∀ x, Decision (P x)} (l : list A) :
  (∀ x, x ∈ l → P x) → filter P l = l.
Proof.
  induction l as [|y l IH]; intros HP; [done|].
  rewrite filter_cons_True by (apply HP; left). f_equal.
  apply IH. intros x Hx. apply HP. by right.
Qed.

Lemma arrayFromSet_id xs : NoDup xs → arrayFromSet xs = xs.
Proof.
  induction 1 as [|x rest Hx Hnd IH]; [done|].
  rewrite arrayFromSet_cons, IH. f_equal.
  apply filter_all. intros y Hy ->. done.
Qed.

(** ** Enumeration *)

Lemma getMatchPlayers_elem_of m p :
  p ∈ getMatchPlayers m ↔ p ∈ teamA m ∨ p ∈ teamB m.
Proof. unfold getMatchPlayers. by rewrite arrayFromSet_elem_of, elem_of_app. Qed.

Lemma getMatchPlayers_NoDup m : NoDup (getMatchPlayers m).
Proof. apply arrayFromSet_NoDup. Qed.

Lemma allPairs_elem_of players t :
  t ∈ allPairs players → ∃ p q, t = [p; q] ∧ p ∈ players ∧ q ∈ players.
Proof.
  induction players as [|x rest IH]; simpl; [by intros ?%elem_of_nil|].
  rewrite elem_of_app, list_elem_of_fmap. intros [(q & -> & Hq)|Ht].
  - exists x, q. set_solver.
  - destruct (IH Ht) as (p & q & -> & ? & ?). exists p, q. set_solver.
Qed.

Lemma generateTeams_elem_of players matchType t :
  t ∈ generateTeams players matchType → t ≠ [] ∧ ∀ p, p ∈ t → p ∈ players.
Proof.
  destruct matchType; simpl.
  - rewrite list_elem_of_fmap. intros (p & -> & Hp). set_solver.
  - intros (p & q & -> & ? & ?)%allPairs_elem_of. set_solver.
Qed.

Lemma matchesAgainst_spec t others next :
  let '(ms, next') := matchesAgainst t others next in
  matchId <$> ms = seq next (length ms) ∧ next' = (next + length ms)%nat
  ∧ ∀ m, m ∈ ms → teamA m = t ∧ teamB m ∈ others.
Proof.
  revert next. induction others as [|u rest IH]; intros next; simpl.
  - split_and!; [done|lia|by intros ? ?%elem_of_nil].
  - destruct (teamsOverlap t u).
    + specialize (IH next). destruct (matchesAgainst t rest next) as [ms next'].
      destruct IH as (? & ? & Hm). split_and!; [done..|].
      intros m Hin. destruct (Hm m Hin). set_solver.
    + specialize (IH (S next)). destruct (matchesAgainst t rest (S next)) as [ms next'].
      destruct IH as (Hids & -> & Hm). split_and!; [by rewrite fmap_cons, Hids|simpl; lia|].
      intros m [->|Hin]%elem_of_cons; [set_solver|].
      destruct (Hm m Hin). set_solver.
Qed.

Lemma generateAllMatches_spec teams next :
  let '(ms, next') := generateAllMatches teams next in
  matchId <$> ms = seq next (length ms) ∧ next' = (next + length ms)%nat
  ∧ ∀ m, m ∈ ms → teamA m ∈ teams ∧ teamB m ∈ teams.
Proof.
  revert next. induction teams as [|t rest IH]; intros next; simpl.
  - split_and!; [done|lia|by intros ? ?%elem_of_nil].
  - pose proof (matchesAgainst_spec t rest next) as H1.
    destruct (matchesAgainst t rest next) as [ms1 next1].
    specialize (IH next1). destruct (generateAllMatches rest next1) as [ms2 next2].
    destruct H1 as (Hid1 & -> & Hm1), IH as (Hid2 & -> & Hm2).
    rewrite fmap_app, length_app, Hid1, Hid2, seq_app. split_and!; [done|lia|].
    intros m [Hin|Hin]%elem_of_app.
    + destruct (Hm1 m Hin) as [-> ?]. set_solver.
    + destruct (Hm2 m Hin). set_solver.
Qed.

Lemma generated_validMatch players matchType next m :
  m ∈ (generateAllMatches (generateTeams players matchType) next).1 →
  validMatch players m.
Proof.
  pose proof (generateAllMatches_spec (generateTeams players matchType) next) as H.
  destruct (generateAllMatches _ _) as [ms next']. simpl.
  destruct H as (_ & _ & Hm). intros [HA HB]%Hm.
  apply generateTeams_elem_of in HA as [HA1 HA2], HB as [HB1 HB2]. split.
  - intros Hnil. destruct (teamA m) as [|p ?] eqn:E; [done|].
    assert (p ∈ getMatchPlayers m) as Hp by (rewrite getMatchPlayers_elem_of, E; set_solver).
    rewrite Hnil in Hp. by apply elem_of_nil in Hp.
  - intros p [?|?]%getMatchPlayers_elem_of; auto.
Qed.

(** ** Packing *)

Lemma hasConflict_false usedPlayers players :
  hasConflict usedPlayers players = false ↔ ∀ p, p ∈ players → p ∉ usedPlayers.
Proof.
  unfold hasConflict. induction players as [|q rest IH]; simpl.
  - split; [by intros _ ? ?%elem_of_nil|done].
  - rewrite orb_false_iff, IH, bool_decide_eq_false. set_solver.
Qed.

Lemma playersOfMatches_snoc sel m :
  playersOfMatches (sel ++ [m]) = playersOfMatches sel ++ getMatchPlayers m.
Proof.
  unfold playersOfMatches. rewrite bind_app. f_equal. simpl. apply app_nil_r.
Qed.


(** ** Comparisons with the number of courts *)

Lemma Qle_bool_inject_Z a b : Qle_bool (inject_Z a) (inject_Z b) = (a <=? b).
Proof.
  apply eq_true_iff_eq. by rewrite Qle_bool_iff, Z.leb_le, <-Zle_Qle.
Qed.

Lemma geb_ofZ a b : Num.geb (Num.ofZ a) (Num.ofZ b) = (b <=? a).
Proof. apply Qle_bool_inject_Z. Qed.

Lemma ltb_ofZ a b : Num.ltb (Num.ofZ a) (Num.ofZ b) = (a <? b).
Proof.
  unfold Num.ltb, Num.ofZ. rewrite Qle_bool_inject_Z.
  destruct (Z.leb_spec b a), (Z.ltb_spec a b); simpl; (done || lia).
Qed.

Lemma eqb_ofZ a b : Num.eqb (Num.ofZ a) (Num.ofZ b) = (a =? b).
Proof.
  unfold Num.eqb, Num.ofZ. apply eq_true_iff_eq.
  rewrite Qeq_bool_iff, Z.eqb_eq. apply inject_Z_injective.
Qed.

Lemma eqb_zero_geb courts :
  Num.eqb courts (Num.ofZ 0) = true → Num.geb (Num.ofNat 0) courts = true.
Proof.
  destruct courts as [q| | |]; unfold Num.eqb, Num.geb, Num.ofNat, Num.ofZ; try done.
  rewrite Qeq_bool_iff, Qle_bool_iff. intros ->. apply Qle_refl.
Qed.

(** A number of courts that passes the validation leaves room for a
    first match. *)
Lemma accepted_open courts :
  Num.ltb courts (Num.ofZ 1) = false → Num.geb (Num.ofNat 0) courts = false.
Proof.
  destruct courts as [q| | |]; unfold Num.ltb, Num.geb, Num.ofNat, Num.ofZ; try done.
  intros H1%negb_false_iff%Qle_bool_iff.
  apply not_true_is_false. intros H0%Qle_bool_iff.
  by pose proof (Qle_trans _ _ _ H1 H0).
Qed.

Lemma courtsAllow_0 courts : courtsAllow courts 0.
Proof. intros k Hk. lia. Qed.

Lemma courtsAllow_S courts n :
  courtsAllow courts n → Num.geb (Num.ofNat n) courts = false →
  courtsAllow courts (S n).
Proof.
  intros Hn Hfull k Hk. destruct (decide (k = n)) as [->|]; [done|]. apply Hn. lia.
Qed.

(** With a whole number of courts, the matches are at most that many. *)
Lemma courtsAllow_ofZ (c : Z) n :
  (1 ≤ n)%nat → courtsAllow (Num.ofZ c) n → Z.of_nat n ≤ c.
Proof.
  intros Hn Hallow. specialize (Hallow (n - 1)%nat ltac:(lia)).
  unfold Num.ofNat in Hallow. rewrite geb_ofZ in Hallow. apply Z.leb_gt in Hallow. lia.
Qed.

(** With a finite number of courts, the matches are fewer than one more. *)
Lemma courtsAllow_Finite q n :
  (1 ≤ n)%nat → courtsAllow (Num.Finite q) n → (inject_Z (Z.of_nat n) < q + 1)%Q.
Proof.
  intros Hn Hallow. specialize (Hallow (n - 1)%nat ltac:(lia)).
  unfold Num.geb, Num.ofNat, Num.ofZ in Hallow.
  apply not_true_iff_false in Hallow. rewrite Qle_bool_iff in Hallow.
  apply Qnot_le_lt in Hallow.
  replace (Z.of_nat n) with (Z.of_nat (n - 1) + 1) by lia.
  rewrite inject_Z_plus. by apply Qplus_lt_l.
Qed.

Lemma Packed_nil courts pool : Packed courts pool [] ∅.
Proof.
  split; [done|constructor|by intros ? ?%elem_of_nil|apply courtsAllow_0].
Qed.

Lemma Packed_snoc courts pool sel used m :
  Packed courts pool sel used → m ∈ pool →
  hasConflict used (getMatchPlayers m) = false →
  Num.geb (Num.ofNat (length sel)) courts = false →
  Packed courts pool (sel ++ [m]) (used ∪ list_to_set (getMatchPlayers m)).
Proof.
  intros [-> Hnd Hpool Hlen] Hm Hconf Hfull.
  rewrite hasConflict_false in Hconf. split.
  - unfold playingOf. by rewrite playersOfMatches_snoc, list_to_set_app_L.
  - rewrite playersOfMatches_snoc. apply NoDup_app. split_and!; [done| |apply getMatchPlayers_NoDup].
    intros p Hp Hp'. apply (Hconf p Hp'). unfold playingOf. by apply elem_of_list_to_set.
  - intros m' [?| ->%list_elem_of_singleton]%elem_of_app; auto.
  - rewrite length_app, Nat.add_1_r. by apply courtsAllow_S.
Qed.


Lemma firstPass_Packed courts pool playerStats r T cands sel used :
  Forall (candidateOf pool) cands → Packed courts pool sel used →
  let '(sel', used') := firstPass courts playerStats r T cands sel used in
  Packed courts pool sel' used' ∧ sel `prefix_of` sel'.
Proof.
  intros Hc. revert sel used.
  induction Hc as [|c rest [Hin Hpl] _ IH]; intros sel used HP; simpl; [done|].
  destruct (Num.geb _ courts) eqn:Hfull; [done|].
  destruct (T <=? _); simpl; [|by apply IH].
  destruct (hasConflict used (cPlayers c)) eqn:Hconf; [by apply IH|].
  rewrite Hpl in *.
  specialize (IH _ _ (Packed_snoc _ _ _ _ _ HP Hin Hconf Hfull)).
  destruct (firstPass _ _ _ _ _ _ _) as [sel' used'].
  destruct IH as [? Hpre]. split; [done|].
  etrans; [|exact Hpre]. by apply prefix_app_r.
Qed.

Lemma secondPass_Packed courts pool cands sel used :
  Forall (candidateOf pool) cands → Packed courts pool sel used →
  let '(sel', used') := secondPass courts cands sel used in
  Packed courts pool sel' used' ∧ sel `prefix_of` sel'.
Proof.
  intros Hc. revert sel used.
  induction Hc as [|c rest [Hin Hpl] _ IH]; intros sel used HP; simpl; [done|].
  destruct (Num.geb _ courts) eqn:Hfull; [done|].
  case_bool_decide; [by apply IH|].
  destruct (hasConflict used (cPlayers c)) eqn:Hconf; [by apply IH|].
  rewrite Hpl in *.
  specialize (IH _ _ (Packed_snoc _ _ _ _ _ HP Hin Hconf Hfull)).
  destruct (secondPass _ _ _ _) as [sel' used'].
  destruct IH as [? Hpre]. split; [done|].
  etrans; [|exact Hpre]. by apply prefix_app_r.
Qed.

Lemma repairPass_Packed courts pool missing fresh sel used :
  (∀ m, m ∈ fresh → m ∈ pool) → Packed courts pool sel used →
  ∃ used', Packed courts pool (repairPass courts missing fresh sel used) used'
  ∧ sel `prefix_of` repairPass courts missing fresh sel used.
Proof.
  revert sel used.
  induction fresh as [|m rest IH]; intros sel used Hfresh HP; simpl; [by eauto|].
  destruct (Num.geb _ courts) eqn:Hfull; [by eauto|].
  destruct (existsb _ missing); simpl; [|apply IH; set_solver].
  destruct (hasConflict used (getMatchPlayers m)) eqn:Hconf; [apply IH; set_solver|].
  assert (m ∈ pool) as Hin by set_solver.
  destruct (IH _ _ ltac:(set_solver) (Packed_snoc _ _ _ _ _ HP Hin Hconf Hfull))
    as (used' & ? & Hpre).
  exists used'. split; [done|]. etrans; [|exact Hpre]. by apply prefix_app_r.
Qed.

(** ** Waiting times *)

Lemma fold_left_max_ge rest x :
  x ≤ fold_left Z.max rest x ∧ ∀ y, y ∈ rest → y ≤ fold_left Z.max rest x.
Proof.
  revert x. induction rest as [|z rest IH]; intros x; simpl.
  - split; [lia|by intros ? ?%elem_of_nil].
  - destruct (IH (Z.max x z)) as [H1 H2]. split; [lia|].
    intros y [->|Hy]%elem_of_cons; [lia|auto].
Qed.

Lemma fold_left_max_elem rest x :
  fold_left Z.max rest x = x ∨ fold_left Z.max rest x ∈ rest.
Proof.
  revert x. induction rest as [|z rest IH]; intros x; simpl; [by left|].
  destruct (IH (Z.max x z)) as [H|H].
  - rewrite H. destruct (Z.max_spec x z) as [[_ ->]|[_ ->]]; [right; left|by left].
  - right. by right.
Qed.

Lemma mathMax_ge xs y : y ∈ xs → y ≤ mathMax xs.
Proof.
  destruct xs as [|x rest]; [by intros ?%elem_of_nil|]. simpl.
  destruct (fold_left_max_ge rest x) as [H1 H2].
  intros [->|Hy]%elem_of_cons; auto.
Qed.

Lemma mathMax_elem xs : xs ≠ [] → mathMax xs ∈ xs.
Proof.
  destruct xs as [|x rest]; [done|]. intros _. simpl.
  destruct (fold_left_max_elem rest x) as [->|H]; [left|by right].
Qed.

(** A candidate is critical exactly when one of its players has waited
    [T] rounds. *)
Lemma maxRoundsSince_ge playerStats r players T :
  players ≠ [] →
  T ≤ maxRoundsSince playerStats r players ↔
  ∃ p, p ∈ players ∧ T ≤ roundsSince playerStats r p.
Proof.
  intros Hne. unfold maxRoundsSince. split.
  - intros HT.
    assert (roundsSince playerStats r <$> players ≠ []) as Hne'
      by (by destruct players).
    apply mathMax_elem in Hne'.
    apply list_elem_of_fmap in Hne' as (p & Hp & Hin). exists p. split; [done|].
    lia.
  - intros (p & Hin & Hp). etrans; [exact Hp|]. apply mathMax_ge.
    by apply list_elem_of_fmap_2.
Qed.

(** ** Player statistics *)


Lemma roundsSince_getStats playerStats r p :
  is_Some (playerStats !! p) →
  roundsSince playerStats r p = r - lastPlayedRound (getStats playerStats p).
Proof. intros [s Hs]. unfold roundsSince, getStats, nullish. by rewrite Hs. Qed.

Lemma updatePlayerStats_lookup players playing r playerStats p :
  NoDup players →
  updatePlayerStats players playing r playerStats !! p =
    if decide (p ∈ players)
    then Some (if bool_decide (p ∈ playing)
               then {| playCount := playCount (getStats playerStats p) + 1;
                       restCount := restCount (getStats playerStats p);
                       lastPlayedRound := r |}
               else {| playCount := playCount (getStats playerStats p);
                       restCount := restCount (getStats playerStats p) + 1;
                       lastPlayedRound := lastPlayedRound (getStats playerStats p) |})
    else playerStats !! p.
Proof.
  unfold updatePlayerStats. intros Hnd. revert playerStats.
  induction Hnd as [|x rest Hx Hnd IH]; intros playerStats; [done|]. simpl.
  rewrite IH. destruct (decide (p = x)) as [->|Hne].
  - rewrite (decide_False (P := x ∈ rest)) by done.
    rewrite (decide_True (P := x ∈ x :: rest)) by left.
    case_bool_decide; by rewrite lookup_insert_eq.
  - destruct (decide (p ∈ rest)) as [Hin|Hin].
    + rewrite (decide_True (P := p ∈ x :: rest)) by (by right).
      assert (∀ s, getStats (<[x:=s]> playerStats) p = getStats playerStats p) as E.
      { intros s. unfold getStats. by rewrite lookup_insert_ne. }
      by destruct (bool_decide (x ∈ playing)); rewrite E.
    + rewrite (decide_False (P := p ∈ x :: rest)) by set_solver.
      by destruct (bool_decide (x ∈ playing)); rewrite lookup_insert_ne.
Qed.

Lemma updatePlayerStats_dom players playing r playerStats :
  NoDup players → dom playerStats = list_to_set players →
  dom (updatePlayerStats players playing r playerStats) = list_to_set players.
Proof.
  intros Hnd Hdom. apply set_eq. intros p.
  rewrite elem_of_dom, updatePlayerStats_lookup by done.
  rewrite elem_of_list_to_set. destruct (decide (p ∈ players)) as [Hin|Hin].
  - split; [done|]. intros _. by eexists.
  - rewrite <-elem_of_dom, Hdom, elem_of_list_to_set. done.
Qed.

Lemma initialStats_lookup players p :
  foldl (λ acc player, <[player := mkStats 0 0 (-1)]> acc) (∅ : gmap string PlayerStats) players !! p
  = if decide (p ∈ players) then Some (mkStats 0 0 (-1)) else None.
Proof.
  assert (∀ (m : gmap string PlayerStats),
    foldl (λ acc player, <[player := mkStats 0 0 (-1)]> acc) m players !! p
    = if decide (p ∈ players) then Some (mkStats 0 0 (-1)) else m !! p) as H.
  { induction players as [|x rest IH]; intros m; [done|]. simpl.
    rewrite IH. destruct (decide (p ∈ rest)) as [Hin|Hin].
    - by rewrite decide_True by (by right).
    - destruct (decide (p = x)) as [->|Hne].
      + rewrite decide_True by left. by rewrite lookup_insert_eq.
      + rewrite decide_False by set_solver. by rewrite lookup_insert_ne. }
  by rewrite H, lookup_empty.
Qed.

Lemma size_playerStats (playerStats : gmap string PlayerStats) players :
  NoDup players → dom playerStats = list_to_set players →
  size playerStats = length players.
Proof.
  intros Hnd Hdom. rewrite <-size_dom, Hdom. by apply size_list_to_set.
Qed.

(** ** Resting runs *)

Lemma restingRunFrom_snoc current rs r p :
  restingRunFrom current (rs ++ [r]) p =
    if bool_decide (p ∈ resting r) then S (restingRunFrom current rs p) else O.
Proof. revert current. induction rs as [|r' rs IH]; intros current; simpl; [done|apply IH]. Qed.

Lemma restingRun_snoc rs r p :
  restingRun (rs ++ [r]) p =
    if bool_decide (p ∈ resting r) then S (restingRun rs p) else O.
Proof. apply restingRunFrom_snoc. Qed.

(** ** What the passes keep and what they reach *)

Lemma firstPass_prefix courts playerStats r T cands sel used :
  sel `prefix_of` (firstPass courts playerStats r T cands sel used).1.
Proof.
  revert sel used. induction cands as [|c rest IH]; intros sel used; simpl; [done|].
  destruct (Num.geb _ courts); [done|]. destruct (T <=? _); simpl; [|done].
  destruct (hasConflict _ _); [done|].
  etrans; [|apply IH]. by apply prefix_app_r.
Qed.

Lemma secondPass_prefix courts cands sel used :
  sel `prefix_of` (secondPass courts cands sel used).1.
Proof.
  revert sel used. induction cands as [|c rest IH]; intros sel used; simpl; [done|].
  destruct (Num.geb _ courts); [done|]. case_bool_decide; [done|].
  destruct (hasConflict _ _); [done|].
  etrans; [|apply IH]. by apply prefix_app_r.
Qed.

Lemma hasConflict_empty players : hasConflict ∅ players = false.
Proof. apply hasConflict_false. set_solver. Qed.

(** With a court available and a candidate at hand, the second pass does
    not answer an empty selection. *)
Lemma secondPass_nonempty courts cands sel :
  Num.geb (Num.ofNat 0) courts = false → cands ≠ [] →
  (secondPass courts cands sel (playingOf sel)).1 ≠ [].
Proof.
  intros Hc Hne. destruct sel as [|m sel].
  - destruct cands as [|c rest]; [done|]. cbn [secondPass length].
    rewrite Hc.
    rewrite bool_decide_eq_false_2 by apply not_elem_of_nil.
    change (playingOf []) with (∅ : gset string). rewrite hasConflict_empty.
    intros E. pose proof (secondPass_prefix courts rest ([] ++ [cMatch c])
      (∅ ∪ list_to_set (cPlayers c))) as Hpre.
    rewrite E in Hpre. by apply prefix_nil_inv in Hpre.
  - intros E. pose proof (secondPass_prefix courts cands (m :: sel)
      (playingOf (m :: sel))) as Hpre.
    rewrite E in Hpre. by apply prefix_nil_inv in Hpre.
Qed.

(** With a court available, the first pass selects the first critical
    candidate of the list. *)
Lemma firstPass_serves courts playerStats r T cands :
  Num.geb (Num.ofNat 0) courts = false →
  (∃ c, c ∈ cands ∧ T ≤ maxRoundsSince playerStats r (cPlayers c)) →
  ∃ c, c ∈ cands ∧ T ≤ maxRoundsSince playerStats r (cPlayers c)
       ∧ cMatch c ∈ (firstPass courts playerStats r T cands [] ∅).1.
Proof.
  intros Hcourts. induction cands as [|c rest IH]; intros (c0 & Hin & Hc0).
  - by apply elem_of_nil in Hin.
  - cbn [firstPass length]. rewrite Hcourts.
    destruct (T <=? maxRoundsSince playerStats r (cPlayers c)) eqn:E; cbn [negb].
    + rewrite hasConflict_empty. exists c. split_and!; [left|lia|].
      eapply elem_of_prefix; [|apply firstPass_prefix]. set_solver.
    + apply Z.leb_gt in E. apply elem_of_cons in Hin as [->|Hin]; [lia|].
      destruct IH as (c1 & ? & ? & ?); [by eauto|].
      exists c1. split_and!; [by right|done..].
Qed.

Lemma NoDup_bind_nonempty {A B} (f : A → list B) (l : list A) :
  NoDup (l ≫= f) → (∀ x, x ∈ l → f x ≠ []) → NoDup l.
Proof.
  induction l as [|x l IH]; intros Hnd Hne; [constructor|].
  rewrite bind_cons in Hnd. apply NoDup_app in Hnd as (_ & Hdisj & Hnd).
  apply NoDup_cons. split; [|apply IH; [done|set_solver]].
  intros Hx. destruct (f x) as [|b ?] eqn:E; [by apply (Hne x); [left|]|].
  apply (Hdisj b); [left|]. apply list_elem_of_bind. exists x. rewrite E. set_solver.
Qed.

Lemma NoDup_fmap_elem_inj {A B} (f : A → B) (l : list A) x y :
  NoDup (f <$> l) → x ∈ l → y ∈ l → f x = f y → x = y.
Proof.
  intros Hnd [i Hi]%list_elem_of_lookup [j Hj]%list_elem_of_lookup Hxy.
  assert (i = j) as ->.
  { eapply NoDup_lookup; [exact Hnd| |].
    - by rewrite list_lookup_fmap, Hi.
    - by rewrite list_lookup_fmap, Hj, Hxy. }
  congruence.
Qed.

Lemma scheduledIds_snoc rs r :
  scheduledIds (rs ++ [r]) = scheduledIds rs ++ (matchId <$> matches r).
Proof. unfold scheduledIds. rewrite bind_app. f_equal. simpl. apply app_nil_r. Qed.

(** ** One iteration of the loop *)

(** What an iteration that goes through did. *)
Lemma loopIteration_Some sortBy players courts matchType st st' :
  loopIteration sortBy players courts matchType st = Some st' →
  ∃ roundMatches,
    St.remainingMatches st ≠ []
    ∧ St.roundNumber st < maxIterations
    ∧ (hasUrgentPlayer players st = true → canScheduleUrgent players st = true)
    ∧ roundMatches ≠ []
    ∧ (let selected :=
         selectRoundMatches sortBy (St.remainingMatches st) courts (St.playerStats st)
           (St.teamUsageCount st) (St.teamLastUsedRound st) (St.roundNumber st) in
       (roundMatches, St.nextId st') =
         if hasUrgentPlayer players st
         then urgencyRepair players courts matchType st selected
         else (selected, St.nextId st))
    ∧ St.remainingMatches st' =
        filter (λ m, matchId m ∉ matchId <$> roundMatches) (St.remainingMatches st)
    ∧ St.playerStats st' =
        updatePlayerStats players (playingOf roundMatches) (St.roundNumber st)
          (St.playerStats st)
    ∧ St.rounds st' =
        St.rounds st ++
        [{| roundId := "r" +:+ pretty (St.roundNumber st + 1);
            matches := roundMatches;
            resting := filter (λ p, p ∉ playingOf roundMatches) players;
            completed := false |}]
    ∧ St.roundNumber st' = St.roundNumber st + 1.
Proof.
  unfold loopIteration.
  destruct (0 <? _) eqn:Hrem; [|done].
  destruct (_ <? maxIterations) eqn:Hcap; [|done]. simpl.
  destruct (hasUrgentPlayer players st && negb (canScheduleUrgent players st)) eqn:Hgate;
    [done|].
  set (selected := selectRoundMatches _ _ _ _ _ _ _).
  destruct (if hasUrgentPlayer players st then _ else _) as [roundMatches next] eqn:Hrm.
  destruct (_ =? 0) eqn:Hlen; [done|].
  destruct (updateTeamTracking _ _ _) as [usage lastUsed].
  intros [= <-]. exists roundMatches. simpl. split_and!; try done.
  - intros E. rewrite E in Hrem. done.
  - lia.
  - intros E. rewrite E in Hgate. simpl in Hgate. by apply negb_false_iff.
  - intros E. by rewrite E in Hlen.
Qed.

Lemma urgencyRepair_spec players courts matchType st sel used :
  Packed courts (St.remainingMatches st) sel used →
  ∃ used' fresh,
    Packed courts (St.remainingMatches st ++ fresh)
      (urgencyRepair players courts matchType st sel).1 used'
    ∧ sel `prefix_of` (urgencyRepair players courts matchType st sel).1
    ∧ matchId <$> fresh = seq (St.nextId st) (length fresh)
    ∧ (urgencyRepair players courts matchType st sel).2
        = (St.nextId st + length fresh)%nat
    ∧ ∀ m, m ∈ fresh → validMatch players m.
Proof.
  intros HP. unfold urgencyRepair.
  destruct (_ && _).
  - pose proof (generateAllMatches_spec (generateTeams players matchType) (St.nextId st)) as Hgen.
    pose proof (generated_validMatch players matchType (St.nextId st)) as Hvalid.
    destruct (generateAllMatches _ _) as [fresh next]. simpl in *.
    destruct Hgen as (Hids & -> & _).
    destruct (repairPass_Packed courts (St.remainingMatches st ++ fresh)
                (filter (λ p, p ∉ playingOf sel) (urgentPlayers players st))
                fresh sel (playingOf sel)) as (used' & ? & ?).
    + set_solver.
    + destruct HP. split; [done..| |done]. set_solver.
    + exists used', fresh. done.
  - exists used, []. simpl. rewrite app_nil_r. split_and!; [done..|lia|].
    by intros ? ?%elem_of_nil.
Qed.

(** The [urgent] test of the loop, read on the rounds produced so far. *)
Lemma isUrgent_urgentAfter players courts st p :
  Inv players courts st → p ∈ players →
  isUrgent players st p = true ↔
  urgentAfter (restThreshold (length players)) (St.rounds st) p.
Proof.
  intros HI Hp. unfold isUrgent, urgentAfter, maxConsecutiveRests.
  rewrite (inv_lastPlayed _ _ _ HI p Hp), (inv_roundNumber _ _ _ HI), Z.leb_le. lia.
Qed.

Lemma isUrgent_roundsSince players courts st p :
  NoDup players → Inv players courts st → p ∈ players →
  isUrgent players st p = true ↔
  restThreshold (size (St.playerStats st))
    ≤ roundsSince (St.playerStats st) (St.roundNumber st) p.
Proof.
  intros Hnd HI Hp. unfold isUrgent, maxConsecutiveRests.
  rewrite (size_playerStats _ players) by (done || apply HI).
  rewrite roundsSince_getStats, Z.leb_le; [done|].
  apply elem_of_dom. rewrite (inv_stats _ _ _ HI). by apply elem_of_list_to_set.
Qed.

Section SortedSelection.
Variable sortBy :
  (MatchCandidate → MatchCandidate → Z) → list MatchCandidate → list MatchCandidate.
Hypothesis sortBy_perm : ∀ cmp l, sortBy cmp l ≡ₚ l.

Lemma sorted_candidates pool playerStats usage lastUsed r c :
  c ∈ sortBy (compareCandidates playerStats r)
        (makeCandidate playerStats usage lastUsed r <$> pool) ↔
  ∃ m, m ∈ pool ∧ c = makeCandidate playerStats usage lastUsed r m.
Proof. rewrite sortBy_perm, list_elem_of_fmap. naive_solver. Qed.

Lemma selectRoundMatches_Packed pool courts playerStats usage lastUsed r :
  ∃ used, Packed courts pool
            (selectRoundMatches sortBy pool courts playerStats usage lastUsed r) used.
Proof.
  unfold selectRoundMatches.
  destruct (_ || _); [exists ∅; by apply Packed_nil|].
  set (cands := sortBy _ _).
  assert (Forall (candidateOf pool) cands) as Hcands.
  { apply Forall_forall. intros c (m & Hm & ->)%sorted_candidates. by split. }
  pose proof (firstPass_Packed courts pool playerStats r
                (restThreshold (size playerStats)) cands [] ∅ Hcands
                (Packed_nil _ _)) as H1.
  destruct (firstPass _ _ _ _ _ _ _) as [sel1 used1]. destruct H1 as [H1 _].
  pose proof (secondPass_Packed courts pool cands sel1 used1 Hcands H1) as H2.
  destruct (secondPass _ _ _ _) as [sel2 used2]. destruct H2 as [H2 _].
  simpl. eauto.
Qed.

Lemma selectRoundMatches_nonempty pool courts playerStats usage lastUsed r :
  Num.geb (Num.ofNat 0) courts = false → pool ≠ [] →
  selectRoundMatches sortBy pool courts playerStats usage lastUsed r ≠ [].
Proof.
  intros Hc Hpool. unfold selectRoundMatches.
  replace (Z.of_nat (length pool) =? 0) with false
    by (symmetry; apply Z.eqb_neq; destruct pool; [done|simpl; lia]).
  replace (Num.eqb courts (Num.ofZ 0)) with false
    by (symmetry; apply not_true_is_false; intros E%eqb_zero_geb; congruence).
  simpl orb. cbv iota.
  set (cands := sortBy _ _).
  assert (Forall (candidateOf pool) cands) as Hcands.
  { apply Forall_forall. intros c (m & Hm & ->)%sorted_candidates. by split. }
  assert (cands ≠ []) as Hne.
  { destruct pool as [|m pool']; [done|]. intros E.
    assert (makeCandidate playerStats usage lastUsed r m ∈ cands) as Hin
      by (apply sorted_candidates; exists m; split; [left|done]).
    rewrite E in Hin. by apply elem_of_nil in Hin. }
  pose proof (firstPass_Packed courts pool playerStats r
                (restThreshold (size playerStats)) cands [] ∅ Hcands
                (Packed_nil courts pool)) as H1.
  destruct (firstPass _ _ _ _ _ _ _) as [sel1 used1]. destruct H1 as [[-> _ _ _] _].
  by apply secondPass_nonempty.
Qed.

(** If some match of the pool holds a player who waited as long as the
    threshold, the selection holds such a match. *)
Lemma selectRoundMatches_serves pool courts playerStats usage lastUsed r m0 :
  Num.geb (Num.ofNat 0) courts = false → m0 ∈ pool →
  restThreshold (size playerStats)
    ≤ maxRoundsSince playerStats r (getMatchPlayers m0) →
  ∃ m, m ∈ selectRoundMatches sortBy pool courts playerStats usage lastUsed r
       ∧ restThreshold (size playerStats)
           ≤ maxRoundsSince playerStats r (getMatchPlayers m).
Proof.
  intros Hc Hm0 Hcrit. unfold selectRoundMatches.
  destruct pool as [|m1 pool']; [by apply elem_of_nil in Hm0|].
  set (pool := m1 :: pool') in *.
  replace (Z.of_nat (length pool) =? 0) with false
    by (symmetry; apply Z.eqb_neq; simpl; lia).
  replace (Num.eqb courts (Num.ofZ 0)) with false
    by (symmetry; apply not_true_is_false; intros E%eqb_zero_geb; congruence).
  simpl orb. cbv iota.
  set (cands := sortBy _ _).
  destruct (firstPass_serves courts playerStats r
              (restThreshold (size playerStats)) cands Hc)
    as (c & Hin & Hcc & Hsel).
  { exists (makeCandidate playerStats usage lastUsed r m0).
    split; [|done]. apply sorted_candidates. eauto. }
  apply sorted_candidates in Hin as (m & Hm & ->). exists m. split; [|done].
  destruct (firstPass _ _ _ _ _ _ _) as [sel1 used1]. simpl in Hsel.
  eapply elem_of_prefix; [exact Hsel|]. apply secondPass_prefix.
Qed.

Section Invariant.
Variables (players : list Player) (courts : Num.t) (matchType : MatchType).
Hypothesis players_NoDup : NoDup players.
Hypothesis courts_pos : Num.ltb courts (Num.ofZ 1) = false.

(** The matches of the round that an iteration produces: packed from
    the pool and from freshly enumerated matches, and serving an urgent
    player when there is one. *)
Lemma loopIteration_round st st' :
  Inv players courts st →
  loopIteration sortBy players courts matchType st = Some st' →
  ∃ roundMatches used fresh,
    St.rounds st' =
      St.rounds st ++
      [{| roundId := "r" +:+ pretty (St.roundNumber st + 1);
          matches := roundMatches;
          resting := filter (λ p, p ∉ playingOf roundMatches) players;
          completed := false |}]
    ∧ St.remainingMatches st' =
        filter (λ m, matchId m ∉ matchId <$> roundMatches) (St.remainingMatches st)
    ∧ St.playerStats st' =
        updatePlayerStats players (playingOf roundMatches) (St.roundNumber st)
          (St.playerStats st)
    ∧ St.roundNumber st' = St.roundNumber st + 1
    ∧ St.roundNumber st < maxIterations
    ∧ roundMatches ≠ []
    ∧ Packed courts (St.remainingMatches st ++ fresh) roundMatches used
    ∧ matchId <$> fresh = seq (St.nextId st) (length fresh)
    ∧ St.nextId st' = (St.nextId st + length fresh)%nat
    ∧ (∀ m, m ∈ roundMatches → validMatch players m)
    ∧ (∃ m, roundMatches !! 0%nat = Some m ∧ m ∈ St.remainingMatches st)
    ∧ ((∃ p, p ∈ players
             ∧ urgentAfter (restThreshold (length players)) (St.rounds st) p) →
       ∃ p, p ∈ players
            ∧ urgentAfter (restThreshold (length players)) (St.rounds st) p
            ∧ p ∈ playersOfMatches roundMatches).
Proof.
  intros HI Hstep.
  destruct (loopIteration_Some _ _ _ _ _ _ Hstep)
    as (rm & Hrem & Hcap & Hgate & Hne & Hsel & Erem & Estats & Erounds & Ern).
  destruct (selectRoundMatches_Packed (St.remainingMatches st)
              courts (St.playerStats st) (St.teamUsageCount st)
              (St.teamLastUsedRound st) (St.roundNumber st))
    as (used & Hpacked).
  pose proof (selectRoundMatches_serves (St.remainingMatches st)
              courts (St.playerStats st) (St.teamUsageCount st)
              (St.teamLastUsedRound st) (St.roundNumber st)) as Hserves.
  simpl in Hsel.
  set (selected := selectRoundMatches _ _ _ _ _ _ _) in *.
  assert (∃ used' fresh,
    Packed courts (St.remainingMatches st ++ fresh) rm used'
    ∧ selected `prefix_of` rm
    ∧ matchId <$> fresh = seq (St.nextId st) (length fresh)
    ∧ St.nextId st' = (St.nextId st + length fresh)%nat
    ∧ ∀ m, m ∈ fresh → validMatch players m)
    as (used' & fresh & HP & Hpre & Hfids & Hnext & Hfvalid).
  { destruct (hasUrgentPlayer players st).
    - destruct (urgencyRepair_spec players courts matchType st selected used Hpacked)
        as (used' & fresh & ? & ? & ? & ? & ?).
      rewrite <-Hsel in *. simpl in *. eauto 10.
    - injection Hsel as -> ->. exists used, []. rewrite app_nil_r.
      split_and!; [done..|simpl; lia|by intros ? ?%elem_of_nil]. }
  assert (∀ m, m ∈ rm → validMatch players m) as Hvalid.
  { intros m Hm. apply (packed_pool _ _ _ _ HP), elem_of_app in Hm as [Hm|Hm]; [|auto].
    by apply (inv_remaining _ _ _ HI). }
  exists rm, used', fresh. split_and!; try done.
  { pose proof (selectRoundMatches_nonempty (St.remainingMatches st)
              courts (St.playerStats st) (St.teamUsageCount st)
              (St.teamLastUsedRound st) (St.roundNumber st)
              (accepted_open _ courts_pos) Hrem) as Hsne.
    fold selected in Hsne. destruct selected as [|m sel'] eqn:E; [done|].
    exists m. split.
    - destruct Hpre as [k ->]. done.
    - apply (packed_pool _ _ _ _ Hpacked). left. }
  intros (p & Hp & Hurgent).
  apply (isUrgent_urgentAfter players courts st p HI Hp) in Hurgent.
  assert (hasUrgentPlayer players st = true) as Hhas.
  { unfold hasUrgentPlayer. apply existsb_exists. exists p.
    split; [by apply list_elem_of_In|done]. }
  specialize (Hgate Hhas). unfold canScheduleUrgent in Hgate.
  apply existsb_exists in Hgate as (m0 & Hm0%list_elem_of_In & Hu).
  apply existsb_exists in Hu as (u & Hu%list_elem_of_In & Hum%bool_decide_eq_true).
  unfold urgentPlayers in Hu. apply list_elem_of_filter in Hu as [Hu Huin].
  apply Is_true_true in Hu.
  destruct (Hserves m0) as (m & Hm & Hcrit); [by apply accepted_open|done| |].
  { pose proof (inv_remaining _ _ _ HI m0 Hm0) as [Hne0 _].
    apply maxRoundsSince_ge; [done|]. exists u. split; [done|].
    by apply (isUrgent_roundsSince players courts st u players_NoDup HI Huin). }
  assert (m ∈ rm) as Hmrm by (eapply elem_of_prefix; eauto).
  destruct (Hvalid m Hmrm) as [Hmne Hmsub].
  apply maxRoundsSince_ge in Hcrit as (q & Hq & Hqu); [|done].
  exists q. split_and!; [by apply Hmsub| |].
  - apply (isUrgent_urgentAfter players courts st q HI (Hmsub q Hq)).
    by apply (isUrgent_roundsSince players courts st q players_NoDup HI (Hmsub q Hq)).
  - unfold playersOfMatches. apply list_elem_of_bind. eauto.
Qed.

Lemma loopIteration_Inv st st' :
  Inv players courts st →
  loopIteration sortBy players courts matchType st = Some st' →
  Inv players courts st'.
Proof.
  intros HI Hstep.
  destruct (loopIteration_round st st' HI Hstep)
    as (rm & used & fresh & Erounds & Erem & Estats & Ern & Hcap & Hne & HP
        & Hfids & Hnext & Hvalid & _ & Hurgent).
  pose proof (inv_roundNumber _ _ _ HI) as Hrn.
  pose proof (inv_ids _ _ _ HI) as Hids.
  pose proof (inv_fresh _ _ _ HI) as Hlt.
  apply NoDup_app in Hids as (Hids1 & Hids2 & Hids3).
  assert (∀ i, i ∈ matchId <$> rm →
            (i ∈ matchId <$> St.remainingMatches st) ∨ i ∈ seq (St.nextId st) (length fresh))
    as Hrmids.
  { intros i (m & -> & Hm)%list_elem_of_fmap.
    apply (packed_pool _ _ _ _ HP), elem_of_app in Hm as [Hm|Hm].
    - left. by apply list_elem_of_fmap_2.
    - right. rewrite <-Hfids. by apply list_elem_of_fmap_2. }
  assert (NoDup (matchId <$> rm)) as Hrmnd.
  { apply NoDup_fmap_2_strong.
    - intros x y Hx%(packed_pool _ _ _ _ HP) Hy%(packed_pool _ _ _ _ HP).
      apply (NoDup_fmap_elem_inj matchId (St.remainingMatches st ++ fresh));
        [|done..].
      rewrite fmap_app, Hfids. apply NoDup_app. split_and!; [done| |apply NoDup_seq].
      intros i Hi Hi'%elem_of_seq.
      specialize (Hlt i ltac:(apply elem_of_app; by left)). lia.
    - eapply NoDup_bind_nonempty; [apply HP|]. intros m Hm. by apply Hvalid. }
  split.
  - rewrite Ern, Erounds, length_app, Hrn. simpl. lia.
  - lia.
  - rewrite Estats. apply updatePlayerStats_dom; [done|apply HI].
  - intros p Hp. rewrite Estats, Erounds, length_app, restingRun_snoc. simpl.
    unfold getStats at 1. rewrite updatePlayerStats_lookup by done.
    rewrite decide_True by done. simpl.
    rewrite (bool_decide_ext (p ∈ filter (λ p, p ∉ playingOf rm) players)
                             (p ∉ playingOf rm))
      by (rewrite list_elem_of_filter; tauto).
    rewrite bool_decide_not.
    destruct (bool_decide (p ∈ playingOf rm)); simpl; [lia|].
    rewrite (inv_lastPlayed _ _ _ HI p Hp). lia.
  - intros m. rewrite Erem, list_elem_of_filter. intros [_ Hm].
    by apply (inv_remaining _ _ _ HI).
  - rewrite Erem, Erounds, scheduledIds_snoc. simpl.
    apply NoDup_app. split_and!.
    + eapply sublist_NoDup; [exact Hids1|]. apply fmap_sublist, sublist_filter.
    + intros i (m & -> & [Hm1 Hm2]%list_elem_of_filter)%list_elem_of_fmap
               [Hi|Hi]%elem_of_app; [|done].
      apply (Hids2 (matchId m)); [by apply list_elem_of_fmap_2|done].
    + apply NoDup_app. split_and!; [done| |done].
      intros i Hi [Hi'|Hi'%elem_of_seq]%Hrmids.
      * by apply (Hids2 i).
      * specialize (Hlt i ltac:(apply elem_of_app; by right)). lia.
  - rewrite Erem, Erounds, scheduledIds_snoc, Hnext. simpl.
    intros i [Hi|[Hi|Hi]%elem_of_app]%elem_of_app.
    + apply list_elem_of_fmap in Hi as (m & -> & [_ Hm]%list_elem_of_filter).
      specialize (Hlt (matchId m)
        ltac:(apply elem_of_app; left; by apply list_elem_of_fmap_2)). lia.
    + specialize (Hlt i ltac:(apply elem_of_app; by right)). lia.
    + apply Hrmids in Hi as [Hi|Hi%elem_of_seq]; [|lia].
      specialize (Hlt i ltac:(apply elem_of_app; by left)). lia.
  - intros k r. rewrite Erounds. intros Hk.
    apply lookup_snoc_Some in Hk as [[Hlt' Hk]|[-> <-]].
    + rewrite take_app_le by lia. by apply (inv_rounds _ _ _ HI).
    + rewrite take_app_length. split; simpl; [apply HP|done|done| |done].
      split; [destruct rm; [done|simpl; lia]|apply HP].
Qed.

Lemma initialState_Inv : Inv players courts (initialState players matchType).
Proof using players_NoDup courts_pos.
  unfold initialState.
  pose proof (generateAllMatches_spec (generateTeams players matchType) 0) as Hgen.
  pose proof (generated_validMatch players matchType 0) as Hvalid.
  destruct (generateAllMatches _ _) as [allMatches next].
  destruct Hgen as (Hids & -> & _). simpl in Hvalid.
  split; simpl; try done.
  - apply set_eq. intros p.
    rewrite elem_of_dom, initialStats_lookup, elem_of_list_to_set.
    destruct (decide (p ∈ players)); [by split; [|eexists]|].
    split; [by intros [? ?]|done].
  - intros p Hp. unfold getStats. rewrite initialStats_lookup.
    rewrite decide_True by done. done.
  - rewrite app_nil_r, Hids. apply NoDup_seq.
  - intros i. rewrite app_nil_r, Hids, elem_of_seq. lia.
Qed.

Lemma whileLoop_Inv fuel st st' :
  Inv players courts st →
  whileLoop sortBy players courts matchType fuel st = Some st' →
  Inv players courts st'
  ∧ loopIteration sortBy players courts matchType st' = None.
Proof using sortBy_perm players_NoDup courts_pos.
  revert st. induction fuel as [|fuel IH]; intros st HI; simpl; [done|].
  destruct (loopIteration _ _ _ _ st) as [st1|] eqn:Hstep.
  - apply IH. by eapply loopIteration_Inv.
  - by intros [= <-].
Qed.
End Invariant.

(** The loop is left after at most [maxIterations] iterations: more fuel
    than the rounds that are still allowed is always enough. *)
Lemma whileLoop_terminates players courts matchType fuel st :
  St.roundNumber st ≤ maxIterations →
  maxIterations - St.roundNumber st < Z.of_nat fuel →
  is_Some (whileLoop sortBy players courts matchType fuel st).
Proof using Type.
  revert st. induction fuel as [|fuel IH]; intros st Hcap Hfuel; simpl; [lia|].
  destruct (loopIteration _ _ _ _ st) as [st1|] eqn:Hstep; [|by eexists].
  destruct (loopIteration_Some _ _ _ _ _ _ Hstep)
    as (rm & _ & Hlt & _ & _ & _ & _ & _ & _ & Ern).
  apply IH; lia.
Qed.

Lemma whileLoop_fuel_mono players courts matchType fuel fuel' st st' :
  whileLoop sortBy players courts matchType fuel st = Some st' →
  (fuel ≤ fuel')%nat →
  whileLoop sortBy players courts matchType fuel' st = Some st'.
Proof using Type.
  revert fuel' st. induction fuel as [|fuel IH]; intros fuel' st; simpl; [done|].
  intros Hrun Hle. destruct fuel' as [|fuel']; [lia|]. simpl.
  destruct (loopIteration _ _ _ _ st); [|done]. apply IH; [done|lia].
Qed.

(** The three outcomes of the validation at the head of [generateSchedule]. *)
Lemma generateSchedule_validation inputPlayers courts matchType :
  let players := arrayFromSet inputPlayers in
  if decide ((5 ≤ length players)%nat ∧ Num.ltb courts (Num.ofZ 1) = false)
  then ∃ st,
      whileLoop sortBy players courts matchType (S (Z.to_nat maxIterations))
        (initialState players matchType) = Some st
      ∧ generateSchedule sortBy inputPlayers courts matchType =
          Returned {| rounds := St.rounds st;
                      warning := if (16 <? length players)%nat
                                 then Some "large_n; fallback_to_greedy" else None |}
  else ∃ message, generateSchedule sortBy inputPlayers courts matchType = Thrown message.
Proof using Type.
  intros players. unfold generateSchedule. fold players.
  destruct (decide _) as [[Hlen Hc]|Hno].
  - rewrite (proj2 (Nat.ltb_ge (length players) 5)) by done.
    rewrite andb_false_r, Hc.
    destruct (whileLoop_terminates players courts matchType
                (S (Z.to_nat maxIterations)) (initialState players matchType))
      as [st Hst].
    + unfold initialState. by destruct (generateAllMatches _ _).
    + unfold initialState. destruct (generateAllMatches _ _). simpl.
      unfold maxIterations. lia.
    + exists st. by rewrite Hst.
  - destruct (_ && _); [by eexists|].
    destruct (length players <? 5)%nat eqn:E; [by eexists|].
    apply Nat.ltb_ge in E.
    destruct (Num.ltb courts (Num.ofZ 1)) eqn:E'; [by eexists|].
    by destruct Hno.
Qed.

(** Every returned schedule is the list of rounds of a final loop state
    that satisfies the invariant. *)
Lemma generateSchedule_Returned inputPlayers courts matchType s :
  generateSchedule sortBy inputPlayers courts matchType = Returned s →
  (5 ≤ length (arrayFromSet inputPlayers))%nat ∧ Num.ltb courts (Num.ofZ 1) = false
  ∧ ∃ st, rounds s = St.rounds st
          ∧ Inv (arrayFromSet inputPlayers) courts st
          ∧ loopIteration sortBy (arrayFromSet inputPlayers) courts matchType st = None.
Proof using sortBy_perm.
  intros Hs.
  pose proof (generateSchedule_validation inputPlayers courts matchType) as Hv.
  cbv zeta in Hv. destruct (decide _) as [[Hlen Hc]|_].
  - destruct Hv as (st & Hrun & Hret). split_and!; [done..|].
    exists st. rewrite Hs in Hret. injection Hret as ->. split; [done|].
    eapply whileLoop_Inv; [apply arrayFromSet_NoDup|done| |exact Hrun].
    by apply initialState_Inv; [apply arrayFromSet_NoDup|].
  - destruct Hv as [msg Hmsg]. congruence.
Qed.
End SortedSelection.

(** ** The stable sort is a sort *)

Lemma insertBy_perm {A} (cmp : A → A → Z) x xs : insertBy cmp x xs ≡ₚ x :: xs.
Proof.
  induction xs as [|y rest IH]; simpl; [done|].
  destruct (cmp x y <=? 0); [done|]. rewrite IH. apply Permutation_swap.
Qed.

Lemma stableSort_perm {A} (cmp : A → A → Z) xs : stableSort cmp xs ≡ₚ xs.
Proof.
  induction xs as [|x rest IH]; simpl; [done|].
  unfold stableSort in *. simpl. by rewrite insertBy_perm, IH.
Qed.

(** ** Rounds of a returned schedule *)

Lemma bind_lookup_disjoint {A B} (f : A → list B) (l : list A) i j x y :
  NoDup (l ≫= f) → i ≠ j → l !! i = Some x → l !! j = Some y →
  ∀ b, b ∈ f x → b ∉ f y.
Proof.
  revert i j. induction l as [|a l IH]; intros i j Hnd Hij Hi Hj b Hbx Hby; [done|].
  rewrite bind_cons in Hnd. apply NoDup_app in Hnd as (_ & Hdisj & Hnd).
  destruct i as [|i], j as [|j]; simpl in *; simplify_eq.
  - apply (Hdisj b Hbx). apply list_elem_of_bind. exists y.
    split; [done|]. by eapply list_elem_of_lookup_2.
  - apply (Hdisj b Hby). apply list_elem_of_bind. exists x.
    split; [done|]. by eapply list_elem_of_lookup_2.
  - eapply (IH i j); eauto.
Qed.

Lemma RoundOk_partition players courts before r :
  NoDup players → RoundOk players courts before r →
  (∀ p, p ∈ resting r → p ∉ roundPlayers r)
  ∧ resting r ++ roundPlayers r ≡ₚ players.
Proof.
  intros Hnd [Hdisj Hvalid Hrest _ _].
  assert (∀ p, p ∈ resting r ↔ p ∈ players ∧ p ∉ roundPlayers r) as Hr.
  { intros p. rewrite Hrest, list_elem_of_filter. unfold playingOf, roundPlayers.
    rewrite elem_of_list_to_set. tauto. }
  assert (∀ p, p ∈ roundPlayers r → p ∈ players) as Hsub.
  { intros p (m & Hp & Hm)%list_elem_of_bind. by apply (Hvalid m Hm). }
  split; [intros p Hp; by apply Hr|].
  apply NoDup_Permutation; [|done|].
  - apply NoDup_app. split_and!; [|intros p Hp; by apply Hr|done].
    rewrite Hrest. by apply NoDup_filter.
  - intros p. rewrite elem_of_app, Hr.
    destruct (decide (p ∈ roundPlayers r)); naive_solver.
Qed.

Section Claims.
Variable sortBy :
  (MatchCandidate → MatchCandidate → Z) → list MatchCandidate → list MatchCandidate.
Hypothesis sortBy_perm : ∀ cmp l, sortBy cmp l ≡ₚ l.

Lemma schedule_RoundOk inputPlayers courts matchType s k r :
  generateSchedule sortBy inputPlayers courts matchType = Returned s →
  rounds s !! k = Some r →
  RoundOk (arrayFromSet inputPlayers) courts (take k (rounds s)) r.
Proof using sortBy_perm.
  intros (_ & _ & st & -> & HI & _)%generateSchedule_Returned; [|done].
  apply (inv_rounds _ _ _ HI).
Qed.

(** C3: in every round of a returned schedule no player is in two
    matches: the players of the round's matches, listed match after
    match, have no repetition, and any two matches at different positions
    of the round have no player in common.  Rounds completed by the
    urgency repair are rounds of the schedule like the others. *)
Theorem round_matches_disjoint inputPlayers courts matchType s :
  generateSchedule sortBy inputPlayers courts matchType = Returned s →
  Forall (λ r,
    NoDup (roundPlayers r)
    ∧ ∀ i j m m', i ≠ j → matches r !! i = Some m → matches r !! j = Some m' →
        ∀ p, p ∈ getMatchPlayers m → p ∉ getMatchPlayers m') (rounds s).
Proof using sortBy_perm.
  intros Hs. apply Forall_forall. intros r [k Hk]%list_elem_of_lookup.
  pose proof (ok_disjoint _ _ _ _ (schedule_RoundOk _ _ _ _ _ _ Hs Hk)) as Hnd.
  split; [done|]. intros i j m m' Hij Hi Hj.
  by apply (bind_lookup_disjoint getMatchPlayers (matches r) i j).
Qed.

(** C4: in every round of a returned schedule the resting list and the
    players of the matches are disjoint, and together they are the
    deduplicated roster, every player once. *)
Theorem round_partitions_roster inputPlayers courts matchType s :
  generateSchedule sortBy inputPlayers courts matchType = Returned s →
  Forall (λ r,
    (∀ p, p ∈ resting r → p ∉ roundPlayers r)
    ∧ resting r ++ roundPlayers r ≡ₚ arrayFromSet inputPlayers) (rounds s).
Proof using sortBy_perm.
  intros Hs. apply Forall_forall. intros r [k Hk]%list_elem_of_lookup.
  eapply RoundOk_partition; [apply arrayFromSet_NoDup|].
  by eapply schedule_RoundOk.
Qed.

(** C5: the match ids of a returned schedule, over all rounds, are
    pairwise distinct; this covers the matches that the urgency repair
    enumerates anew. *)
Theorem match_ids_unique inputPlayers courts matchType s :
  generateSchedule sortBy inputPlayers courts matchType = Returned s →
  NoDup (scheduledIds (rounds s)).
Proof using sortBy_perm.
  intros (_ & _ & st & -> & HI & _)%generateSchedule_Returned; [|done].
  pose proof (inv_ids _ _ _ HI) as Hids.
  by apply NoDup_app in Hids as (_ & _ & ?).
Qed.

(** C10, as the code has it: every round of a returned schedule has at
    least one match, and no match of it was pushed once [courts] matches
    were selected: each was pushed while the test [length >= courts] of
    the passes was false.  Hence a round has fewer than [courts + 1]
    matches when [courts] is finite, and at most [courts] matches when
    [courts] is a whole number. *)
Theorem round_size_within_courts inputPlayers courts matchType s :
  generateSchedule sortBy inputPlayers courts matchType = Returned s →
  Forall (λ r,
    (1 ≤ length (matches r))%nat
    ∧ (∀ k, (k < length (matches r))%nat → Num.geb (Num.ofNat k) courts = false)
    ∧ (∀ q, courts = Num.Finite q →
         (inject_Z (Z.of_nat (length (matches r))) < q + 1)%Q)
    ∧ (∀ c : Z, Num.eqb courts (Num.ofZ c) = true →
         Z.of_nat (length (matches r)) ≤ c)) (rounds s).
Proof using sortBy_perm.
  intros Hs. apply Forall_forall. intros r [k Hk]%list_elem_of_lookup.
  destruct (ok_courts _ _ _ _ (schedule_RoundOk _ _ _ _ _ _ Hs Hk)) as [Hone Hallow].
  split_and!; [done|exact Hallow| |].
  - intros q ->. by apply courtsAllow_Finite.
  - intros c Hc. destruct courts as [q| | |]; try done.
    unfold Num.eqb, Num.ofZ in Hc. apply Qeq_bool_iff in Hc.
    pose proof (courtsAllow_Finite q _ Hone Hallow) as Hlt.
    rewrite Hc in Hlt. change 1%Q with (inject_Z 1) in Hlt.
    rewrite <-inject_Z_plus, <-Zlt_Qlt in Hlt. lia.
Qed.

(** C9: on an input that passes validation [generateSchedule] returns,
    whatever the fuel above [maxIterations] the loop is run with, and the
    schedule has at most 1000 rounds. *)
Theorem generateSchedule_terminates inputPlayers courts matchType :
  (∀ message, generateSchedule sortBy inputPlayers courts matchType ≠ Thrown message) →
  ∃ s st,
    generateSchedule sortBy inputPlayers courts matchType = Returned s
    ∧ rounds s = St.rounds st
    ∧ (length (rounds s) ≤ 1000)%nat
    ∧ ∀ fuel, (1000 < fuel)%nat →
        whileLoop sortBy (arrayFromSet inputPlayers) courts matchType fuel
          (initialState (arrayFromSet inputPlayers) matchType) = Some st.
Proof using sortBy_perm.
  intros Hvalid.
  pose proof (generateSchedule_validation sortBy inputPlayers courts matchType) as Hv.
  cbv zeta in Hv. destruct (decide _) as [_|_]; [|destruct Hv as [msg Hv]; by destruct (Hvalid msg)].
  destruct Hv as (st & Hrun & Hret). eexists _, st. split_and!; [done..| |].
  - destruct (generateSchedule_Returned sortBy sortBy_perm _ _ _ _ Hret)
      as (_ & _ & st' & Hrounds & HI & _).
    simpl in Hrounds. simpl. rewrite Hrounds.
    pose proof (inv_roundNumber _ _ _ HI). pose proof (inv_cap _ _ _ HI).
    unfold maxIterations in *. lia.
  - intros fuel Hfuel. eapply whileLoop_fuel_mono; [exact Hrun|].
    unfold maxIterations. lia.
Qed.

End Claims.

Lemma whileLoop_iterations sortBy players courts matchType k fuel st0 st :
  iterations sortBy players courts matchType k st0 = Some st →
  whileLoop sortBy players courts matchType (k + fuel) st0
  = whileLoop sortBy players courts matchType fuel st.
Proof.
  revert st0. induction k as [|k IH]; intros st0; simpl; [by intros [= ->]|].
  destruct (loopIteration _ _ _ _ st0); [apply IH|done].
Qed.

Lemma iterations_roundNumber sortBy players courts matchType k st0 st :
  iterations sortBy players courts matchType k st0 = Some st →
  St.roundNumber st = St.roundNumber st0 + Z.of_nat k
  ∧ (St.roundNumber st0 ≤ maxIterations → St.roundNumber st ≤ maxIterations).
Proof.
  revert st0. induction k as [|k IH]; intros st0; simpl.
  - intros [= ->]. split; [lia|done].
  - destruct (loopIteration _ _ _ _ st0) as [st1|] eqn:Hstep; [|done].
    destruct (loopIteration_Some _ _ _ _ _ _ Hstep)
      as (rm & _ & Hlt & _ & _ & _ & _ & _ & _ & Ern).
    intros [H1 H2]%IH. split; [lia|]. intros _. apply H2. lia.
Qed.

(** C7: at a state in which some player is urgent and no remaining match
    holds an urgent player, the iteration leaves the loop; so every run of
    the loop that arrives at this state ends in it, and a call of
    [generateSchedule] whose loop arrives at it returns exactly the rounds
    produced before. *)
Theorem safety_gate_stops sortBy players courts matchType st :
  hasUrgentPlayer players st = true →
  canScheduleUrgent players st = false →
  loopIteration sortBy players courts matchType st = None
  ∧ (∀ st0 k fuel,
       iterations sortBy players courts matchType k st0 = Some st →
       (k < fuel)%nat →
       whileLoop sortBy players courts matchType fuel st0 = Some st)
  ∧ (∀ inputPlayers k,
       players = arrayFromSet inputPlayers →
       iterations sortBy players courts matchType k
         (initialState players matchType) = Some st →
       (∀ message,
          generateSchedule sortBy inputPlayers courts matchType ≠ Thrown message) →
       ∃ w, generateSchedule sortBy inputPlayers courts matchType
            = Returned {| rounds := St.rounds st; warning := w |}).
Proof.
  intros Hurgent Hcannot.
  assert (loopIteration sortBy players courts matchType st = None) as Hstop.
  { unfold loopIteration. destruct (negb _); [done|].
    by rewrite Hurgent, Hcannot. }
  assert (∀ st0 k fuel,
       iterations sortBy players courts matchType k st0 = Some st →
       (k < fuel)%nat →
       whileLoop sortBy players courts matchType fuel st0 = Some st) as Hrun.
  { intros st0 k fuel Hk Hfuel.
    replace fuel with (k + S (fuel - S k))%nat by lia.
    rewrite (whileLoop_iterations _ _ _ _ _ _ _ _ Hk). simpl. by rewrite Hstop. }
  split_and!; [done..|].
  intros inputPlayers k -> Hk Hvalid.
  pose proof (generateSchedule_validation sortBy inputPlayers courts matchType) as Hv.
  cbv zeta in Hv.
  destruct (decide _) as [_|_]; [|destruct Hv as [msg Hv]; by destruct (Hvalid msg)].
  destruct Hv as (st' & Hrun' & ->). eexists.
  destruct (iterations_roundNumber _ _ _ _ _ _ _ Hk) as [Hrn Hcap].
  assert (St.roundNumber (initialState (arrayFromSet inputPlayers) matchType) = 0) as E0.
  { unfold initialState. by destruct (generateAllMatches _ _). }
  rewrite E0 in Hrn, Hcap. rewrite (Hrun _ k) in Hrun'; [by injection Hrun' as <-|done|].
  unfold maxIterations in *. lia.
Qed.

Section Validation.
Variable sortBy :
  (MatchCandidate → MatchCandidate → Z) → list MatchCandidate → list MatchCandidate.

(** C2, as the code has it: the roster is the input without repetition,
    first occurrences kept in order; the call throws exactly when fewer
    than 5 players remain on it or [courts < 1], and returns a schedule
    otherwise.  Every name counts, the empty one too. *)
Theorem generateSchedule_validates inputPlayers courts matchType :
  let unique := arrayFromSet inputPlayers in
  (NoDup unique
   ∧ (∀ p, p ∈ unique ↔ p ∈ inputPlayers)
   ∧ arrayFromSet [] = []
   ∧ ∀ x xs, arrayFromSet (x :: xs) = x :: filter (λ y, y ≠ x) (arrayFromSet xs))
  ∧ ((∃ message, generateSchedule sortBy inputPlayers courts matchType = Thrown message)
     ↔ (length unique < 5)%nat ∨ Num.ltb courts (Num.ofZ 1) = true)
  ∧ ((∃ s, generateSchedule sortBy inputPlayers courts matchType = Returned s)
     ↔ ¬ ((length unique < 5)%nat ∨ Num.ltb courts (Num.ofZ 1) = true)).
Proof.
  intros unique. split.
  { split_and!; [apply arrayFromSet_NoDup|apply arrayFromSet_elem_of|done|
                 apply arrayFromSet_cons]. }
  pose proof (generateSchedule_validation sortBy inputPlayers courts matchType) as Hv.
  cbv zeta in Hv. fold unique in Hv.
  destruct (decide _) as [[Hlen Hc]|Hno].
  - destruct Hv as (st & _ & Hret). rewrite Hret. split; split.
    + intros [? [=]].
    + intros [?|?]; [lia|congruence].
    + intros _ [?|?]; [lia|congruence].
    + intros _. by eexists.
  - assert ((length unique < 5)%nat ∨ Num.ltb courts (Num.ofZ 1) = true) as Hbad.
    { destruct (decide (length unique < 5)%nat); [by left|right].
      destruct (Num.ltb courts (Num.ofZ 1)); [done|]. destruct Hno. split; [lia|done]. }
    destruct Hv as [msg ->]. split; split.
    + by intros _.
    + intros _. by eexists.
    + intros [? [=]].
    + done.
Qed.
End Validation.

(** ** One court and at most seven players *)

Lemma matchesAgainst_singles p rest next :
  p ∉ rest →
  teamsOf <$> (matchesAgainst [p] ((λ q, [q]) <$> rest) next).1
  = (λ q, ([p], [q])) <$> rest.
Proof.
  revert next. induction rest as [|q rest IH]; intros next Hp; [done|].
  rewrite fmap_cons. cbn [matchesAgainst].
  replace (teamsOverlap [p] [q]) with false.
  - specialize (IH (S next) ltac:(set_solver)).
    destruct (matchesAgainst [p] _ (S next)) as [ms next']. cbn [fst] in *.
    by rewrite fmap_cons, IH.
  - symmetry. unfold teamsOverlap. simpl. rewrite orb_false_r.
    apply bool_decide_eq_false_2. set_solver.
Qed.

Lemma generateAllMatches_singles players next :
  NoDup players →
  teamsOf <$> (generateAllMatches (generateTeams players singles) next).1
  = pairings players.
Proof.
  intros Hnd. revert next. simpl.
  induction Hnd as [|p rest Hp Hnd IH]; intros next; [done|].
  rewrite fmap_cons. cbn [generateAllMatches].
  pose proof (matchesAgainst_singles p rest next Hp) as H1.
  destruct (matchesAgainst [p] _ next) as [ms1 next1].
  specialize (IH next1). destruct (generateAllMatches _ next1) as [ms2 next2].
  cbn [fst] in *. by rewrite fmap_app, H1, IH.
Qed.

Lemma filter_remove_perm {A B} (f : A → B) `{EqDecision B} (l : list A) x :
  NoDup (f <$> l) → x ∈ l → l ≡ₚ x :: filter (λ y, f y ∉ [f x]) l.
Proof.
  induction l as [|a l IH]; intros Hnd Hx; [by apply elem_of_nil in Hx|].
  rewrite fmap_cons in Hnd. apply NoDup_cons in Hnd as [Ha Hnd].
  apply elem_of_cons in Hx as [->|Hx].
  - rewrite filter_cons_False by set_solver. f_equiv. symmetry.
    rewrite filter_all; [done|]. intros y Hy Hin%list_elem_of_singleton.
    apply Ha. rewrite <-Hin. by apply list_elem_of_fmap_2.
  - assert (f a ≠ f x) as Hne.
    { intros E. apply Ha. rewrite E. by apply list_elem_of_fmap_2. }
    rewrite filter_cons_True by set_solver.
    rewrite (IH Hnd Hx) at 1. apply Permutation_swap.
Qed.

Lemma loopIteration_None sortBy players courts matchType st :
  loopIteration sortBy players courts matchType st = None →
  St.remainingMatches st = []
  ∨ maxIterations ≤ St.roundNumber st
  ∨ (hasUrgentPlayer players st = true ∧ canScheduleUrgent players st = false)
  ∨ (let selected :=
       selectRoundMatches sortBy (St.remainingMatches st) courts (St.playerStats st)
         (St.teamUsageCount st) (St.teamLastUsedRound st) (St.roundNumber st) in
     (if hasUrgentPlayer players st
      then (urgencyRepair players courts matchType st selected).1
      else selected) = []).
Proof.
  unfold loopIteration.
  destruct (0 <? _) eqn:Hrem.
  2:{ intros _. left. apply Z.ltb_ge in Hrem.
      destruct (St.remainingMatches st); [done|cbn [length] in Hrem; lia]. }
  destruct (_ <? maxIterations) eqn:Hcap; [|intros _; right; left; lia]. simpl.
  destruct (hasUrgentPlayer players st) eqn:Hurgent; simpl.
  - destruct (canScheduleUrgent players st); simpl; [|intros _; right; right; by left].
    destruct (urgencyRepair _ _ _ _ _) as [rm next]. simpl.
    destruct (_ =? 0) eqn:Hlen; [|by destruct (updateTeamTracking _ _ _)].
    intros _. do 3 right. apply Z.eqb_eq in Hlen.
    destruct rm; [done|cbn [length] in Hlen; lia].
  - destruct (_ =? 0) eqn:Hlen; [|by destruct (updateTeamTracking _ _ _)].
    intros _. do 3 right. apply Z.eqb_eq in Hlen.
    destruct (selectRoundMatches _ _ _ _ _ _ _); [done|cbn [length] in Hlen; lia].
Qed.

Section OneCourt.
Variable sortBy :
  (MatchCandidate → MatchCandidate → Z) → list MatchCandidate → list MatchCandidate.
Hypothesis sortBy_perm : ∀ cmp l, sortBy cmp l ≡ₚ l.
Variables (players : list Player) (matchType : MatchType).
Hypothesis players_NoDup : NoDup players.
Hypothesis players_few : (length players ≤ 7)%nat.

(** With the threshold at 1 every player is urgent before every round. *)
Lemma all_players_urgent courts st p :
  Inv players courts st → p ∈ players → isUrgent players st p = true.
Proof using players_few.
  intros HI Hp. apply (isUrgent_urgentAfter players courts st p HI Hp).
  unfold urgentAfter, restThreshold.
  rewrite (proj2 (Z.leb_le (Z.of_nat (length players)) 7)) by lia. lia.
Qed.

Lemma loopIteration_progress courts st :
  Num.ltb courts (Num.ofZ 1) = false → Inv players courts st →
  St.remainingMatches st ≠ [] → St.roundNumber st < maxIterations →
  is_Some (loopIteration sortBy players courts matchType st).
Proof using sortBy_perm players_NoDup players_few.
  intros Hc HI Hrem Hcap.
  destruct (loopIteration _ _ _ _ st) eqn:E; [by eexists|]. exfalso.
  apply loopIteration_None in E as [E|[E|[[Hu Hcan]|E]]]; [done|lia| |].
  - destruct (St.remainingMatches st) as [|m rest] eqn:Erem; [done|].
    destruct (inv_remaining _ _ _ HI m) as [Hne Hsub]; [rewrite Erem; left|].
    destruct (getMatchPlayers m) as [|p ps] eqn:Epl; [done|].
    assert (p ∈ players) as Hp by (apply Hsub; left).
    apply not_true_iff_false in Hcan. apply Hcan.
    unfold canScheduleUrgent. rewrite Erem. apply existsb_exists. exists m.
    split; [by left|]. apply existsb_exists. exists p. split.
    + apply list_elem_of_In. unfold urgentPlayers. apply list_elem_of_filter.
      split; [|done]. apply Is_true_true. by eapply all_players_urgent.
    + apply bool_decide_eq_true. rewrite Epl. left.
  - pose proof (selectRoundMatches_nonempty sortBy sortBy_perm (St.remainingMatches st)
              courts (St.playerStats st) (St.teamUsageCount st)
              (St.teamLastUsedRound st) (St.roundNumber st)
              (accepted_open _ Hc) Hrem) as Hsne.
    cbv zeta in E. destruct (hasUrgentPlayer players st); [|done].
    destruct (selectRoundMatches_Packed sortBy sortBy_perm (St.remainingMatches st)
              courts (St.playerStats st) (St.teamUsageCount st)
              (St.teamLastUsedRound st) (St.roundNumber st)) as [used HP].
    destruct (urgencyRepair_spec players courts matchType st _ used HP)
      as (_ & _ & _ & Hpre & _).
    rewrite E in Hpre. by apply prefix_nil_inv in Hpre.
Qed.

(** With one court, an iteration takes one match out of the pool and
    makes it the round. *)
Lemma one_court_step st :
  Inv players (Num.ofZ 1) st →
  St.remainingMatches st ≠ [] → St.roundNumber st < maxIterations →
  ∃ st' m r,
    loopIteration sortBy players (Num.ofZ 1) matchType st = Some st'
    ∧ St.rounds st' = St.rounds st ++ [r]
    ∧ matches r = [m]
    ∧ St.remainingMatches st ≡ₚ m :: St.remainingMatches st'.
Proof using sortBy_perm players_NoDup players_few.
  intros HI Hrem Hcap.
  destruct (loopIteration_progress (Num.ofZ 1) st) as [st' Hstep]; [done..|].
  destruct (loopIteration_round sortBy sortBy_perm players (Num.ofZ 1) matchType
              players_NoDup eq_refl st st' HI Hstep)
    as (rm & used & fresh & Erounds & Erem & _ & _ & _ & _ & HP & _ & _ & _
        & (m & Hm0 & Hm) & _).
  assert (rm = [m]) as ->.
  { pose proof (packed_courts _ _ _ _ HP) as Hallow.
    destruct rm as [|m' [|m2 ms]]; [done|simpl in *; by simplify_eq|].
    pose proof (courtsAllow_ofZ 1 (length (m' :: m2 :: ms)) ltac:(simpl; lia) Hallow).
    simpl in *. lia. }
  eexists st', m, _. split_and!; [done|exact Erounds|done|].
  rewrite Erem. apply (filter_remove_perm matchId); [|done].
  pose proof (inv_ids _ _ _ HI) as Hids.
  by apply NoDup_app in Hids as (? & _ & _).
Qed.

Lemma one_court_run n st :
  Inv players (Num.ofZ 1) st →
  length (St.remainingMatches st) = n →
  St.roundNumber st + Z.of_nat n ≤ maxIterations →
  ∃ st' rs,
    whileLoop sortBy players (Num.ofZ 1) matchType (S n) st = Some st'
    ∧ St.rounds st' = St.rounds st ++ rs
    ∧ Forall (λ r, ∃ m, matches r = [m]) rs
    ∧ rs ≫= matches ≡ₚ St.remainingMatches st.
Proof using sortBy_perm players_NoDup players_few.
  revert st. induction n as [|n IH]; intros st HI Hlen Hcap.
  - exists st, []. apply nil_length_inv in Hlen.
    assert (loopIteration sortBy players (Num.ofZ 1) matchType st = None) as Hnone.
    { unfold loopIteration. by rewrite Hlen. }
    rewrite app_nil_r, Hlen. split_and!; [|done..].
    cbn [whileLoop]. by rewrite Hnone.
  - destruct (one_court_step st) as (st1 & m & r & Hstep & Erounds & Er & Hperm);
      [done|by destruct (St.remainingMatches st)|lia|].
    destruct (loopIteration_Some _ _ _ _ _ _ Hstep)
      as (_ & _ & _ & _ & _ & _ & _ & _ & _ & Ern).
    destruct (IH st1) as (st' & rs & Hrun & Erounds' & Hall & Hperm').
    + by eapply loopIteration_Inv.
    + apply Permutation_length in Hperm. simpl in Hperm. lia.
    + lia.
    + exists st', (r :: rs). split_and!.
      * change (whileLoop sortBy players (Num.ofZ 1) matchType (S (S n)) st)
          with (match loopIteration sortBy players (Num.ofZ 1) matchType st with
                | Some st1 => whileLoop sortBy players (Num.ofZ 1) matchType (S n) st1
                | None => Some st end).
        by rewrite Hstep.
      * by rewrite Erounds', Erounds, <-app_assoc.
      * constructor; [by exists m|done].
      * rewrite bind_cons, Er, Hperm', Hperm. done.
Qed.
End OneCourt.

Lemma pairings_elem_of players t :
  NoDup players → t ∈ pairings players →
  ∃ a b, t = ([a], [b]) ∧ a ≠ b ∧ a ∈ players ∧ b ∈ players.
Proof.
  induction 1 as [|p rest Hp Hnd IH]; simpl; [by intros ?%elem_of_nil|].
  rewrite elem_of_app, list_elem_of_fmap. intros [(q & -> & Hq)|Ht].
  - exists p, q. split_and!; [done| |left|by right]. by intros ->.
  - destruct (IH Ht) as (a & b & -> & ? & ? & ?). exists a, b.
    split_and!; [done..|by right|by right].
Qed.

Lemma initialState_remaining players matchType :
  St.remainingMatches (initialState players matchType)
  = (generateAllMatches (generateTeams players matchType) 0).1.
Proof. unfold initialState. by destruct (generateAllMatches _ _). Qed.

Lemma initialState_rounds players matchType :
  St.rounds (initialState players matchType) = []
  ∧ St.roundNumber (initialState players matchType) = 0.
Proof. unfold initialState. by destruct (generateAllMatches _ _). Qed.

(** C8: five distinct players, one court, singles.  The call returns a
    schedule in which every round has exactly one match, between two
    different players, and three players resting; over the rounds, every
    pair of players meets exactly once, which makes ten matches. *)
Theorem five_players_singles_one_court sortBy p1 p2 p3 p4 p5 :
  (∀ cmp l, sortBy cmp l ≡ₚ l) →
  NoDup [p1; p2; p3; p4; p5] →
  ∃ s,
    generateSchedule sortBy [p1; p2; p3; p4; p5] (Num.ofZ 1) singles = Returned s
    ∧ Forall (λ r, ∃ m a b,
                matches r = [m] ∧ teamA m = [a] ∧ teamB m = [b] ∧ a ≠ b
                ∧ roundPlayers r = [a; b] ∧ length (resting r) = 3%nat) (rounds s)
    ∧ teamsOf <$> (rounds s ≫= matches)
      ≡ₚ [([p1], [p2]); ([p1], [p3]); ([p1], [p4]); ([p1], [p5]);
          ([p2], [p3]); ([p2], [p4]); ([p2], [p5]);
          ([p3], [p4]); ([p3], [p5]);
          ([p4], [p5])]
    ∧ length (rounds s) = 10%nat.
Proof.
  intros sortBy_perm Hnd. set (players := [p1; p2; p3; p4; p5]) in *.
  pose proof (generateSchedule_validation sortBy players (Num.ofZ 1) singles) as Hv.
  cbv zeta in Hv. rewrite (arrayFromSet_id players Hnd) in Hv.
  rewrite decide_True in Hv by (split; [simpl; lia|reflexivity]).
  destruct Hv as (st & Hrun & Hret). eexists. split; [exact Hret|]. simpl rounds.
  pose proof (initialState_Inv players (Num.ofZ 1) singles Hnd eq_refl) as HI0.
  pose proof (generateAllMatches_singles players 0 Hnd) as Hgen.
  rewrite <-initialState_remaining in Hgen.
  destruct (initialState_rounds players singles) as [Er0 Ern0].
  destruct (one_court_run sortBy sortBy_perm players singles Hnd ltac:(simpl; lia)
              10 (initialState players singles) HI0)
    as (st' & rs & Hrun' & Erounds & Hsingle & Hperm).
  { apply (f_equal length) in Hgen. by rewrite length_fmap in Hgen. }
  { rewrite Ern0. unfold maxIterations. lia. }
  apply (whileLoop_fuel_mono _ _ _ _ _ (S (Z.to_nat maxIterations))) in Hrun';
    [|unfold maxIterations; lia].
  rewrite Hrun in Hrun'. injection Hrun' as <-.
  rewrite Er0 in Erounds. simpl in Erounds. rewrite Erounds.
  destruct (whileLoop_Inv sortBy sortBy_perm players (Num.ofZ 1) singles Hnd eq_refl
              _ _ _ HI0 Hrun) as [HI _].
  assert (teamsOf <$> (rs ≫= matches) ≡ₚ pairings players) as Hpairs
    by (by rewrite Hperm, Hgen).
  split_and!.
  - apply Forall_forall. intros r Hr.
    destruct (proj1 (Forall_forall _ _) Hsingle r Hr) as [m Hm].
    assert (teamsOf m ∈ pairings players) as Hin.
    { rewrite <-Hpairs. apply list_elem_of_fmap_2, list_elem_of_bind.
      exists r. rewrite Hm. split; [left|done]. }
    apply pairings_elem_of in Hin as (a & b & [= Ha Hb] & Hab & _ & _); [|done].
    assert (roundPlayers r = [a; b]) as Hplaying.
    { unfold roundPlayers, playersOfMatches. rewrite Hm. simpl. rewrite app_nil_r.
      unfold getMatchPlayers. rewrite Ha, Hb. simpl.
      rewrite arrayFromSet_id; [done|]. apply NoDup_cons. split; [set_solver|].
      apply NoDup_singleton. }
    exists m, a, b. split_and!; [done..|].
    rewrite <-Erounds in Hr. apply list_elem_of_lookup in Hr as [k Hk].
    destruct (RoundOk_partition _ _ _ _ Hnd (inv_rounds _ _ _ HI k r Hk)) as [_ Hpart].
    apply Permutation_length in Hpart. rewrite length_app, Hplaying in Hpart.
    simpl in Hpart. lia.
  - done.
  - apply Permutation_length in Hperm.
    apply (f_equal length) in Hgen. rewrite length_fmap in Hgen.
    rewrite Hgen in Hperm. simpl in Hperm.
    assert (length (rs ≫= matches) = length rs) as E; [|lia].
    clear -Hsingle. induction Hsingle as [|r rs [m Hm] _ IH]; [done|].
    rewrite bind_cons, Hm. simpl. by rewrite IH.
Qed.

(** ** The comparator against the ordering rule *)

Lemma orElse_zero v : orElse v 0 = default 0 v.
Proof. destruct v as [x|]; simpl; [|done]. by destruct (Z.eqb_spec x 0). Qed.

Lemma orElse_nonzero v d : v ≠ Some 0 → orElse v d = default d v.
Proof.
  destruct v as [x|]; simpl; [|done]. intros Hx.
  destruct (Z.eqb_spec x 0) as [->|]; done.
Qed.

(** [|| -10] turns a team that was last used in round 0 into one that was
    never used ... *)
Lemma orElse_round0 : orElse (Some 0) (-10) = -10.
Proof. reflexivity. Qed.

(** ... and this is the only place where the freshness score of the code
    leaves the formula of the specification. *)
Lemma freshness_agrees m usage lastUsed r :
  lastUsed !! getTeamKey (teamA m) ≠ Some 0 →
  lastUsed !! getTeamKey (teamB m) ≠ Some 0 →
  calculateTeamFreshnessScore m usage lastUsed r = Spec.freshness usage lastUsed r m.
Proof.
  intros HA HB. unfold calculateTeamFreshnessScore, Spec.freshness, getMatchTeams,
    Spec.usage_count, Spec.last_used_round, Spec.recency_penalty.
  by rewrite !orElse_zero, !orElse_nonzero.
Qed.

Lemma waits_agree playerStats r (players : list Player) :
  (∀ p, p ∈ players → is_Some (playerStats !! p)) →
  roundsSince playerStats r <$> players = Spec.wait playerStats r <$> players.
Proof.
  intros Hall. apply list_fmap_ext. intros i p Hp%list_elem_of_lookup_2.
  by apply roundsSince_getStats, Hall.
Qed.

Lemma restCounts_agree (playerStats : gmap string PlayerStats) (players : list Player) :
  (∀ p, p ∈ players → is_Some (playerStats !! p)) →
  (λ p, orElse (restCount <$> playerStats !! p) 0) <$> players
  = (λ p, restCount (getStats playerStats p)) <$> players.
Proof.
  intros Hall. apply list_fmap_ext. intros i p Hp%list_elem_of_lookup_2.
  destruct (Hall p Hp) as [s Hs]. rewrite orElse_zero. unfold getStats.
  by rewrite Hs.
Qed.

Lemma threshold_agrees n : restThreshold n = Spec.T n.
Proof.
  unfold restThreshold, Spec.T.
  destruct (Z.leb_spec (Z.of_nat n) 7), (Nat.leb_spec n 7); (done || lia).
Qed.

Lemma rest_balance_sign (d : Q) :
  Qgtb (Qabs d) (3 # 10) = true →
  Z.sgn ((if Qgtb d 0 then 1 else -1) * 50)
  = match (d ?= 0)%Q with Gt => 1 | Lt => -1 | Eq => 0 end.
Proof.
  unfold Qgtb. intros Habs%negb_true_iff.
  destruct (Qle_bool d 0) eqn:Hd; simpl.
  - apply Qle_bool_iff in Hd. destruct (d ?= 0)%Q eqn:Hc; [|done|].
    + apply Qeq_alt in Hc. exfalso.
      assert (Qle_bool (Qabs d) (3 # 10) = true) as E; [|congruence].
      apply Qle_bool_iff. rewrite Hc. done.
    + apply Qgt_alt in Hc. exfalso. by apply (Qlt_not_le _ _ Hc).
  - destruct (d ?= 0)%Q eqn:Hc; [| |done].
    + apply Qeq_alt in Hc. assert (Qle_bool d 0 = true) as E; [|congruence].
      apply Qle_bool_iff. rewrite Hc. apply Qle_refl.
    + apply Qlt_alt in Hc. assert (Qle_bool d 0 = true) as E; [|congruence].
      apply Qle_bool_iff. by apply Qlt_le_weak.
Qed.

(** The comparator and the ordering rule agree in sign wherever the two
    matches use no team that was last used in round 0 (players with
    statistics, roster as large as the statistics map). *)
Lemma compareCandidates_refines_order numPlayers playerStats usage lastUsed r a b :
  size playerStats = numPlayers →
  (∀ p, p ∈ getMatchPlayers a ++ getMatchPlayers b → is_Some (playerStats !! p)) →
  (∀ team, team ∈ [teamA a; teamB a; teamA b; teamB b] →
           lastUsed !! getTeamKey team ≠ Some 0) →
  Z.sgn (compareCandidates playerStats r
           (makeCandidate playerStats usage lastUsed r a)
           (makeCandidate playerStats usage lastUsed r b))
  = Spec.order numPlayers playerStats usage lastUsed r a b.
Proof.
  intros Hsize Hstats Hteams.
  unfold compareCandidates, Spec.order, makeCandidate. cbn [cPlayers avgRest freshnessScore].
  unfold maxRoundsSince, sumRoundsSince, minRoundsSince,
    Spec.max_wait, Spec.sum_wait, Spec.min_wait, Spec.avg_rest, Spec.U.
  rewrite !(waits_agree playerStats r (getMatchPlayers a)) by set_solver.
  rewrite !(waits_agree playerStats r (getMatchPlayers b)) by set_solver.
  rewrite (restCounts_agree playerStats (getMatchPlayers a)) by set_solver.
  rewrite (restCounts_agree playerStats (getMatchPlayers b)) by set_solver.
  rewrite !freshness_agrees by (apply Hteams; set_solver).
  rewrite Hsize, threshold_agrees.
  generalize (mathMax (Spec.wait playerStats r <$> getMatchPlayers a)).
  generalize (mathMax (Spec.wait playerStats r <$> getMatchPlayers b)).
  generalize (sumZ (Spec.wait playerStats r <$> getMatchPlayers a)).
  generalize (sumZ (Spec.wait playerStats r <$> getMatchPlayers b)).
  generalize (mathMin (Spec.wait playerStats r <$> getMatchPlayers a)).
  generalize (mathMin (Spec.wait playerStats r <$> getMatchPlayers b)).
  generalize (Spec.freshness usage lastUsed r a).
  generalize (Spec.freshness usage lastUsed r b).
  generalize (Spec.T numPlayers).
  match goal with |- context [Qabs ?d] => generalize d end.
  intros d T fb fa minB minA sumB sumA maxB maxA.
  unfold Spec.descending, Spec.ascending. cbn [Spec.firstNonZero].
  destruct ((T <=? maxA) || (T <=? maxB)),
           ((Z.max 1 (T - 1) <=? maxA) || (Z.max 1 (T - 1) <=? maxB));
    destruct (Z.eqb_spec (maxB - maxA) 0) as [E1|E1]; cbn [andb negb];
    try rewrite E1; cbn [Z.sgn Z.eqb];
    try (destruct (Z.eqb_spec (Z.sgn (maxB - maxA)) 0); [lia|lia]);
    (destruct (Z.eqb_spec sumA sumB) as [E2|E2]; cbn [negb];
     [ replace (sumB - sumA) with 0 by lia; cbn [Z.sgn Z.eqb];
       destruct (Qgtb (Qabs d) (3 # 10)) eqn:E3;
       [ rewrite (rest_balance_sign d E3);
         destruct (d ?= 0)%Q eqn:E4; cbn [Z.eqb]; try done;
         (pose proof (rest_balance_sign d E3) as E5; rewrite E4 in E5;
          destruct (Qgtb d 0); done)
       | cbn [Z.eqb];
         destruct (Z.eqb_spec minA minB) as [E5|E5]; cbn [negb];
         [ replace (minB - minA) with 0 by lia; cbn [Z.sgn Z.eqb];
           destruct (Z.eqb_spec (Z.sgn (fa - fb)) 0); lia
         | destruct (Z.eqb_spec (Z.sgn (minB - minA)) 0); lia ] ]
     | destruct (Z.eqb_spec (Z.sgn (sumB - sumA)) 0); lia ]).
Qed.

(** C6: in the run of scenario S3 (eight players, two courts, doubles), at
    the top of the third iteration, the pool holds the matches AB-EF and
    AC-BE.  All their players have played every round and never rested, so
    freshness decides.  Teams AB and EF were last used in round 0, which
    [|| -10] reads as never used: the code scores AB-EF 198 and sorts it
    first, the specification's formula scores it 308, after AC-BE at 209. *)
Theorem comparator_departs_from_spec :
  let a := {| matchId := 9; teamA := ["A"; "B"]; teamB := ["E"; "F"] |} in
  let b := {| matchId := 16; teamA := ["A"; "C"]; teamB := ["B"; "E"] |} in
  match iterations stableSort playersS3 (Num.ofZ 2) doubles 2 (initialState playersS3 doubles) with
  | Some st =>
      St.roundNumber st = 2
      ∧ bool_decide (a ∈ St.remainingMatches st) = true
      ∧ bool_decide (b ∈ St.remainingMatches st) = true
      ∧ Z.sgn (compareMatches st a b) = -1
      ∧ specOrder playersS3 st a b = 1
      ∧ St.teamLastUsedRound st !! getTeamKey ["A"; "B"] = Some 0
      ∧ St.teamLastUsedRound st !! getTeamKey ["E"; "F"] = Some 0
      ∧ calculateTeamFreshnessScore a (St.teamUsageCount st)
          (St.teamLastUsedRound st) (St.roundNumber st) = 198
      ∧ Spec.freshness (St.teamUsageCount st) (St.teamLastUsedRound st)
          (St.roundNumber st) a = 308
      ∧ calculateTeamFreshnessScore b (St.teamUsageCount st)
          (St.teamLastUsedRound st) (St.roundNumber st) = 209
      ∧ Spec.freshness (St.teamUsageCount st) (St.teamLastUsedRound st)
          (St.roundNumber st) b = 209
  | None => False
  end.
Proof. vm_compute. repeat split; reflexivity. Qed.

(** ** The claims on concrete runs *)

Lemma scheduleS1_returned :
  generateSchedule stableSort playersS1 (Num.ofZ 1) singles = Returned scheduleS1.
Proof. vm_compute. reflexivity. Qed.

Lemma scheduleSix_returned :
  generateSchedule stableSort playersSix (Num.ofZ 3) singles = Returned scheduleSix.
Proof. vm_compute. reflexivity. Qed.

(** In [scheduleSix] the match E-F is played in rounds 1, 2 and 3; the
    second and third occurrences come from the urgency repair and carry ids
    of their own. *)
Example repair_repeats_with_fresh_ids :
  (λ r, (λ m, (matchId m, teamA m, teamB m)) <$> matches r) <$> take 3 (rounds scheduleSix)
  = [ [(0%nat, ["A"], ["B"]); (9%nat, ["C"], ["D"]); (14%nat, ["E"], ["F"])];
      [(1%nat, ["A"], ["C"]); (6%nat, ["B"], ["D"]); (29%nat, ["E"], ["F"])];
      [(2%nat, ["A"], ["D"]); (5%nat, ["B"], ["C"]); (44%nat, ["E"], ["F"])] ].
Proof. reflexivity. Qed.

Lemma scheduleS1Fractional_returned :
  generateSchedule stableSort playersS1 (Num.Finite (3 # 2)) singles
  = Returned scheduleS1Fractional.
Proof. vm_compute. reflexivity. Qed.

(** C10 as stated fails when [courts] is not a whole number: with 1.5
    courts the call returns, and the first round of the schedule has 2
    matches, A against B and C against D, which is more than [courts]. *)
Lemma fractional_courts_exceeded :
  generateSchedule stableSort playersS1 (Num.Finite (3 # 2)) singles
  = Returned scheduleS1Fractional
  ∧ (∃ r, rounds scheduleS1Fractional !! 0%nat = Some r
          ∧ teamsOf <$> matches r = [(["A"], ["B"]); (["C"], ["D"])]
          ∧ Num.geb (Num.Finite (3 # 2)) (Num.ofNat (length (matches r))) = false)
  ∧ ¬ Forall (λ r, (1 <= inject_Z (Z.of_nat (length (matches r))) <= 3 # 2)%Q)
        (rounds scheduleS1Fractional).
Proof.
  split_and!; [exact scheduleS1Fractional_returned|by eexists|].
  intros H. apply Forall_inv in H as [_ H]. vm_compute in H. by apply H.
Qed.

(** C1 as stated fails on scenario S1: the roster has five players, so the
    threshold is 1, and E rests in rounds 1 and 2. *)
Lemma rest_cap_exceeded :
  generateSchedule stableSort playersS1 (Num.ofZ 1) singles = Returned scheduleS1
  ∧ restThreshold (length (arrayFromSet playersS1)) = 1
  ∧ longestRestingRun (rounds scheduleS1) "E" = 2%nat
  ∧ ¬ (∀ p, p ∈ arrayFromSet playersS1 →
            Z.of_nat (longestRestingRun (rounds scheduleS1) p)
            ≤ restThreshold (length (arrayFromSet playersS1))).
Proof.
  split_and!; [exact scheduleS1_returned|reflexivity|reflexivity|].
  intros H. specialize (H "E"). 
  assert ("E" ∈ arrayFromSet playersS1) as HE
    by (apply arrayFromSet_elem_of; unfold playersS1; set_solver).
  specialize (H HE). vm_compute in H. by apply H.
Qed.

(** Eight players on one court, singles: six of eight rest every round, and
    the runs pass the threshold 2 as well. *)
Example rest_runs_eight_players_one_court :
  longestRestingRun
    (rounds (scheduleOf (generateSchedule stableSort playersS3 (Num.ofZ 1) singles)))
    <$> playersS3
  = [3; 4; 5; 5; 4; 4; 4; 5]%nat.
Proof. vm_compute. reflexivity. Qed.

(** Scenarios S7 and S8 of the specification. *)
Example scenario_S7 :
  generateSchedule stableSort ["A"; "A"; "B"; "B"; "C"; "C"] (Num.ofZ 1) singles
  = Thrown "After removing 3 duplicate(s), only 3 unique players remain. Minimum 5 required.".
Proof. reflexivity. Qed.

Example scenario_S8 :
  generateSchedule stableSort playersS1 (Num.ofZ 0) singles = Thrown "At least 1 court required".
Proof. reflexivity. Qed.

(** C2 as stated fails on a roster with an empty name: four non-empty
    unique players remain, and the call returns a schedule of ten rounds in
    which the empty name plays. *)
Lemma empty_name_accepted :
  (length (filter (λ p, p ≠ "") (arrayFromSet playersWithEmptyName)) < 5)%nat
  ∧ ∃ s, generateSchedule stableSort playersWithEmptyName (Num.ofZ 1) singles = Returned s
         ∧ length (rounds s) = 10%nat
         ∧ (teamsOf <$> (rounds s ≫= matches)) !! 0%nat = Some ([""], ["A"]).
Proof.
  split; [vm_compute; lia|]. eexists. split; [vm_compute; reflexivity|].
  split; reflexivity.
Qed.

Lemma round_matches_disjoint_witness :
  (∀ cmp l, stableSort (A := MatchCandidate) cmp l ≡ₚ l)
  ∧ generateSchedule stableSort playersSix (Num.ofZ 3) singles = Returned scheduleSix
  ∧ Forall (λ r,
      NoDup (roundPlayers r)
      ∧ ∀ i j m m', i ≠ j → matches r !! i = Some m → matches r !! j = Some m' →
          ∀ p, p ∈ getMatchPlayers m → p ∉ getMatchPlayers m') (rounds scheduleSix).
Proof.
  split; [apply stableSort_perm|]. split; [exact scheduleSix_returned|].
  apply (round_matches_disjoint stableSort stableSort_perm playersSix (Num.ofZ 3) singles).
  exact scheduleSix_returned.
Defined.

Lemma round_partitions_roster_witness :
  (∀ cmp l, stableSort (A := MatchCandidate) cmp l ≡ₚ l)
  ∧ generateSchedule stableSort playersS1 (Num.ofZ 1) singles = Returned scheduleS1
  ∧ Forall (λ r,
      (∀ p, p ∈ resting r → p ∉ roundPlayers r)
      ∧ resting r ++ roundPlayers r ≡ₚ arrayFromSet playersS1) (rounds scheduleS1).
Proof.
  split; [apply stableSort_perm|]. split; [exact scheduleS1_returned|].
  apply (round_partitions_roster stableSort stableSort_perm playersS1 (Num.ofZ 1) singles).
  exact scheduleS1_returned.
Defined.

Lemma match_ids_unique_witness :
  (∀ cmp l, stableSort (A := MatchCandidate) cmp l ≡ₚ l)
  ∧ generateSchedule stableSort playersSix (Num.ofZ 3) singles = Returned scheduleSix
  ∧ NoDup (scheduledIds (rounds scheduleSix)).
Proof.
  split; [apply stableSort_perm|]. split; [exact scheduleSix_returned|].
  apply (match_ids_unique stableSort stableSort_perm playersSix (Num.ofZ 3) singles).
  exact scheduleSix_returned.
Defined.

Lemma round_size_within_courts_witness :
  (∀ cmp l, stableSort (A := MatchCandidate) cmp l ≡ₚ l)
  ∧ generateSchedule stableSort playersS1 (Num.Finite (3 # 2)) singles
    = Returned scheduleS1Fractional
  ∧ Forall (λ r,
      (1 ≤ length (matches r))%nat
      ∧ (∀ k, (k < length (matches r))%nat
              → Num.geb (Num.ofNat k) (Num.Finite (3 # 2)) = false)
      ∧ (∀ q, Num.Finite (3 # 2) = Num.Finite q →
           (inject_Z (Z.of_nat (length (matches r))) < q + 1)%Q)
      ∧ (∀ c : Z, Num.eqb (Num.Finite (3 # 2)) (Num.ofZ c) = true →
           Z.of_nat (length (matches r)) ≤ c)) (rounds scheduleS1Fractional).
Proof.
  split; [apply stableSort_perm|]. split; [exact scheduleS1Fractional_returned|].
  apply (round_size_within_courts stableSort stableSort_perm playersS1
           (Num.Finite (3 # 2)) singles).
  exact scheduleS1Fractional_returned.
Defined.

Lemma generateSchedule_terminates_witness :
  (∀ cmp l, stableSort (A := MatchCandidate) cmp l ≡ₚ l)
  ∧ (∀ message, generateSchedule stableSort playersS1 (Num.ofZ 1) singles ≠ Thrown message)
  ∧ ∃ s st,
      generateSchedule stableSort playersS1 (Num.ofZ 1) singles = Returned s
      ∧ rounds s = St.rounds st
      ∧ (length (rounds s) ≤ 1000)%nat
      ∧ ∀ fuel, (1000 < fuel)%nat →
          whileLoop stableSort (arrayFromSet playersS1) (Num.ofZ 1) singles fuel
            (initialState (arrayFromSet playersS1) singles) = Some st.
Proof.
  assert (∀ message, generateSchedule stableSort playersS1 (Num.ofZ 1) singles ≠ Thrown message)
    as Hvalid by (intros message; vm_compute; discriminate).
  split; [apply stableSort_perm|]. split; [exact Hvalid|].
  apply (generateSchedule_terminates stableSort stableSort_perm playersS1 (Num.ofZ 1) singles Hvalid).
Defined.

Lemma safety_gate_stops_witness :
  hasUrgentPlayer playersS3 gateState = true
  ∧ canScheduleUrgent playersS3 gateState = false
  ∧ loopIteration stableSort playersS3 (Num.ofZ 1) singles gateState = None.
Proof.
  split; [reflexivity|]. split; [reflexivity|].
  apply (safety_gate_stops stableSort playersS3 (Num.ofZ 1) singles gateState); reflexivity.
Defined.

Lemma five_players_singles_one_court_witness :
  (∀ cmp l, stableSort (A := MatchCandidate) cmp l ≡ₚ l)
  ∧ NoDup ["A"; "B"; "C"; "D"; "E"]
  ∧ ∃ s,
    generateSchedule stableSort ["A"; "B"; "C"; "D"; "E"] (Num.ofZ 1) singles = Returned s
    ∧ Forall (λ r, ∃ m a b,
                matches r = [m] ∧ teamA m = [a] ∧ teamB m = [b] ∧ a ≠ b
                ∧ roundPlayers r = [a; b] ∧ length (resting r) = 3%nat) (rounds s)
    ∧ teamsOf <$> (rounds s ≫= matches)
      ≡ₚ [(["A"], ["B"]); (["A"], ["C"]); (["A"], ["D"]); (["A"], ["E"]);
          (["B"], ["C"]); (["B"], ["D"]); (["B"], ["E"]);
          (["C"], ["D"]); (["C"], ["E"]);
          (["D"], ["E"])]
    ∧ length (rounds s) = 10%nat.
Proof.
  assert (NoDup ["A"; "B"; "C"; "D"; "E"]) as Hnd
    by (apply (bool_decide_unpack _); vm_compute; exact I).
  split; [apply stableSort_perm|]. split; [exact Hnd|].
  apply (five_players_singles_one_court stableSort "A" "B" "C" "D" "E"
           (stableSort_perm (A := MatchCandidate)) Hnd).
Defined.

(** * Further properties *)

(** ** Size of the enumeration *)

Lemma teamsOverlap_true a b :
  teamsOverlap a b = true ↔ ∃ p, p ∈ a ∧ p ∈ b.
Proof.
  unfold teamsOverlap. rewrite existsb_exists. split.
  - intros (p & Hp%list_elem_of_In & Ha%bool_decide_eq_true). eauto.
  - intros (p & Ha & Hb). exists p. split; [by apply list_elem_of_In|].
    by apply bool_decide_eq_true.
Qed.

Lemma teamsOverlap_false a b :
  teamsOverlap a b = false ↔ ∀ p, p ∈ a → p ∉ b.
Proof.
  rewrite <-not_true_iff_false, teamsOverlap_true. naive_solver.
Qed.

Lemma matchesAgainst_length t others next :
  length (matchesAgainst t others next).1
  = length (filter (λ u, teamsOverlap t u = false) others).
Proof.
  revert next. induction others as [|u rest IH]; intros next; [done|].
  cbn [matchesAgainst]. destruct (teamsOverlap t u) eqn:E.
  - rewrite filter_cons_False by (rewrite E; done). apply IH.
  - rewrite filter_cons_True by done.
    specialize (IH (S next)). destruct (matchesAgainst t rest (S next)). simpl in *.
    by rewrite IH.
Qed.

Lemma length_allPairs players :
  (2 * length (allPairs players) = length players * (length players - 1))%nat.
Proof.
  induction players as [|p rest IH]; [done|].
  cbn [allPairs]. rewrite length_app, length_fmap. cbn [length].
  destruct rest; simpl in *; lia.
Qed.

Lemma allPairs_filter (P : string → Prop) `{∀ x, Decision (P x)} players :
  filter (λ t : list string, Forall P t) (allPairs players) = allPairs (filter P players).
Proof.
  induction players as [|p rest IH]; [done|].
  cbn [allPairs]. rewrite filter_app, IH.
  destruct (decide (P p)) as [Hp|Hp].
  - rewrite (filter_cons_True P) by done. cbn [allPairs]. f_equal.
    clear IH. induction rest as [|q rest IH]; [done|].
    rewrite fmap_cons. destruct (decide (P q)).
    + rewrite filter_cons_True by (repeat constructor; done).
      rewrite (filter_cons_True P) by done. by rewrite fmap_cons, IH.
    + rewrite filter_cons_False by (rewrite !Forall_cons; tauto).
      by rewrite (filter_cons_False P) by done.
  - rewrite (filter_cons_False P) by done.
    replace (filter _ ((λ q, [p; q]) <$> rest)) with (@nil (list string)); [done|].
    symmetry. clear IH. induction rest as [|q rest IH]; [done|].
    rewrite fmap_cons, filter_cons_False by (rewrite !Forall_cons; tauto). done.
Qed.

Lemma filter_ext_elem {A} (P Q : A → Prop) `{∀ x, Decision (P x)} `{∀ x, Decision (Q x)}
    (l : list A) :
  (∀ x, x ∈ l → P x ↔ Q x) → filter P l = filter Q l.
Proof.
  induction l as [|a l IH]; intros HPQ; [done|].
  rewrite !filter_cons. rewrite IH by set_solver.
  destruct (decide (P a)), (decide (Q a)); try done; exfalso; set_solver.
Qed.

Lemma filter_none {A} (P : A → Prop) `{∀ x, Decision (P x)} (l : list A) :
  (∀ x, x ∈ l → ¬ P x) → filter P l = [].
Proof.
  induction l as [|a l IH]; intros HP; [done|].
  rewrite filter_cons_False by set_solver. apply IH. set_solver.
Qed.

Lemma generateAllMatches_length teams next :
  length (generateAllMatches teams next).1 = countMatches teams
  ∧ (generateAllMatches teams next).2 = (next + countMatches teams)%nat.
Proof.
  revert next. induction teams as [|t rest IH]; intros next; [simpl; lia|].
  cbn [generateAllMatches countMatches].
  pose proof (matchesAgainst_length t rest next) as H1.
  pose proof (matchesAgainst_spec t rest next) as H2.
  destruct (matchesAgainst t rest next) as [ms1 next1].
  specialize (IH next1). destruct (generateAllMatches rest next1) as [ms2 next2].
  simpl in *. destruct H2 as (_ & -> & _), IH as [IH1 IH2].
  rewrite length_app. lia.
Qed.

Lemma countMatches_singles players :
  NoDup players →
  (2 * countMatches ((λ p, [p]) <$> players) = length players * (length players - 1))%nat.
Proof.
  induction 1 as [|p rest Hp Hnd IH]; [done|].
  rewrite fmap_cons. cbn [countMatches length].
  rewrite filter_all, length_fmap.
  - destruct rest; simpl in *; lia.
  - intros u (q & -> & Hq)%list_elem_of_fmap. apply teamsOverlap_false. set_solver.
Qed.

Lemma length_filter_ne (q : string) rest :
  NoDup rest → q ∈ rest → S (length (filter (λ x, x ≠ q) rest)) = length rest.
Proof.
  induction 1 as [|p rest Hp Hnd IH]; [by intros ?%elem_of_nil|].
  intros [->|Hq]%elem_of_cons.
  - rewrite filter_cons_False by naive_solver.
    rewrite filter_all; [done|]. intros x Hx ->. done.
  - rewrite filter_cons_True by set_solver. simpl. by rewrite IH.
Qed.

Lemma countMatches_pairs p rest qs A :
  NoDup rest → p ∉ rest → A = allPairs rest → qs ⊆ rest →
  (2 * countMatches (((λ q, [p; q]) <$> qs) ++ A)
   = length qs * ((length rest - 1) * (length rest - 2)) + 2 * countMatches A)%nat.
Proof.
  intros Hnd Hp -> Hsub. induction qs as [|q qs IH]; [simpl; lia|].
  rewrite fmap_cons. cbn [app countMatches length].
  assert (q ∈ rest) as Hq by set_solver.
  specialize (IH ltac:(set_solver)).
  rewrite filter_app.
  replace (filter _ ((λ q0, [p; q0]) <$> qs)) with (@nil (list string)).
  2:{ symmetry. clear. induction qs as [|q' qs IH]; [done|].
      rewrite fmap_cons, filter_cons_False; [done|].
      rewrite (proj2 (teamsOverlap_true [p; q] [p; q'])); [done|].
      exists p. set_solver. }
  cbn [app].
  assert (filter (λ u, teamsOverlap [p; q] u = false) (allPairs rest)
          = allPairs (filter (λ x, x ≠ q) rest)) as ->.
  { rewrite <-allPairs_filter. apply filter_ext_elem.
    intros u (a & b & -> & Ha & Hb)%allPairs_elem_of.
    rewrite teamsOverlap_false, !Forall_cons. set_solver. }
  pose proof (length_allPairs (filter (λ x, x ≠ q) rest)) as Hl.
  pose proof (length_filter_ne q rest Hnd Hq) as Hf.
  replace (length (filter (λ x, x ≠ q) rest)) with (length rest - 1)%nat in Hl by lia.
  replace (length rest - 1 - 1)%nat with (length rest - 2)%nat in Hl by lia.
  lia.
Qed.

Lemma countMatches_doubles players :
  NoDup players →
  (8 * countMatches (allPairs players)
   = length players * (length players - 1) * (length players - 2) * (length players - 3))%nat.
Proof.
  induction 1 as [|p rest Hp Hnd IH]; [done|].
  cbn [allPairs length].
  pose proof (countMatches_pairs p rest rest (allPairs rest) Hnd Hp eq_refl ltac:(done)) as H.
  destruct (length rest) as [|[|[|m]]] eqn:E; simpl in *; try lia.
Qed.

Lemma teamsOverlap_sym a b : teamsOverlap a b = teamsOverlap b a.
Proof.
  apply eq_true_iff_eq. rewrite !teamsOverlap_true. naive_solver.
Qed.

Lemma matchesAgainst_meets t others next u :
  NoDup others → u ∈ others → t ∉ others → teamsOverlap t u = false →
  length (filter (meets t u) (matchesAgainst t others next).1) = 1%nat.
Proof.
  intros Hnd Hu Ht Hov. revert next.
  induction Hnd as [|v rest Hv Hnd IH]; intros next; [by apply elem_of_nil in Hu|].
  cbn [matchesAgainst].
  assert (t ≠ v) as Htv by set_solver.
  apply elem_of_cons in Hu as [->|Hu].
  - rewrite Hov.
    pose proof (matchesAgainst_spec t rest (S next)) as Hs.
    destruct (matchesAgainst t rest (S next)) as [ms next']. cbn [fst].
    destruct Hs as (_ & _ & Hs).
    rewrite filter_cons_True by (left; done).
    rewrite (filter_none _ ms); [done|].
    intros m Hm [[_ E]|[E _]].
    + destruct (Hs m Hm) as [_ Hin]. rewrite E in Hin. done.
    + destruct (Hs m Hm) as [E' _]. congruence.
  - assert (u ≠ v) as Huv by (intros ->; done).
    assert (t ≠ u) as Htu by set_solver.
    specialize (IH Hu ltac:(set_solver)).
    destruct (teamsOverlap t v); [apply IH|].
    specialize (IH (S next)).
    destruct (matchesAgainst t rest (S next)) as [ms next']. cbn [fst] in *.
    rewrite filter_cons_False; [done|].
    intros [[_ E]|[E _]]; simpl in E; congruence.
Qed.

Lemma generateAllMatches_meets teams next t u :
  NoDup teams → t ∈ teams → u ∈ teams → t ≠ u → teamsOverlap t u = false →
  length (filter (meets t u) (generateAllMatches teams next).1) = 1%nat.
Proof.
  intros Hnd. revert next.
  induction Hnd as [|t0 rest Ht0 Hnd IH]; intros next Ht Hu Htu Hov;
    [by apply elem_of_nil in Ht|].
  cbn [generateAllMatches].
  pose proof (matchesAgainst_spec t0 rest next) as H1.
  pose proof (λ v, matchesAgainst_meets t0 rest next v Hnd) as H1'.
  destruct (matchesAgainst t0 rest next) as [ms1 next1].
  pose proof (generateAllMatches_spec rest next1) as H2.
  specialize (IH next1).
  destruct (generateAllMatches rest next1) as [ms2 next2].
  cbn [fst] in *. destruct H1 as (_ & _ & H1), H2 as (_ & _ & H2).
  rewrite filter_app, length_app.
  assert (∀ a b, a = t0 → b ∈ rest → teamsOverlap a b = false →
            length (filter (meets a b) ms1) = 1%nat
            ∧ length (filter (meets a b) ms2) = 0%nat) as Hcase.
  { intros a b -> Hb Hab. split; [by apply H1'|].
    rewrite (filter_none _ ms2); [done|].
    intros m Hm [[E _]|[_ E]];
      destruct (H2 m Hm) as [HA HB]; rewrite E in *; done. }
  apply elem_of_cons in Ht as [->|Ht], Hu as [->|Hu]; [done| | |].
  - destruct (Hcase t0 u) as [-> ->]; done.
  - rewrite teamsOverlap_sym in Hov. destruct (Hcase t0 t) as [E1 E2]; [done..|].
    rewrite (list_filter_iff (meets t t0) (meets t0 t) ms1) by (unfold meets; tauto).
    rewrite (list_filter_iff (meets t t0) (meets t0 t) ms2) by (unfold meets; tauto).
    rewrite E1, E2. done.
  - rewrite IH by done.
    rewrite (filter_none _ ms1); [done|].
    intros m Hm [[E _]|[E _]];
      destruct (H1 m Hm) as [HA _]; rewrite E in HA; set_solver.
Qed.

Lemma matchesAgainst_disjoint t others next m :
  m ∈ (matchesAgainst t others next).1 → teamsOverlap (teamA m) (teamB m) = false.
Proof.
  revert next. induction others as [|u rest IH]; intros next; simpl;
    [by intros ?%elem_of_nil|].
  destruct (teamsOverlap t u) eqn:E; [apply IH|].
  specialize (IH (S next)). destruct (matchesAgainst t rest (S next)). simpl in *.
  intros [->|?]%elem_of_cons; [done|auto].
Qed.

Lemma generateAllMatches_disjoint teams next m :
  m ∈ (generateAllMatches teams next).1 → teamsOverlap (teamA m) (teamB m) = false.
Proof.
  revert next. induction teams as [|t rest IH]; intros next; simpl;
    [by intros ?%elem_of_nil|].
  pose proof (matchesAgainst_disjoint t rest next m) as H1.
  destruct (matchesAgainst t rest next) as [ms1 next1].
  specialize (IH next1). destruct (generateAllMatches rest next1). simpl in *.
  intros [?|?]%elem_of_app; auto.
Qed.

Lemma allPairs_elem_of_iff players t :
  NoDup players →
  t ∈ allPairs players ↔
  ∃ i j p q, (i < j)%nat ∧ players !! i = Some p ∧ players !! j = Some q ∧ t = [p; q].
Proof.
  induction 1 as [|x rest Hx Hnd IH]; simpl.
  - split; [by intros ?%elem_of_nil|]. by intros (i & j & p & q & _ & ? & _).
  - rewrite elem_of_app, list_elem_of_fmap, IH. split.
    + intros [(q & -> & (j & Hj)%list_elem_of_lookup)|(i & j & p & q & ? & ? & ? & ->)].
      * exists 0%nat, (S j), x, q. split_and!; [lia|done..].
      * exists (S i), (S j), p, q. split_and!; [lia|done..].
    + intros (i & j & p & q & Hij & Hi & Hj & ->).
      destruct j as [|j]; [lia|]. simpl in Hj.
      destruct i as [|i]; simpl in Hi.
      * left. injection Hi as ->. exists q. split; [done|]. by eapply list_elem_of_lookup_2.
      * right. exists i, j, p, q. split_and!; [lia|done..].
Qed.

Lemma generateTeams_NoDup_sets players matchType :
  NoDup players →
  NoDup ((list_to_set (C := gset string)) <$> generateTeams players matchType).
Proof.
  intros Hnd. destruct matchType; simpl.
  - rewrite <-list_fmap_compose. apply NoDup_fmap_2_strong; [|done].
    intros p q _ _. simpl. intros E.
    assert (p ∈ ({[q]} ∪ ∅ : gset string)) as Hin by (rewrite <-E; set_solver).
    set_solver.
  - induction Hnd as [|x rest Hx Hnd IH]; [constructor|].
    cbn [allPairs]. rewrite fmap_app. apply NoDup_app. split_and!; [| |done].
    + rewrite <-list_fmap_compose. apply NoDup_fmap_2_strong; [|done].
      intros p q Hp Hq. simpl. intros E.
      assert (p ∈ ({[x]} ∪ ({[q]} ∪ ∅) : gset string)) as Hin by (rewrite <-E; set_solver).
      set_solver.
    + intros s (t & -> & (q & -> & Hq)%list_elem_of_fmap)%list_elem_of_fmap.
      intros (t & E & (a & b & -> & Ha & Hb)%allPairs_elem_of)%list_elem_of_fmap.
      assert (x ∈ (list_to_set [a; b] : gset string)) as Hin by (rewrite <-E; set_solver).
      set_solver.
Qed.

Lemma generateTeams_NoDup players matchType :
  NoDup players → NoDup (generateTeams players matchType).
Proof.
  intros Hnd. eapply NoDup_fmap_1. by apply generateTeams_NoDup_sets.
Qed.

(** X1. The teams of a duplicate-free roster of [n] players: [n] teams of
    one player for singles, [n (n - 1) / 2] teams of two different players
    for doubles, the earlier player of the roster first; every player, and
    for doubles every two players, form a team, and no two teams have the
    same players. *)
Theorem generateTeams_enumerates players matchType :
  NoDup players →
  let teams := generateTeams players matchType in
  match matchType with
  | singles =>
      length teams = length players
      ∧ ∀ t, t ∈ teams ↔ ∃ p, p ∈ players ∧ t = [p]
  | doubles =>
      (2 * length teams = length players * (length players - 1))%nat
      ∧ ∀ t, t ∈ teams ↔
             ∃ i j p q, (i < j)%nat ∧ players !! i = Some p ∧ players !! j = Some q
                        ∧ t = [p; q]
  end
  ∧ NoDup ((list_to_set (C := gset string)) <$> teams).
Proof.
  intros Hnd teams. split; [|by apply generateTeams_NoDup_sets].
  subst teams. destruct matchType; simpl.
  - split; [apply length_fmap|]. intros t. rewrite list_elem_of_fmap. naive_solver.
  - split; [apply length_allPairs|]. intros t. by apply allPairs_elem_of_iff.
Qed.

(** X2. The number of matches enumerated for a duplicate-free roster of [n]
    players: [n (n - 1) / 2] for singles and [n (n - 1) (n - 2) (n - 3) / 8]
    for doubles; the enumeration draws exactly one identifier per match. *)
Theorem generateAllMatches_count players matchType next :
  NoDup players →
  let n := length players in
  let result := generateAllMatches (generateTeams players matchType) next in
  result.2 = (next + length result.1)%nat
  ∧ match matchType with
    | singles => (2 * length result.1 = n * (n - 1))%nat
    | doubles => (8 * length result.1 = n * (n - 1) * (n - 2) * (n - 3))%nat
    end.
Proof.
  intros Hnd n result. subst n result.
  destruct (generateAllMatches_length (generateTeams players matchType) next) as [-> ->].
  split; [done|]. destruct matchType; simpl.
  - by apply countMatches_singles.
  - by apply countMatches_doubles.
Qed.

Lemma disjoint_teams_meet players matchType next t u :
  NoDup players →
  t ∈ generateTeams players matchType → u ∈ generateTeams players matchType →
  (∀ p, p ∈ t → p ∉ u) →
  length (filter (meets t u)
            (generateAllMatches (generateTeams players matchType) next).1) = 1%nat.
Proof.
  intros Hnd Ht Hu Hdisj.
  apply generateAllMatches_meets; [by apply generateTeams_NoDup|done..| |].
  - intros ->. apply generateTeams_elem_of in Hu as [Hne _].
    destruct u as [|p ?]; [done|]. apply (Hdisj p); left.
  - by apply teamsOverlap_false.
Qed.

(** X3. Over a duplicate-free roster, every match of the enumeration is
    between two teams of the roster that share no player, and any two such
    teams meet in exactly one match of the enumeration, on one side or the
    other. *)
Theorem generateAllMatches_exactly_once players matchType next :
  NoDup players →
  let teams := generateTeams players matchType in
  let pool := (generateAllMatches teams next).1 in
  (∀ m, m ∈ pool →
     teamA m ∈ teams ∧ teamB m ∈ teams ∧ ∀ p, p ∈ teamA m → p ∉ teamB m)
  ∧ ∀ t u, t ∈ teams → u ∈ teams → (∀ p, p ∈ t → p ∉ u) →
      length (filter (meets t u) pool) = 1%nat.
Proof.
  intros Hnd teams pool. subst pool. split.
  - intros m Hm.
    pose proof (generateAllMatches_spec teams next) as Hs.
    pose proof (generateAllMatches_disjoint teams next m Hm) as Hd.
    destruct (generateAllMatches teams next) as [ms next']. simpl in *.
    destruct Hs as (_ & _ & Hs). destruct (Hs m Hm). split_and!; [done..|].
    by apply teamsOverlap_false.
  - intros t u. by apply disjoint_teams_meet.
Qed.

(** ** The comparator *)

Lemma Qgtb_true x y : Qgtb x y = true ↔ (y < x)%Q.
Proof.
  unfold Qgtb. rewrite negb_true_iff, <-not_true_iff_false, Qle_bool_iff.
  split; [apply Qnot_le_lt|apply Qlt_not_le].
Qed.

Lemma Qgtb_false x y : Qgtb x y = false ↔ (x <= y)%Q.
Proof.
  unfold Qgtb. rewrite negb_false_iff, Qle_bool_iff. done.
Qed.

Lemma compareCandidates_swap playerStats r a b :
  compareCandidates playerStats r b a = - compareCandidates playerStats r a b.
Proof.
  unfold compareCandidates.
  set (ma := maxRoundsSince playerStats r (cPlayers a)).
  set (mb := maxRoundsSince playerStats r (cPlayers b)).
  set (T := restThreshold (size playerStats)).
  set (sa := sumRoundsSince playerStats r (cPlayers a)).
  set (sb := sumRoundsSince playerStats r (cPlayers b)).
  set (na := minRoundsSince playerStats r (cPlayers a)).
  set (nb := minRoundsSince playerStats r (cPlayers b)).
  rewrite (orb_comm (T <=? mb)), (orb_comm (Z.max 1 (T - 1) <=? mb)).
  replace (ma - mb =? 0) with (mb - ma =? 0)
    by (apply eq_true_iff_eq; rewrite !Z.eqb_eq; lia).
  destruct (((T <=? ma) || (T <=? mb)) && negb (mb - ma =? 0)); [lia|].
  destruct (((Z.max 1 (T - 1) <=? ma) || (Z.max 1 (T - 1) <=? mb))
            && negb (mb - ma =? 0)); [lia|].
  replace (sb =? sa) with (sa =? sb) by apply Z.eqb_sym.
  destruct (negb (sa =? sb)); [lia|].
  set (d := (avgRest b - avgRest a)%Q).
  assert (avgRest a - avgRest b == - d)%Q as Ed by (unfold d; ring).
  assert (Qgtb (Qabs (avgRest a - avgRest b)) (3 # 10) = Qgtb (Qabs d) (3 # 10)) as ->.
  { apply eq_true_iff_eq. rewrite !Qgtb_true, Ed, Qabs_opp. done. }
  destruct (Qgtb (Qabs d) (3 # 10)) eqn:Habs.
  - apply Qgtb_true in Habs.
    assert (¬ d == 0)%Q as Hnz.
    { intros E. rewrite E in Habs. vm_compute in Habs. discriminate. }
    destruct (Qgtb d 0) eqn:E1.
    + apply Qgtb_true in E1.
      rewrite (proj2 (Qgtb_false (avgRest a - avgRest b) 0)); [done|].
      rewrite Ed. apply (Qopp_le_compat 0 d). by apply Qlt_le_weak.
    + apply Qgtb_false in E1.
      rewrite (proj2 (Qgtb_true (avgRest a - avgRest b) 0)); [done|].
      rewrite Ed. apply (Qopp_lt_compat d 0). apply Qle_lteq in E1 as [?|?]; done.
  - replace (nb =? na) with (na =? nb) by apply Z.eqb_sym.
    destruct (negb (na =? nb)); lia.
Qed.

(** X4. The comparator of the candidates is antisymmetric: with its
    arguments exchanged it answers the opposite number, and a candidate
    compares equal to itself. *)
Theorem compareCandidates_antisymmetric playerStats r a b :
  compareCandidates playerStats r b a = - compareCandidates playerStats r a b
  ∧ compareCandidates playerStats r a a = 0.
Proof.
  split; [apply compareCandidates_swap|].
  pose proof (compareCandidates_swap playerStats r a a). lia.
Qed.

(** ** The selection fills the courts *)

Lemma hasConflict_true usedPlayers players :
  hasConflict usedPlayers players = true ↔ ∃ p, p ∈ players ∧ p ∈ usedPlayers.
Proof.
  unfold hasConflict. rewrite existsb_exists. split.
  - intros (p & Hp%list_elem_of_In & Hu%bool_decide_eq_true). eauto.
  - intros (p & Hp & Hu). exists p. split; [by apply list_elem_of_In|].
    by apply bool_decide_eq_true.
Qed.

Lemma playersOfMatches_prefix sel sel' p :
  sel `prefix_of` sel' → p ∈ playersOfMatches sel → p ∈ playersOfMatches sel'.
Proof.
  intros [k ->]. unfold playersOfMatches. rewrite bind_app, elem_of_app. auto.
Qed.

Lemma secondPass_maximal courts pool cands sel used :
  Forall (candidateOf pool) cands → Packed courts pool sel used →
  let sel' := (secondPass courts cands sel used).1 in
  Num.geb (Num.ofNat (length sel')) courts = false →
  ∀ c, c ∈ cands →
    cMatch c ∈ sel' ∨ ∃ p, p ∈ getMatchPlayers (cMatch c) ∧ p ∈ playersOfMatches sel'.
Proof.
  intros Hc. revert sel used.
  induction Hc as [|c rest [Hin Hpl] _ IH]; intros sel used HP sel' Hlen c0 Hc0;
    [by apply elem_of_nil in Hc0|].
  subst sel'. cbn [secondPass] in *.
  destruct (Num.geb (Num.ofNat (length sel)) courts) eqn:Hfull.
  { simpl in Hlen. congruence. }
  pose proof (secondPass_prefix courts rest sel used) as Hpre0.
  case_bool_decide as Hincl.
  { apply elem_of_cons in Hc0 as [->|Hc0]; [|by eapply IH].
    left. by eapply elem_of_prefix. }
  destruct (hasConflict used (cPlayers c)) eqn:Hconf.
  { apply elem_of_cons in Hc0 as [->|Hc0]; [|by eapply IH].
    right. apply hasConflict_true in Hconf as (p & Hp & Hu).
    exists p. rewrite <-Hpl. split; [done|].
    eapply playersOfMatches_prefix; [exact Hpre0|].
    rewrite (packed_used _ _ _ _ HP) in Hu. by apply elem_of_list_to_set in Hu. }
  rewrite Hpl in *.
  pose proof (secondPass_prefix courts rest (sel ++ [cMatch c])
                (used ∪ list_to_set (getMatchPlayers (cMatch c)))) as Hpre1.
  apply elem_of_cons in Hc0 as [->|Hc0].
  - left. eapply elem_of_prefix; [|exact Hpre1]. set_solver.
  - eapply IH; [|done..]. by apply Packed_snoc.
Qed.

Section Selection.
Variable sortBy :
  (MatchCandidate → MatchCandidate → Z) → list MatchCandidate → list MatchCandidate.
Hypothesis sortBy_perm : ∀ cmp l, sortBy cmp l ≡ₚ l.

(** X5. [selectRoundMatches] answers no match exactly when there is no
    match to choose from or no court to play on. *)
Theorem selectRoundMatches_empty_iff pool courts playerStats usage lastUsed r :
  selectRoundMatches sortBy pool courts playerStats usage lastUsed r = []
  ↔ pool = [] ∨ Num.geb (Num.ofNat 0) courts = true.
Proof using sortBy_perm.
  split.
  - intros E. destruct (decide (pool = [])) as [|Hne]; [by left|]. right.
    destruct (Num.geb (Num.ofNat 0) courts) eqn:Hc; [done|]. exfalso.
    by apply (selectRoundMatches_nonempty sortBy sortBy_perm pool courts playerStats
                usage lastUsed r Hc Hne).
  - intros [->|Hc]; [done|]. unfold selectRoundMatches.
    destruct (_ || _); [done|].
    set (cands := sortBy _ _).
    assert (∀ T, firstPass courts playerStats r T cands [] ∅ = ([], ∅)) as ->.
    { intros T. destruct cands; [done|]. cbn [firstPass length]. by rewrite Hc. }
    destruct cands; [done|]. cbn [secondPass length]. by rewrite Hc.
Qed.

(** X6. The selection leaves a court empty only when no match of the pool
    could be added: if the selected matches do not reach [courts] (the test
    [selected.length >= courts] fails), every match of the pool is selected
    or has a player in a selected match. *)
Theorem selectRoundMatches_maximal pool courts playerStats usage lastUsed r :
  let selected := selectRoundMatches sortBy pool courts playerStats usage lastUsed r in
  Num.geb (Num.ofNat (length selected)) courts = false →
  (∀ m, m ∈ selected → m ∈ pool)
  ∧ ∀ m, m ∈ pool →
      m ∈ selected ∨ ∃ p, p ∈ getMatchPlayers m ∧ p ∈ playersOfMatches selected.
Proof using sortBy_perm.
  intros selected Hlen.
  destruct (selectRoundMatches_Packed sortBy sortBy_perm pool courts playerStats
              usage lastUsed r) as [used HP].
  split; [apply HP|]. intros m Hm.
  subst selected. unfold selectRoundMatches in *.
  destruct (_ || _) eqn:Hedge.
  { apply orb_true_iff in Hedge as [E|E].
    - apply Z.eqb_eq in E. destruct pool; [by apply elem_of_nil in Hm|simpl in E; lia].
    - apply eqb_zero_geb in E. simpl in Hlen. congruence. }
  set (cands := sortBy _ _) in *.
  assert (Forall (candidateOf pool) cands) as Hcands.
  { apply Forall_forall. intros c (m' & Hm' & ->)%(sorted_candidates sortBy sortBy_perm).
    by split. }
  pose proof (firstPass_Packed courts pool playerStats r
                (restThreshold (size playerStats)) cands [] ∅ Hcands
                (Packed_nil _ _)) as H1.
  destruct (firstPass _ _ _ _ _ _ _) as [sel1 used1]. destruct H1 as [H1 _].
  apply (secondPass_maximal courts pool cands sel1 used1 Hcands H1 Hlen
           (makeCandidate playerStats usage lastUsed r m)).
  apply (sorted_candidates sortBy sortBy_perm). eauto.
Qed.
End Selection.

(** ** What the loop keeps account of *)

Lemma roundsPlayed_snoc rs r p :
  roundsPlayed (rs ++ [r]) p
  = (roundsPlayed rs p + if bool_decide (p ∈ roundPlayers r) then 1 else 0)%nat.
Proof.
  unfold roundsPlayed. rewrite filter_app, length_app. f_equal.
  case_bool_decide; [by rewrite filter_cons_True|by rewrite filter_cons_False].
Qed.

Lemma roundsRested_snoc rs r p :
  roundsRested (rs ++ [r]) p
  = (roundsRested rs p + if bool_decide (p ∈ resting r) then 1 else 0)%nat.
Proof.
  unfold roundsRested. rewrite filter_app, length_app. f_equal.
  case_bool_decide; [by rewrite filter_cons_True|by rewrite filter_cons_False].
Qed.

Lemma generated_wellFormed players matchType next m :
  m ∈ (generateAllMatches (generateTeams players matchType) next).1 →
  wellFormed players matchType m.
Proof.
  intros Hm.
  pose proof (generateAllMatches_spec (generateTeams players matchType) next) as Hs.
  pose proof (generateAllMatches_disjoint (generateTeams players matchType) next m Hm) as Hd.
  destruct (generateAllMatches _ _) as [ms next']. simpl in *.
  destruct Hs as (_ & _ & Hs). destruct (Hs m Hm). by split_and!.
Qed.

Lemma repairPass_from courts missing fresh sel used m :
  m ∈ repairPass courts missing fresh sel used → m ∈ sel ∨ m ∈ fresh.
Proof.
  revert sel used. induction fresh as [|m' rest IH]; intros sel used; simpl; [by left|].
  destruct (Num.geb _ courts); [by left|].
  destruct (existsb _ missing); simpl; [|intros [?|?]%IH; set_solver].
  destruct (hasConflict used (getMatchPlayers m')); [intros [?|?]%IH; set_solver|].
  intros [?|?]%IH; set_solver.
Qed.

Lemma urgencyRepair_from players courts matchType st sel m :
  m ∈ (urgencyRepair players courts matchType st sel).1 →
  m ∈ sel ∨ m ∈ (generateAllMatches (generateTeams players matchType) (St.nextId st)).1.
Proof.
  unfold urgencyRepair. destruct (_ && _); [|by left].
  destruct (generateAllMatches _ _) as [fresh next]. simpl. apply repairPass_from.
Qed.

Section LedgerProofs.
Variable sortBy :
  (MatchCandidate → MatchCandidate → Z) → list MatchCandidate → list MatchCandidate.
Hypothesis sortBy_perm : ∀ cmp l, sortBy cmp l ≡ₚ l.
Variables (players : list Player) (courts : Num.t) (matchType : MatchType).
Hypothesis players_NoDup : NoDup players.
Hypothesis courts_pos : Num.ltb courts (Num.ofZ 1) = false.

Lemma initialState_Ledger : Ledger players matchType (initialState players matchType).
Proof using Type.
  pose proof (initialState_remaining players matchType) as Erem.
  destruct (initialState_rounds players matchType) as [Er Ern].
  split.
  - intros m Hm. left. by rewrite Erem.
  - intros m Hm. by rewrite Erem in Hm.
  - rewrite Er. by intros m ?%elem_of_nil.
  - rewrite Er. by intros r ?%elem_of_nil.
  - rewrite Erem, Ern. unfold initialPool. lia.
  - rewrite Er. intros k r Hk. done.
  - intros p Hp. rewrite Er. unfold initialState.
    destruct (generateAllMatches _ _). simpl. unfold getStats.
    rewrite initialStats_lookup, decide_True by done. done.
Qed.

Lemma loopIteration_Ledger st st' :
  Inv players courts st → Ledger players matchType st →
  loopIteration sortBy players courts matchType st = Some st' →
  Ledger players matchType st'.
Proof using sortBy_perm players_NoDup courts_pos.
  intros HI HL Hstep.
  destruct (loopIteration_round sortBy sortBy_perm players courts matchType
              players_NoDup courts_pos st st' HI Hstep)
    as (rm & used & fresh & Erounds & Erem & Estats & Ern & Hcap & Hne & HP & Hfids
        & Hnext & Hvalid & (m0 & Hm0 & Hm0rem) & _).
  assert (m0 ∈ rm) as Hm0rm by (by eapply list_elem_of_lookup_2).
  assert (∀ m, m ∈ rm → wellFormed players matchType m) as Hshape.
  { destruct (loopIteration_Some _ _ _ _ _ _ Hstep)
      as (rm' & _ & _ & _ & _ & Hsel & _ & _ & Erounds' & _).
    rewrite Erounds in Erounds'. apply app_inj_tail in Erounds' as [_ [= <-]].
    simpl in Hsel.
    destruct (selectRoundMatches_Packed sortBy sortBy_perm (St.remainingMatches st)
                courts (St.playerStats st) (St.teamUsageCount st)
                (St.teamLastUsedRound st) (St.roundNumber st)) as [used0 HP0].
    assert (∀ m, m ∈ selectRoundMatches sortBy (St.remainingMatches st) courts
                       (St.playerStats st) (St.teamUsageCount st)
                       (St.teamLastUsedRound st) (St.roundNumber st) →
                 wellFormed players matchType m) as Hselected.
    { intros m Hm. apply (packed_pool _ _ _ _ HP0) in Hm.
      apply (led_sub _ _ _ HL) in Hm. by eapply generated_wellFormed. }
    intros m Hm. destruct (hasUrgentPlayer players st).
    - assert (m ∈ (urgencyRepair players courts matchType st
                     (selectRoundMatches sortBy (St.remainingMatches st) courts
                        (St.playerStats st) (St.teamUsageCount st)
                        (St.teamLastUsedRound st) (St.roundNumber st))).1) as Hm'
        by (by rewrite <-Hsel).
      apply urgencyRepair_from in Hm' as [?|?]; [by apply Hselected|].
      by eapply generated_wellFormed.
    - injection Hsel as -> _. by apply Hselected. }
  assert (NoDup (matchId <$> (St.remainingMatches st ++ fresh))) as Hids.
  { rewrite fmap_app, Hfids. apply NoDup_app. split_and!; [| |apply NoDup_seq].
    - pose proof (inv_ids _ _ _ HI) as H. by apply NoDup_app in H as (? & _ & _).
    - intros i Hi [Hge _]%elem_of_seq.
      pose proof (inv_fresh _ _ _ HI i) as Hlt. rewrite elem_of_app in Hlt.
      specialize (Hlt (or_introl Hi)). lia. }
  split.
  - intros m Hm. rewrite Erem, Erounds, bind_app, elem_of_app. simpl.
    rewrite app_nil_r.
    destruct (led_pool _ _ _ HL m Hm) as [Hin|Hin]; [|by right; left].
    destruct (decide (matchId m ∈ matchId <$> rm)) as [Hid|Hid].
    + right. right. apply list_elem_of_fmap in Hid as (m' & Eid & Hm').
      assert (m = m') as <-; [|done].
      eapply (NoDup_fmap_elem_inj matchId); [exact Hids| | |done].
      * apply elem_of_app. by left.
      * by apply (packed_pool _ _ _ _ HP).
    + left. by apply list_elem_of_filter.
  - rewrite Erem. intros m [_ Hm]%list_elem_of_filter. by apply (led_sub _ _ _ HL).
  - rewrite Erounds, bind_app. simpl. rewrite app_nil_r.
    intros m [Hm|Hm]%elem_of_app; [by apply (led_shape _ _ _ HL)|by apply Hshape].
  - rewrite Erounds. intros r [Hr| ->%list_elem_of_singleton]%elem_of_app;
      [by apply (led_first _ _ _ HL)|].
    exists m0. split; [done|]. by apply (led_sub _ _ _ HL).
  - rewrite Erem, Ern.
    pose proof (length_filter_lt (λ m, matchId m ∉ matchId <$> rm)
                  (St.remainingMatches st) m0 Hm0rem) as Hlt.
    pose proof (led_count _ _ _ HL).
    specialize (Hlt ltac:(simpl; intros Hn; apply Hn; by apply list_elem_of_fmap_2)).
    lia.
  - rewrite Erounds. intros k r Hk.
    apply lookup_app_Some in Hk as [Hk|[Hge Hk]]; [by apply (led_ids _ _ _ HL)|].
    apply list_lookup_singleton_Some in Hk as [Hk <-]. simpl.
    rewrite (inv_roundNumber _ _ _ HI). split; [|done].
    do 2 f_equal. lia.
  - intros p Hp. rewrite Erounds, Estats, roundsPlayed_snoc, roundsRested_snoc.
    destruct (led_stats _ _ _ HL p Hp) as [Epl Ers].
    assert (getStats (updatePlayerStats players (playingOf rm) (St.roundNumber st)
                        (St.playerStats st)) p
            = if bool_decide (p ∈ playingOf rm)
              then {| playCount := playCount (getStats (St.playerStats st) p) + 1;
                      restCount := restCount (getStats (St.playerStats st) p);
                      lastPlayedRound := St.roundNumber st |}
              else {| playCount := playCount (getStats (St.playerStats st) p);
                      restCount := restCount (getStats (St.playerStats st) p) + 1;
                      lastPlayedRound := lastPlayedRound (getStats (St.playerStats st) p) |})
      as ->.
    { unfold getStats at 1. by rewrite updatePlayerStats_lookup, decide_True by done. }
    simpl.
    unfold roundPlayers. simpl.
    assert (p ∈ playingOf rm ↔ p ∈ playersOfMatches rm) as Hplay
      by (unfold playingOf; apply elem_of_list_to_set).
    destruct (decide (p ∈ playersOfMatches rm)) as [Hin|Hin].
    + rewrite (bool_decide_eq_true_2 (p ∈ playingOf rm)) by (by apply Hplay).
      rewrite (bool_decide_eq_true_2 (p ∈ playersOfMatches rm)) by done.
      rewrite bool_decide_eq_false_2.
      * simpl. lia.
      * rewrite list_elem_of_filter. tauto.
    + rewrite (bool_decide_eq_false_2 (p ∈ playingOf rm)) by (by rewrite Hplay).
      rewrite (bool_decide_eq_false_2 (p ∈ playersOfMatches rm)) by done.
      rewrite bool_decide_eq_true_2.
      * simpl. lia.
      * rewrite list_elem_of_filter. tauto.
Qed.

Lemma iterations_Inv_Ledger k st0 st :
  Inv players courts st0 → Ledger players matchType st0 →
  iterations sortBy players courts matchType k st0 = Some st →
  Inv players courts st ∧ Ledger players matchType st.
Proof using sortBy_perm players_NoDup courts_pos.
  revert st0. induction k as [|k IH]; intros st0 HI HL; simpl; [by intros [= <-]|].
  destruct (loopIteration _ _ _ _ st0) as [st1|] eqn:Hstep; [|done].
  apply IH; [by eapply loopIteration_Inv|by eapply loopIteration_Ledger].
Qed.

Lemma whileLoop_Ledger fuel st st' :
  Inv players courts st → Ledger players matchType st →
  whileLoop sortBy players courts matchType fuel st = Some st' →
  Ledger players matchType st'.
Proof using sortBy_perm players_NoDup courts_pos.
  revert st. induction fuel as [|fuel IH]; intros st HI HL; simpl; [done|].
  destruct (loopIteration _ _ _ _ st) as [st1|] eqn:Hstep.
  - apply IH; [by eapply loopIteration_Inv|by eapply loopIteration_Ledger].
  - by intros [= <-].
Qed.

(** The [break] on an empty round is never taken: a round that is started
    has a match. *)
Lemma loopIteration_stops st :
  Inv players courts st →
  loopIteration sortBy players courts matchType st = None →
  St.remainingMatches st = []
  ∨ maxIterations ≤ St.roundNumber st
  ∨ (hasUrgentPlayer players st = true ∧ canScheduleUrgent players st = false).
Proof using sortBy_perm players_NoDup courts_pos.
  intros HI E.
  destruct (decide (St.remainingMatches st = [])) as [|Hrem]; [by left|].
  apply loopIteration_None in E as [E|[E|[E|E]]]; [by left|by right; left|by right; right|].
  exfalso.
  pose proof (selectRoundMatches_nonempty sortBy sortBy_perm (St.remainingMatches st)
            courts (St.playerStats st) (St.teamUsageCount st)
            (St.teamLastUsedRound st) (St.roundNumber st)
            (accepted_open _ courts_pos) Hrem) as Hsne.
  cbv zeta in E. destruct (hasUrgentPlayer players st); [|done].
  destruct (selectRoundMatches_Packed sortBy sortBy_perm (St.remainingMatches st)
            courts (St.playerStats st) (St.teamUsageCount st)
            (St.teamLastUsedRound st) (St.roundNumber st)) as [used HP].
  destruct (urgencyRepair_spec players courts matchType st _ used HP)
    as (_ & _ & _ & Hpre & _).
  rewrite E in Hpre. by apply prefix_nil_inv in Hpre.
Qed.
End LedgerProofs.

Lemma whileLoop_rounds_prefix sortBy players courts matchType fuel st st' :
  whileLoop sortBy players courts matchType fuel st = Some st' →
  St.rounds st `prefix_of` St.rounds st'.
Proof.
  revert st. induction fuel as [|fuel IH]; intros st; simpl; [done|].
  destruct (loopIteration _ _ _ _ st) as [st1|] eqn:Hstep; [|by intros [= <-]].
  intros Hrun%IH.
  destruct (loopIteration_Some _ _ _ _ _ _ Hstep)
    as (rm & _ & _ & _ & _ & _ & _ & _ & Erounds & _).
  etrans; [|exact Hrun]. rewrite Erounds. by apply prefix_app_r.
Qed.

Lemma initialPool_nonempty players matchType :
  NoDup players → (5 ≤ length players)%nat → initialPool players matchType ≠ [].
Proof.
  intros Hnd Hlen E.
  pose proof (generateAllMatches_length (generateTeams players matchType) 0) as [Hl _].
  fold (initialPool players matchType) in Hl. rewrite E in Hl. simpl in Hl.
  destruct matchType; simpl in Hl.
  - pose proof (countMatches_singles players Hnd) as H. nia.
  - pose proof (countMatches_doubles players Hnd) as H.
    destruct (length players) as [|[|[|[|[|n]]]]]; simpl in *; try lia.
Qed.

Lemma initialPool_length players matchType :
  NoDup players →
  match matchType with
  | singles =>
      (2 * length (initialPool players matchType)
       = length players * (length players - 1))%nat
  | doubles =>
      (8 * length (initialPool players matchType)
       = length players * (length players - 1) * (length players - 2)
         * (length players - 3))%nat
  end.
Proof.
  intros Hnd. unfold initialPool.
  destruct (generateAllMatches_length (generateTeams players matchType) 0) as [-> _].
  destruct matchType; simpl.
  - by apply countMatches_singles.
  - by apply countMatches_doubles.
Qed.

Section Schedules.
Variable sortBy :
  (MatchCandidate → MatchCandidate → Z) → list MatchCandidate → list MatchCandidate.
Hypothesis sortBy_perm : ∀ cmp l, sortBy cmp l ≡ₚ l.

(** A returned schedule is the list of rounds of the state in which the
    loop was left. *)
Lemma generateSchedule_final inputPlayers courts matchType s :
  generateSchedule sortBy inputPlayers courts matchType = Returned s →
  let players := arrayFromSet inputPlayers in
  (5 ≤ length players)%nat ∧ Num.ltb courts (Num.ofZ 1) = false
  ∧ ∃ st,
      whileLoop sortBy players courts matchType (S (Z.to_nat maxIterations))
        (initialState players matchType) = Some st
      ∧ rounds s = St.rounds st
      ∧ Inv players courts st ∧ Ledger players matchType st
      ∧ loopIteration sortBy players courts matchType st = None.
Proof using sortBy_perm.
  intros Hs players.
  pose proof (generateSchedule_validation sortBy inputPlayers courts matchType) as Hv.
  cbv zeta in Hv. fold players in Hv.
  destruct (decide _) as [[Hlen Hc]|_]; [|destruct Hv as [msg Hmsg]; congruence].
  destruct Hv as (st & Hrun & Hret). split_and!; [done..|].
  exists st. rewrite Hs in Hret. injection Hret as ->.
  pose proof (arrayFromSet_NoDup inputPlayers) as Hnd. fold players in Hnd.
  pose proof (initialState_Inv players courts matchType Hnd Hc) as HI0.
  destruct (whileLoop_Inv sortBy sortBy_perm players courts matchType Hnd Hc
              _ _ _ HI0 Hrun) as [HI Hstop].
  split_and!; [done|done|done| |done].
  eapply (whileLoop_Ledger sortBy sortBy_perm players courts matchType Hnd Hc);
    [exact HI0|apply initialState_Ledger; done|exact Hrun].
Qed.

(** The first iteration of the loop always produces a round. *)
Lemma first_iteration players courts matchType :
  NoDup players → (5 ≤ length players)%nat → Num.ltb courts (Num.ofZ 1) = false →
  is_Some (loopIteration sortBy players courts matchType (initialState players matchType)).
Proof using sortBy_perm.
  intros Hnd Hlen Hc.
  pose proof (initialState_Inv players courts matchType Hnd Hc) as HI0.
  pose proof (initialState_remaining players matchType) as Erem.
  destruct (initialState_rounds players matchType) as [Er Ern].
  pose proof (initialPool_nonempty players matchType Hnd Hlen) as Hpool.
  unfold initialPool in Hpool. rewrite <-Erem in Hpool.
  destruct (decide (length players ≤ 7)%nat) as [Hfew|Hmany].
  - apply (loopIteration_progress sortBy sortBy_perm players matchType Hnd Hfew);
      [done..|]. rewrite Ern. done.
  - destruct (loopIteration _ _ _ _ _) eqn:E; [by eexists|]. exfalso.
    apply (loopIteration_stops sortBy sortBy_perm players courts matchType Hnd Hc _ HI0)
      in E as [E|[E|[E _]]]; [done|rewrite Ern in E; unfold maxIterations in E; lia|].
    unfold hasUrgentPlayer in E. apply existsb_exists in E as (p & Hp%list_elem_of_In & Hu).
    unfold isUrgent, maxConsecutiveRests, restThreshold in Hu.
    rewrite (inv_lastPlayed _ _ _ HI0 p Hp), Ern, Er in Hu.
    rewrite (proj2 (Z.leb_gt (Z.of_nat (length players)) 7)) in Hu by lia.
    simpl in Hu. done.
Qed.
End Schedules.

(** ** Urgent players who rest *)

Lemma geb_not_ltb x y : Num.geb x y = true → Num.ltb x y = false.
Proof.
  destruct x, y; unfold Num.ltb, Num.geb; try done. by intros ->.
Qed.

Lemma repairPass_prefix courts missing fresh sel used :
  sel `prefix_of` repairPass courts missing fresh sel used.
Proof.
  revert sel used. induction fresh as [|m rest IH]; intros sel used; simpl; [done|].
  destruct (Num.geb _ courts); [done|]. destruct (existsb _ missing); simpl; [|done].
  destruct (hasConflict _ _); [done|].
  etrans; [|apply IH]. by apply prefix_app_r.
Qed.

(** The repair stops on full courts, or it has looked at every fresh
    match: one that holds a missing urgent player then holds a player of
    the round. *)
Lemma repairPass_complete courts missing fresh sel used :
  used = playingOf sel →
  Num.geb (Num.ofNat (length (repairPass courts missing fresh sel used))) courts = true
  ∨ ∀ m, m ∈ fresh → (∃ u, u ∈ missing ∧ u ∈ getMatchPlayers m) →
      ∃ q, q ∈ getMatchPlayers m
           ∧ q ∈ playersOfMatches (repairPass courts missing fresh sel used).
Proof.
  revert sel used. induction fresh as [|m rest IH]; intros sel used Hused.
  { right. by intros ? ?%elem_of_nil. }
  cbn [repairPass]. destruct (Num.geb (Num.ofNat (length sel)) courts) eqn:Hfull;
    [by left|].
  destruct (existsb _ missing) eqn:Hurgent; cbn [negb].
  - destruct (hasConflict used (getMatchPlayers m)) eqn:Hconf.
    + destruct (IH sel used Hused) as [H|H]; [by left|right].
      intros m' [->|Hm']%elem_of_cons Hex; [|by apply H].
      apply hasConflict_true in Hconf as (q & Hq & Hqu). exists q. split; [done|].
      eapply playersOfMatches_prefix; [apply repairPass_prefix|].
      subst used. by apply elem_of_list_to_set in Hqu.
    + destruct (IH (sel ++ [m]) (used ∪ list_to_set (getMatchPlayers m))) as [H|H];
        [|by left|right].
      { subst used. unfold playingOf.
        by rewrite playersOfMatches_snoc, list_to_set_app_L. }
      intros m' [->|Hm']%elem_of_cons Hex; [|by apply H].
      destruct Hex as (u & _ & Hum). exists u. split; [done|].
      eapply playersOfMatches_prefix; [apply repairPass_prefix|].
      rewrite playersOfMatches_snoc, elem_of_app. by right.
  - destruct (IH sel used Hused) as [H|H]; [by left|right].
    intros m' [->|Hm']%elem_of_cons Hex; [|by apply H].
    destruct Hex as (u & Hu & Hum). exfalso.
    apply not_true_iff_false in Hurgent. apply Hurgent, existsb_exists.
    exists u. split; [by apply list_elem_of_In|by apply bool_decide_eq_true].
Qed.

(** After the repair block, an urgent player who does not play either
    finds the round without fewer than [courts] matches, or is in no fresh
    match that could be added. *)
Lemma urgencyRepair_complete players courts matchType st sel p :
  p ∈ players → isUrgent players st p = true →
  p ∉ playersOfMatches (urgencyRepair players courts matchType st sel).1 →
  Num.ltb (Num.ofNat (length (urgencyRepair players courts matchType st sel).1)) courts
  = false
  ∨ ∀ m, m ∈ (generateAllMatches (generateTeams players matchType) (St.nextId st)).1 →
      p ∈ getMatchPlayers m →
      ∃ q, q ∈ getMatchPlayers m
           ∧ q ∈ playersOfMatches (urgencyRepair players courts matchType st sel).1.
Proof.
  intros Hp Hurgent. unfold urgencyRepair.
  set (missing := filter (λ p, p ∉ playingOf sel) (urgentPlayers players st)).
  assert (p ∉ playersOfMatches sel → p ∈ missing) as Hmissing.
  { intros Hnot. apply list_elem_of_filter. split.
    - intros Hin. by apply elem_of_list_to_set in Hin.
    - apply list_elem_of_filter. split; [by apply Is_true_true|done]. }
  destruct (0 <? Z.of_nat (length missing)) eqn:Hsome; cbn [andb].
  - destruct (Num.ltb (Num.ofNat (length sel)) courts) eqn:Hlt; [|by left].
    destruct (generateAllMatches _ _) as [fresh next]. cbn [fst]. intros Hnot.
    destruct (repairPass_complete courts missing fresh sel (playingOf sel) eq_refl)
      as [H|H]; [left; by apply geb_not_ltb|right].
    intros m Hm Hpm. apply H; [done|]. exists p. split; [|done].
    apply Hmissing. intros Hin. apply Hnot.
    eapply playersOfMatches_prefix; [apply repairPass_prefix|done].
  - cbn [fst]. intros Hnot. specialize (Hmissing Hnot).
    destruct missing; [by apply elem_of_nil in Hmissing|].
    apply Z.ltb_ge in Hsome. cbn [length] in Hsome. lia.
Qed.

(** Two different players of the roster are a team of doubles, in the
    order of the roster. *)
Lemma allPairs_unordered players x y :
  NoDup players → x ∈ players → y ∈ players → x ≠ y →
  ∃ t, t ∈ allPairs players ∧ ∀ z, z ∈ t ↔ z = x ∨ z = y.
Proof.
  intros Hnd [i Hi]%list_elem_of_lookup [j Hj]%list_elem_of_lookup Hxy.
  destruct (decide (i < j)%nat).
  - exists [x; y]. split; [|set_solver].
    apply allPairs_elem_of_iff; [done|]. by exists i, j, x, y.
  - assert (j < i)%nat by (destruct (decide (i = j)); [simplify_eq|lia]).
    exists [y; x]. split; [|set_solver].
    apply allPairs_elem_of_iff; [done|]. by exists j, i, y, x.
Qed.

(** If no two teams with [p] can be formed from players who do not play,
    fewer players rest than a match needs. *)
Lemma few_resting players matchType (playing : list Player) p :
  NoDup players → p ∈ players → p ∉ playing →
  (∀ t u, t ∈ generateTeams players matchType →
          u ∈ generateTeams players matchType →
          (∀ x, x ∈ t → x ∉ u) → p ∈ t ∨ p ∈ u →
          ∃ q, (q ∈ t ∨ q ∈ u) ∧ q ∈ playing) →
  (length (filter (λ q, q ∉ playing) players) < matchSize matchType)%nat.
Proof.
  intros Hnd Hp Hnot Hall.
  set (resting := filter (λ q, q ∉ playing) players).
  assert (NoDup resting) as Hrnd by (by apply NoDup_filter).
  assert (p ∈ resting) as Hpr by (by apply list_elem_of_filter).
  assert (∀ q, q ∈ filter (λ x, x ≠ p) resting → q ≠ p ∧ q ∈ players ∧ q ∉ playing)
    as Hothers.
  { intros q [Hq [? ?]%list_elem_of_filter]%list_elem_of_filter. done. }
  pose proof (length_filter_ne p resting Hrnd Hpr) as Hlen.
  pose proof (NoDup_filter (λ x, x ≠ p) _ Hrnd) as Hond.
  destruct (filter (λ x, x ≠ p) resting) as [|q1 others] eqn:E.
  { destruct matchType; simpl in *; lia. }
  destruct (Hothers q1) as (Hq1 & Hq1p & Hq1r); [left|].
  destruct matchType.
  - exfalso. destruct (Hall [p] [q1]) as (q & Hq & Hplays).
    + apply list_elem_of_fmap. by exists p.
    + apply list_elem_of_fmap. by exists q1.
    + set_solver.
    + left. left.
    + set_solver.
  - destruct others as [|q2 [|q3 others]]; [simpl in *; lia..|]. exfalso.
    destruct (Hothers q2) as (Hq2 & Hq2p & Hq2r); [set_solver|].
    destruct (Hothers q3) as (Hq3 & Hq3p & Hq3r); [set_solver|].
    apply NoDup_cons in Hond as [Hn1 Hond]. apply NoDup_cons in Hond as [Hn2 _].
    destruct (allPairs_unordered players p q1 Hnd Hp Hq1p ltac:(done)) as (t & Ht & Htz).
    destruct (allPairs_unordered players q2 q3 Hnd Hq2p Hq3p ltac:(set_solver))
      as (u & Hu & Huz).
    destruct (Hall t u Ht Hu) as (q & Hq & Hplays).
    + intros x Hx Hx'. apply Htz in Hx. apply Huz in Hx'. set_solver.
    + left. apply Htz. by left.
    + rewrite Htz, Huz in Hq. destruct Hq as [[->| ->]|[->| ->]]; done.
Qed.

Section UrgentPlayers.
Variable sortBy :
  (MatchCandidate → MatchCandidate → Z) → list MatchCandidate → list MatchCandidate.
Hypothesis sortBy_perm : ∀ cmp l, sortBy cmp l ≡ₚ l.

Section Repair.
Variables (players : list Player) (courts : Num.t) (matchType : MatchType).
Hypothesis players_NoDup : NoDup players.
Hypothesis courts_pos : Num.ltb courts (Num.ofZ 1) = false.

Lemma loopIteration_RepairOk st st' :
  Inv players courts st →
  loopIteration sortBy players courts matchType st = Some st' →
  ∃ r, St.rounds st' = St.rounds st ++ [r]
       ∧ RepairOk players courts matchType (St.rounds st) r.
Proof using players_NoDup.
  intros HI Hstep.
  destruct (loopIteration_Some _ _ _ _ _ _ Hstep)
    as (rm & _ & _ & _ & _ & Hsel & _ & _ & Erounds & _).
  eexists. split; [exact Erounds|].
  intros p Hp Hurgent Hnot. unfold roundPlayers in *. cbn [matches] in *.
  apply (isUrgent_urgentAfter players courts st p HI Hp) in Hurgent.
  assert (hasUrgentPlayer players st = true) as Hhas.
  { unfold hasUrgentPlayer. apply existsb_exists. exists p.
    split; [by apply list_elem_of_In|done]. }
  cbv zeta in Hsel. rewrite Hhas in Hsel.
  set (selected := selectRoundMatches _ _ _ _ _ _ _) in Hsel.
  assert (rm = (urgencyRepair players courts matchType st selected).1) as ->
    by (by rewrite <-Hsel).
  destruct (urgencyRepair_complete players courts matchType st selected p Hp Hurgent Hnot)
    as [H|H]; [by left|right].
  intros t u Ht Hu Hdisj Hpt.
  pose proof (disjoint_teams_meet players matchType (St.nextId st) t u
                players_NoDup Ht Hu Hdisj) as Hone.
  destruct (filter (meets t u) _) as [|m ?] eqn:E; [done|].
  assert (m ∈ filter (meets t u)
                (generateAllMatches (generateTeams players matchType) (St.nextId st)).1)
    as [Hmeets Hm]%list_elem_of_filter by (rewrite E; left).
  destruct (H m Hm) as (q & Hq & Hplays).
  - apply getMatchPlayers_elem_of. destruct Hmeets as [[-> ->]|[-> ->]]; tauto.
  - exists q. split; [|done].
    apply getMatchPlayers_elem_of in Hq. destruct Hmeets as [[<- <-]|[<- <-]]; tauto.
Qed.

Lemma loopIteration_Repaired st st' :
  Inv players courts st → Repaired players courts matchType st →
  loopIteration sortBy players courts matchType st = Some st' →
  Repaired players courts matchType st'.
Proof using players_NoDup.
  intros HI HR Hstep.
  destruct (loopIteration_RepairOk st st' HI Hstep) as (r0 & Erounds & Hr0).
  intros k r. rewrite Erounds. intros Hk.
  apply lookup_snoc_Some in Hk as [[Hlt Hk]|[-> <-]].
  - rewrite take_app_le by lia. by apply HR.
  - by rewrite take_app_length.
Qed.

Lemma whileLoop_Repaired fuel st st' :
  Inv players courts st → Repaired players courts matchType st →
  whileLoop sortBy players courts matchType fuel st = Some st' →
  Repaired players courts matchType st'.
Proof using sortBy_perm players_NoDup courts_pos.
  revert st. induction fuel as [|fuel IH]; intros st HI HR; simpl; [done|].
  destruct (loopIteration _ _ _ _ st) as [st1|] eqn:Hstep.
  - apply IH; [by eapply loopIteration_Inv|by eapply loopIteration_Repaired].
  - by intros [= <-].
Qed.
End Repair.

(** C1, as the code has it.  A player is urgent before a round when one
    more resting round brings the player's run of consecutive resting
    rounds to the threshold [T(N)] or beyond.  In every round of a
    returned schedule: if somebody is urgent, an urgent player plays; and
    a player's run stands at [T(N)] or more after the round only if the
    player was urgent and rests in it, and then the round does not have
    fewer than [courts] matches, or no match with the player could be
    added: every two teams of the roster that share no player and include
    the player include somebody who plays in the round, so that fewer
    players rest than a match needs. *)
Theorem resting_run_reaches_threshold inputPlayers courts matchType s :
  generateSchedule sortBy inputPlayers courts matchType = Returned s →
  let players := arrayFromSet inputPlayers in
  let T := restThreshold (length players) in
  ∀ k r, rounds s !! k = Some r →
    ((∃ p, p ∈ players ∧ urgentAfter T (take k (rounds s)) p) →
     ∃ p, p ∈ players ∧ urgentAfter T (take k (rounds s)) p
          ∧ p ∈ roundPlayers r ∧ p ∉ resting r)
    ∧ ∀ p, T ≤ Z.of_nat (restingRun (take (S k) (rounds s)) p) →
        (p ∈ players ∧ urgentAfter T (take k (rounds s)) p ∧ p ∈ resting r)
        ∧ (Num.ltb (Num.ofNat (length (matches r))) courts = false
           ∨ ((∀ t u, t ∈ generateTeams players matchType →
                      u ∈ generateTeams players matchType →
                      (∀ x, x ∈ t → x ∉ u) → p ∈ t ∨ p ∈ u →
                      ∃ q, (q ∈ t ∨ q ∈ u) ∧ q ∈ roundPlayers r)
              ∧ (length (resting r) < matchSize matchType)%nat)).
Proof using sortBy_perm.
  intros Hs players T k r Hk.
  pose proof (arrayFromSet_NoDup inputPlayers) as Hnd. fold players in Hnd.
  pose proof (schedule_RoundOk sortBy sortBy_perm _ _ _ _ _ _ Hs Hk) as Hok.
  fold players in Hok.
  destruct (RoundOk_partition _ _ _ _ Hnd Hok) as [Hdisj _].
  split.
  { intros Hurgent.
    destruct (ok_urgent _ _ _ _ Hok Hurgent) as (p & Hp & Hu & Hplays).
    exists p. split_and!; [done..|]. intros Hrest. by apply (Hdisj p). }
  intros p Hrun.
  rewrite (take_S_r _ _ _ Hk), restingRun_snoc in Hrun.
  assert (1 ≤ T) as HT by (subst T; unfold restThreshold; by destruct (_ <=? 7)).
  case_bool_decide as Hrest; [|simpl in Hrun; lia].
  assert (p ∈ players) as Hp.
  { rewrite (ok_resting _ _ _ _ Hok) in Hrest.
    by apply list_elem_of_filter in Hrest as [_ ?]. }
  assert (urgentAfter T (take k (rounds s)) p) as Hu by (unfold urgentAfter; lia).
  split; [done|].
  destruct (generateSchedule_final sortBy sortBy_perm _ _ _ _ Hs)
    as (_ & Hc & st & Hwhile & Erounds & _).
  fold players in Hwhile.
  assert (Repaired players courts matchType st) as HR.
  { eapply (whileLoop_Repaired players courts matchType Hnd Hc);
      [by apply initialState_Inv| |exact Hwhile].
    intros k0 r0. destruct (initialState_rounds players matchType) as [-> _]. done. }
  rewrite Erounds in Hk. specialize (HR k r Hk). rewrite <-Erounds in HR.
  destruct (HR p Hp Hu (Hdisj p Hrest)) as [Hfull|Hteams]; [by left|right].
  split; [done|]. rewrite (ok_resting _ _ _ _ Hok).
  rewrite (list_filter_iff _ (λ q, q ∉ roundPlayers r)).
  - apply (few_resting players matchType (roundPlayers r) p);
      [done|done|by apply Hdisj|done].
  - intros q. unfold playingOf, roundPlayers. by rewrite elem_of_list_to_set.
Qed.
End UrgentPlayers.

Lemma scheduleEight_returned :
  generateSchedule stableSort playersS3 (Num.ofZ 1) singles = Returned scheduleEight.
Proof. vm_compute. reflexivity. Qed.

Lemma resting_run_reaches_threshold_witness :
  (∀ cmp l, stableSort (A := MatchCandidate) cmp l ≡ₚ l)
  ∧ generateSchedule stableSort playersS3 (Num.ofZ 1) singles = Returned scheduleEight
  ∧ ∃ r, rounds scheduleEight !! 1%nat = Some r
    ∧ restThreshold (length (arrayFromSet playersS3)) = 2
    ∧ restingRun (take 2 (rounds scheduleEight)) "E" = 2%nat
    ∧ ((∃ p, p ∈ arrayFromSet playersS3
             ∧ urgentAfter 2 (take 1 (rounds scheduleEight)) p) →
       ∃ p, p ∈ arrayFromSet playersS3
            ∧ urgentAfter 2 (take 1 (rounds scheduleEight)) p
            ∧ p ∈ roundPlayers r ∧ p ∉ resting r)
    ∧ ("E" ∈ arrayFromSet playersS3
       ∧ urgentAfter 2 (take 1 (rounds scheduleEight)) "E" ∧ "E" ∈ resting r)
    ∧ (Num.ltb (Num.ofNat (length (matches r))) (Num.ofZ 1) = false
       ∨ ((∀ t u, t ∈ generateTeams (arrayFromSet playersS3) singles →
                  u ∈ generateTeams (arrayFromSet playersS3) singles →
                  (∀ x, x ∈ t → x ∉ u) → "E" ∈ t ∨ "E" ∈ u →
                  ∃ q, (q ∈ t ∨ q ∈ u) ∧ q ∈ roundPlayers r)
          ∧ (length (resting r) < matchSize singles)%nat)).
Proof.
  split; [apply stableSort_perm|]. split; [exact scheduleEight_returned|].
  eexists. split; [reflexivity|]. split; [reflexivity|]. split; [reflexivity|].
  destruct (resting_run_reaches_threshold stableSort stableSort_perm playersS3
              (Num.ofZ 1) singles scheduleEight scheduleEight_returned 1%nat _ eq_refl)
    as [Hserved Hrun].
  split; [exact Hserved|]. apply (Hrun "E"). vm_compute. discriminate.
Defined.

Section ScheduleFacts.
Variable sortBy :
  (MatchCandidate → MatchCandidate → Z) → list MatchCandidate → list MatchCandidate.
Hypothesis sortBy_perm : ∀ cmp l, sortBy cmp l ≡ₚ l.

(** X7. The rounds of a returned schedule are numbered in order: the round
    at index [k] has the identifier "r" followed by [k + 1], so no two
    rounds share an identifier; and no round is marked completed. *)
Theorem rounds_numbered inputPlayers courts matchType s :
  generateSchedule sortBy inputPlayers courts matchType = Returned s →
  (∀ k r, rounds s !! k = Some r →
     roundId r = "r" +:+ pretty (Z.of_nat k + 1) ∧ completed r = false)
  ∧ NoDup (roundId <$> rounds s).
Proof using sortBy_perm.
  intros (_ & _ & st & _ & -> & _ & HL & _)%(generateSchedule_final sortBy sortBy_perm).
  pose proof (led_ids _ _ _ HL) as Hids. split; [done|].
  apply NoDup_alt. intros i j x.
  rewrite !list_lookup_fmap.
  destruct (St.rounds st !! i) as [ri|] eqn:Ei; [|done].
  destruct (St.rounds st !! j) as [rj|] eqn:Ej; [|done]. simpl.
  intros [= <-] [= E].
  destruct (Hids i ri Ei) as [E1 _], (Hids j rj Ej) as [E2 _].
  rewrite E1, E2 in E. injection E as E. apply pretty_Z_inj in E. lia.
Qed.

(** X8. Every round of a returned schedule starts with a match of the
    initial enumeration, and there are at most as many rounds as matches
    in it: [n (n - 1) / 2] for singles and [n (n - 1) (n - 2) (n - 3) / 8]
    for doubles, on [n] players. *)
Theorem rounds_bounded_by_pool inputPlayers courts matchType s :
  generateSchedule sortBy inputPlayers courts matchType = Returned s →
  let players := arrayFromSet inputPlayers in
  let n := length players in
  Forall (λ r, ∃ m, matches r !! 0%nat = Some m ∧ m ∈ initialPool players matchType)
    (rounds s)
  ∧ (length (rounds s) ≤ length (initialPool players matchType))%nat
  ∧ match matchType with
    | singles => (2 * length (rounds s) ≤ n * (n - 1))%nat
    | doubles => (8 * length (rounds s) ≤ n * (n - 1) * (n - 2) * (n - 3))%nat
    end.
Proof using sortBy_perm.
  intros (_ & _ & st & _ & -> & HI & HL & _)%(generateSchedule_final sortBy sortBy_perm) players n.
  split; [apply Forall_forall, (led_first _ _ _ HL)|].
  pose proof (led_count _ _ _ HL) as Hc. rewrite (inv_roundNumber _ _ _ HI) in Hc.
  fold players in Hc.
  assert (length (St.rounds st) ≤ length (initialPool players matchType))%nat as Hle by lia.
  split; [done|].
  pose proof (initialPool_length players matchType (arrayFromSet_NoDup inputPlayers)) as Hn.
  fold n in Hn. destruct matchType; lia.
Qed.

(** X9. Why a schedule ends.  A returned schedule holds every match of the
    initial enumeration, or it has 1000 rounds, or the safety gate closed:
    some player is urgent after the last round and no match that is left
    holds an urgent player.  (The loop never stops on a round without
    matches.) *)
Theorem schedule_ends inputPlayers courts matchType s :
  generateSchedule sortBy inputPlayers courts matchType = Returned s →
  let players := arrayFromSet inputPlayers in
  let threshold := restThreshold (length players) in
  (∀ m, m ∈ initialPool players matchType → m ∈ rounds s ≫= matches)
  ∨ length (rounds s) = 1000%nat
  ∨ ((∃ p, p ∈ players ∧ urgentAfter threshold (rounds s) p)
     ∧ ∀ m p, m ∈ initialPool players matchType → m ∉ rounds s ≫= matches →
         p ∈ players → urgentAfter threshold (rounds s) p →
         p ∉ getMatchPlayers m).
Proof using sortBy_perm.
  intros (_ & Hc & st & _ & -> & HI & HL & Hstop)%(generateSchedule_final sortBy sortBy_perm) players threshold.
  pose proof (arrayFromSet_NoDup inputPlayers) as Hnd. fold players in Hnd, HI, HL, Hstop.
  apply (loopIteration_stops sortBy sortBy_perm players courts matchType Hnd Hc st HI)
    in Hstop as [Hempty|[Hcap|[Hurgent Hcannot]]].
  - left. intros m Hm. destruct (led_pool _ _ _ HL m Hm) as [Hin|Hin]; [|done].
    rewrite Hempty in Hin. by apply elem_of_nil in Hin.
  - right. left. pose proof (inv_cap _ _ _ HI) as Hle.
    rewrite (inv_roundNumber _ _ _ HI) in Hcap, Hle. unfold maxIterations in *. lia.
  - right. right. split.
    + unfold hasUrgentPlayer in Hurgent.
      apply existsb_exists in Hurgent as (p & Hp%list_elem_of_In & Hu).
      exists p. split; [done|].
      by apply (isUrgent_urgentAfter players courts st p HI Hp).
    + intros m p Hm Hnot Hp Hu Hin.
      destruct (led_pool _ _ _ HL m Hm) as [Hrem|?]; [|done].
      apply (isUrgent_urgentAfter players courts st p HI Hp) in Hu.
      apply not_true_iff_false in Hcannot. apply Hcannot.
      unfold canScheduleUrgent. apply existsb_exists. exists m.
      split; [by apply list_elem_of_In|]. apply existsb_exists. exists p. split.
      * apply list_elem_of_In. unfold urgentPlayers. apply list_elem_of_filter.
        split; [by apply Is_true_true|done].
      * by apply bool_decide_eq_true.
Qed.

(** X10. With at most seven players the schedule is complete: every match
    of the initial enumeration is in a round, so any two teams without a
    common player meet in some round. *)
Theorem small_roster_complete inputPlayers courts matchType s :
  generateSchedule sortBy inputPlayers courts matchType = Returned s →
  let players := arrayFromSet inputPlayers in
  (length players ≤ 7)%nat →
  (∀ m, m ∈ initialPool players matchType → m ∈ rounds s ≫= matches)
  ∧ ∀ t u, t ∈ generateTeams players matchType → u ∈ generateTeams players matchType →
      (∀ p, p ∈ t → p ∉ u) →
      ∃ m, m ∈ rounds s ≫= matches ∧ meets t u m.
Proof using sortBy_perm.
  intros (_ & Hc & st & _ & -> & HI & HL & Hstop)%(generateSchedule_final sortBy sortBy_perm) players Hfew.
  pose proof (arrayFromSet_NoDup inputPlayers) as Hnd. fold players in Hnd, HI, HL, Hstop.
  assert (∀ m, m ∈ initialPool players matchType → m ∈ St.rounds st ≫= matches) as Hall.
  { intros m Hm. destruct (led_pool _ _ _ HL m Hm) as [Hin|Hin]; [|done]. exfalso.
    assert (St.remainingMatches st ≠ []) as Hrem
      by (intros E; rewrite E in Hin; by apply elem_of_nil in Hin).
    assert (St.roundNumber st < maxIterations) as Hcap.
    { pose proof (led_count _ _ _ HL) as Hcount.
      pose proof (initialPool_length players matchType Hnd) as Hn.
      unfold maxIterations.
      assert (length players = 0 ∨ length players = 1 ∨ length players = 2
              ∨ length players = 3 ∨ length players = 4 ∨ length players = 5
              ∨ length players = 6 ∨ length players = 7)%nat as Hcases by lia.
      destruct matchType;
        destruct Hcases as [E|[E|[E|[E|[E|[E|[E|E]]]]]]]; rewrite E in Hn;
        simpl in Hn; lia. }
    destruct (loopIteration_progress sortBy sortBy_perm players matchType Hnd Hfew
                courts st Hc HI Hrem Hcap) as [st' E].
    congruence. }
  split; [done|]. intros t u Ht Hu Hdisj.
  pose proof (disjoint_teams_meet players matchType 0 t u Hnd Ht Hu Hdisj) as Honce.
  fold (initialPool players matchType) in Honce.
  destruct (filter (meets t u) (initialPool players matchType)) as [|m ?] eqn:E; [done|].
  assert (m ∈ filter (meets t u) (initialPool players matchType)) as Hm
    by (rewrite E; left).
  apply list_elem_of_filter in Hm as [Hmeets Hm]. exists m. auto.
Qed.

(** X11. A returned schedule has at least one round. *)
Theorem schedule_nonempty inputPlayers courts matchType s :
  generateSchedule sortBy inputPlayers courts matchType = Returned s →
  rounds s ≠ [].
Proof using sortBy_perm.
  intros (Hlen & Hc & st & Hrun & -> & _)%(generateSchedule_final sortBy sortBy_perm).
  pose proof (arrayFromSet_NoDup inputPlayers) as Hnd.
  destruct (first_iteration sortBy sortBy_perm _ courts matchType Hnd Hlen Hc)
    as [st1 Hstep].
  cbn [whileLoop] in Hrun. rewrite Hstep in Hrun.
  apply whileLoop_rounds_prefix in Hrun.
  destruct (loopIteration_Some _ _ _ _ _ _ Hstep)
    as (rm & _ & _ & _ & _ & _ & _ & _ & Erounds & _).
  rewrite Erounds in Hrun. intros E. rewrite E in Hrun.
  apply prefix_nil_inv in Hrun. by destruct (St.rounds _).
Qed.

(** X12. Repeated names in the input change nothing: when at least five
    different names are given, the call answers what it answers on the
    list without the repetitions. *)
Theorem duplicates_ignored inputPlayers courts matchType :
  (5 ≤ length (arrayFromSet inputPlayers))%nat →
  generateSchedule sortBy inputPlayers courts matchType
  = generateSchedule sortBy (arrayFromSet inputPlayers) courts matchType.
Proof using Type.
  intros Hlen. unfold generateSchedule.
  rewrite (arrayFromSet_id (arrayFromSet inputPlayers)) by apply arrayFromSet_NoDup.
  rewrite (proj2 (Nat.ltb_ge (length (arrayFromSet inputPlayers)) 5)) by done.
  by rewrite !andb_false_r.
Qed.
End ScheduleFacts.

Lemma roundsPlayed_roundsRested rs p :
  (∀ r, r ∈ rs → p ∈ resting r ↔ p ∉ roundPlayers r) →
  (roundsPlayed rs p + roundsRested rs p = length rs)%nat.
Proof.
  unfold roundsPlayed, roundsRested.
  induction rs as [|r rs IH]; intros H; [done|].
  specialize (IH ltac:(set_solver)). rewrite !filter_cons. simpl.
  pose proof (H r ltac:(left)) as Hr.
  destruct (decide (p ∈ roundPlayers r)), (decide (p ∈ resting r)); simpl; try lia; tauto.
Qed.

(** X13. The player statistics are a ledger of the rounds.  At the top of
    the iteration that follows [k] rounds, every player of the roster has
    an entry; its [playCount] is the number of rounds the player played,
    its [restCount] the number of rounds the player rested, the two add up
    to [k], and [lastPlayedRound] is the index of the last round played,
    [-1] when there is none. *)
Theorem playerStats_account sortBy players courts matchType k st :
  (∀ cmp l, sortBy cmp l ≡ₚ l) → NoDup players →
  Num.ltb courts (Num.ofZ 1) = false →
  iterations sortBy players courts matchType k (initialState players matchType) = Some st →
  length (St.rounds st) = k ∧ St.roundNumber st = Z.of_nat k
  ∧ dom (St.playerStats st) = list_to_set players
  ∧ ∀ p, p ∈ players →
      ∃ stats, St.playerStats st !! p = Some stats
        ∧ playCount stats = Z.of_nat (roundsPlayed (St.rounds st) p)
        ∧ restCount stats = Z.of_nat (roundsRested (St.rounds st) p)
        ∧ playCount stats + restCount stats = Z.of_nat k
        ∧ lastPlayedRound stats = Z.of_nat k - 1 - Z.of_nat (restingRun (St.rounds st) p).
Proof.
  intros sortBy_perm Hnd Hc Hk.
  pose proof (initialState_Inv players courts matchType Hnd Hc) as HI0.
  pose proof (initialState_Ledger players matchType) as HL0.
  destruct (iterations_Inv_Ledger sortBy sortBy_perm players courts matchType Hnd Hc
              k _ st HI0 HL0 Hk) as [HI HL].
  destruct (iterations_roundNumber _ _ _ _ _ _ _ Hk) as [Hrn _].
  destruct (initialState_rounds players matchType) as [_ Ern0]. rewrite Ern0 in Hrn.
  pose proof (inv_roundNumber _ _ _ HI) as Hlen.
  assert (length (St.rounds st) = k) as Ek by lia.
  split_and!; [done|lia|apply HI|].
  intros p Hp.
  assert (is_Some (St.playerStats st !! p)) as [stats Hstats].
  { apply elem_of_dom. rewrite (inv_stats _ _ _ HI). by apply elem_of_list_to_set. }
  exists stats. split; [done|].
  destruct (led_stats _ _ _ HL p Hp) as [Epl Ers].
  pose proof (inv_lastPlayed _ _ _ HI p Hp) as Elast.
  unfold getStats in Epl, Ers, Elast. rewrite Hstats in Epl, Ers, Elast. simpl in *.
  split_and!; [done|done| |by rewrite Elast, Ek].
  rewrite Epl, Ers, <-Ek, <-(roundsPlayed_roundsRested (St.rounds st) p); [lia|].
  intros r [i Hi]%list_elem_of_lookup.
  pose proof (inv_rounds _ _ _ HI i r Hi) as Hok.
  destruct (RoundOk_partition _ _ _ _ Hnd Hok) as [Hdisj Hperm].
  split; [apply Hdisj|]. intros Hnot.
  assert (p ∈ resting r ++ roundPlayers r) as Hin by (by rewrite Hperm).
  apply elem_of_app in Hin as [?|?]; done.
Qed.

Lemma wellFormed_shape players matchType m :
  NoDup players → wellFormed players matchType m →
  match matchType with
  | singles =>
      ∃ a b, teamA m = [a] ∧ teamB m = [b] ∧ NoDup [a; b]
             ∧ (∀ p, p ∈ [a; b] → p ∈ players) ∧ getMatchPlayers m = [a; b]
  | doubles =>
      ∃ a b c d, teamA m = [a; b] ∧ teamB m = [c; d] ∧ NoDup [a; b; c; d]
                 ∧ (∀ p, p ∈ [a; b; c; d] → p ∈ players)
                 ∧ getMatchPlayers m = [a; b; c; d]
  end.
Proof.
  intros Hnd (HA & HB & Hov). rewrite teamsOverlap_false in Hov.
  unfold getMatchPlayers. destruct matchType; simpl in HA, HB.
  - apply list_elem_of_fmap in HA as (a & EA & Ha), HB as (b & EB & Hb).
    rewrite EA, EB in *. exists a, b.
    assert (NoDup [a; b]) as Hab.
    { apply NoDup_cons. split; [|apply NoDup_singleton].
      intros ->%list_elem_of_singleton. apply (Hov b); left. }
    split_and!; [done..|set_solver|by apply arrayFromSet_id].
  - apply (allPairs_elem_of_iff _ _ Hnd) in HA as (i & j & a & b & Hij & Hi & Hj & EA).
    apply (allPairs_elem_of_iff _ _ Hnd) in HB as (i' & j' & c & d & Hij' & Hi' & Hj' & EB).
    rewrite EA, EB in *. exists a, b, c, d.
    assert (a ≠ b) as Hab.
    { intros ->. assert (i = j) by (by eapply NoDup_lookup). lia. }
    assert (c ≠ d) as Hcd.
    { intros ->. assert (i' = j') by (by eapply NoDup_lookup). lia. }
    assert (NoDup [a; b; c; d]) as Hall.
    { pose proof (Hov a). pose proof (Hov b).
      repeat (apply NoDup_cons; split); [set_solver..|constructor]. }
    split_and!; [done..| |by apply (arrayFromSet_id [a; b; c; d])].
    intros p Hp.
    assert (p = a ∨ p = b ∨ p = c ∨ p = d) as Hcases by set_solver.
    destruct Hcases as [E|[E|[E|E]]]; rewrite E; by eapply list_elem_of_lookup_2.
Qed.

Section ScheduleShape.
Variable sortBy :
  (MatchCandidate → MatchCandidate → Z) → list MatchCandidate → list MatchCandidate.
Hypothesis sortBy_perm : ∀ cmp l, sortBy cmp l ≡ₚ l.

(** X14. Every match of a returned schedule, the ones added by the urgency
    repair included, is well formed: for singles, one player against a
    different player; for doubles, two players against two players, the
    four of them different; all of them players of the roster. *)
Theorem scheduled_matches_shape inputPlayers courts matchType s :
  generateSchedule sortBy inputPlayers courts matchType = Returned s →
  ∀ m, m ∈ rounds s ≫= matches →
    match matchType with
    | singles =>
        ∃ a b, teamA m = [a] ∧ teamB m = [b] ∧ NoDup [a; b]
               ∧ (∀ p, p ∈ [a; b] → p ∈ arrayFromSet inputPlayers)
               ∧ getMatchPlayers m = [a; b]
    | doubles =>
        ∃ a b c d, teamA m = [a; b] ∧ teamB m = [c; d] ∧ NoDup [a; b; c; d]
                   ∧ (∀ p, p ∈ [a; b; c; d] → p ∈ arrayFromSet inputPlayers)
                   ∧ getMatchPlayers m = [a; b; c; d]
    end.
Proof using sortBy_perm.
  intros (_ & _ & st & _ & -> & _ & HL & _)%(generateSchedule_final sortBy sortBy_perm) m Hm.
  apply wellFormed_shape; [apply arrayFromSet_NoDup|]. by apply (led_shape _ _ _ HL).
Qed.

(** X15. The size of a round.  In a returned schedule a round of [k]
    matches has [2 k] players playing for singles and [4 k] for doubles,
    and everybody else on the roster resting; so a round never has more
    matches than the roster fills, however many courts there are. *)
Theorem round_sizes inputPlayers courts matchType s :
  generateSchedule sortBy inputPlayers courts matchType = Returned s →
  let perMatch := match matchType with singles => 2%nat | doubles => 4%nat end in
  Forall (λ r,
    length (roundPlayers r) = (perMatch * length (matches r))%nat
    ∧ (length (resting r) + perMatch * length (matches r)
       = length (arrayFromSet inputPlayers))%nat) (rounds s).
Proof using sortBy_perm.
  intros (_ & _ & st & _ & -> & HI & HL & _)%(generateSchedule_final sortBy sortBy_perm)
         perMatch.
  pose proof (arrayFromSet_NoDup inputPlayers) as Hnd.
  apply Forall_forall. intros r Hr.
  assert (length (roundPlayers r) = (perMatch * length (matches r))%nat) as Hlen.
  { assert (∀ m, m ∈ matches r → length (getMatchPlayers m) = perMatch) as Hm.
    { intros m Hm.
      assert (m ∈ St.rounds st ≫= matches) as Hin by (apply list_elem_of_bind; eauto).
      apply (led_shape _ _ _ HL), (wellFormed_shape _ _ _ Hnd) in Hin.
      subst perMatch. destruct matchType.
      - destruct Hin as (a & b & _ & _ & _ & _ & ->). done.
      - destruct Hin as (a & b & c & d & _ & _ & _ & _ & ->). done. }
    unfold roundPlayers, playersOfMatches. clear -Hm.
    induction (matches r) as [|m ms IH]; [simpl; lia|].
    rewrite bind_cons, length_app, IH, Hm by set_solver. simpl. lia. }
  split; [done|]. rewrite <-Hlen, <-length_app.
  apply list_elem_of_lookup in Hr as [k Hk].
  destruct (RoundOk_partition _ _ _ _ Hnd (inv_rounds _ _ _ HI k r Hk)) as [_ Hperm].
  by rewrite Hperm.
Qed.

(** X16. The warning [large_n; fallback_to_greedy] is given exactly when the
    roster has more than 16 players; otherwise there is no warning. *)
Theorem large_roster_warning inputPlayers courts matchType s :
  generateSchedule sortBy inputPlayers courts matchType = Returned s →
  warning s = if decide (16 < length (arrayFromSet inputPlayers))%nat
              then Some "large_n; fallback_to_greedy" else None.
Proof using Type.
  intros Hs.
  pose proof (generateSchedule_validation sortBy inputPlayers courts matchType) as Hv.
  cbv zeta in Hv.
  destruct (decide _) as [_|_]; [|destruct Hv as [msg Hmsg]; congruence].
  destruct Hv as (st & _ & Hret). rewrite Hs in Hret. injection Hret as ->. simpl.
  destruct (decide _) as [H|H].
  - by rewrite (proj2 (Nat.ltb_lt _ _) H).
  - rewrite (proj2 (Nat.ltb_ge _ _)); [done|lia].
Qed.
End ScheduleShape.

(** ** The checks of the test-suite: [validateSchedule] *)

Lemma checkPlayer_spec i errors seen ps :
  ∃ extra,
    foldl (checkPlayer i) (errors, seen) ps = (errors ++ extra, seen ∪ list_to_set ps)
    ∧ (extra = [] ↔ NoDup ps ∧ ∀ p, p ∈ ps → p ∉ seen).
Proof.
  revert errors seen. induction ps as [|p ps IH]; intros errors seen.
  - exists []. simpl. rewrite app_nil_r, union_empty_r_L. split; [done|].
    split; [|done]. intros _. split; [constructor|by intros ? ?%elem_of_nil].
  - cbn [foldl checkPlayer]. case_bool_decide as Hp.
    + destruct (IH (errors ++ ["Round " +:+ pretty (i + 1)%nat +:+ ": Player "
                     +:+ doubleQuote +:+ p +:+ doubleQuote
                     +:+ " appears multiple times"]) (seen ∪ {[p]}))
        as (extra & -> & _).
      eexists. rewrite <-app_assoc. split.
      * f_equal. set_solver.
      * split; [done|]. intros [_ H]. exfalso. apply (H p); [left|done].
    + destruct (IH errors (seen ∪ {[p]})) as (extra & -> & Hextra).
      exists extra. split; [f_equal; set_solver|].
      rewrite Hextra, NoDup_cons. set_solver.
Qed.

Lemma checkMatch_spec i errors seenP seenI ms :
  ∃ extra,
    foldl (checkMatch i) (errors, seenP, seenI) ms
    = (errors ++ extra, seenP ∪ list_to_set (playersOfMatches ms),
       seenI ∪ list_to_set (matchId <$> ms))
    ∧ (extra = [] ↔
       (NoDup (playersOfMatches ms) ∧ ∀ p, p ∈ playersOfMatches ms → p ∉ seenP)
       ∧ NoDup (matchId <$> ms) ∧ ∀ k, k ∈ matchId <$> ms → k ∉ seenI).
Proof.
  revert errors seenP seenI. induction ms as [|m ms IH]; intros errors seenP seenI.
  - exists []. simpl. rewrite app_nil_r, !union_empty_r_L. split; [done|].
    split; [|done]. intros _.
    split_and!; [constructor|by intros ? ?%elem_of_nil|constructor
                |by intros ? ?%elem_of_nil].
  - cbn [foldl checkMatch].
    destruct (checkPlayer_spec i errors seenP (getMatchPlayers m)) as (e1 & -> & He1).
    set (e2 := if bool_decide (matchId m ∈ seenI)
               then ["Duplicate match ID: " +:+ pretty (matchId m)] else []).
    assert ((if bool_decide (matchId m ∈ seenI)
             then (errors ++ e1) ++ ["Duplicate match ID: " +:+ pretty (matchId m)]
             else errors ++ e1) = errors ++ (e1 ++ e2)) as ->.
    { unfold e2. case_bool_decide; [by rewrite app_assoc|by rewrite app_nil_r]. }
    destruct (IH (errors ++ (e1 ++ e2)) (seenP ∪ list_to_set (getMatchPlayers m))
                (seenI ∪ {[matchId m]})) as (e3 & -> & He3).
    exists ((e1 ++ e2) ++ e3). split.
    + rewrite <-app_assoc. f_equal; [f_equal|].
      * unfold playersOfMatches. rewrite bind_cons, list_to_set_app_L. set_solver.
      * rewrite fmap_cons. set_solver.
    + assert (e2 = [] ↔ matchId m ∉ seenI) as He2
        by (unfold e2; case_bool_decide; split; done).
      assert ((e1 ++ e2) ++ e3 = [] ↔ e1 = [] ∧ e2 = [] ∧ e3 = []) as ->.
      { destruct e1, e2, e3; simpl; split; try done; intros (? & ? & ?); done. }
      rewrite He1, He2, He3. unfold playersOfMatches.
      rewrite bind_cons, fmap_cons, NoDup_app, NoDup_cons.
      fold (playersOfMatches ms).
      pose proof (getMatchPlayers_NoDup m). set_solver.
Qed.

Lemma checkRounds_spec i rounds errors seenI :
  ∃ extra seenI',
    checkRounds i rounds (errors, seenI) = (errors ++ extra, seenI')
    ∧ (extra = [] ↔
       Forall (λ r, NoDup (roundPlayers r)) rounds
       ∧ NoDup (scheduledIds rounds) ∧ ∀ k, k ∈ scheduledIds rounds → k ∉ seenI).
Proof.
  revert i errors seenI. induction rounds as [|r rounds IH]; intros i errors seenI.
  - exists [], seenI. simpl. rewrite app_nil_r. split; [done|].
    split; [|done]. intros _.
    split_and!; [constructor|constructor|by intros ? ?%elem_of_nil].
  - cbn [checkRounds].
    destruct (checkMatch_spec i errors ∅ seenI (matches r)) as (e1 & -> & He1).
    destruct (IH (S i) (errors ++ e1) (seenI ∪ list_to_set (matchId <$> matches r)))
      as (e2 & seenI' & -> & He2).
    exists (e1 ++ e2), seenI'. split; [by rewrite app_assoc|].
    assert (e1 ++ e2 = [] ↔ e1 = [] ∧ e2 = []) as ->.
    { destruct e1, e2; simpl; split; try done; intros (? & ?); done. }
    rewrite He1, He2, Forall_cons. unfold scheduledIds, roundPlayers.
    rewrite bind_cons, NoDup_app. fold (scheduledIds rounds).
    set_solver.
Qed.

Lemma validateSchedule_errors rounds :
  ∃ errs,
    validateSchedule rounds = {| valid := (length errs =? 0)%nat; errors := errs |}
    ∧ (errs = [] ↔
       Forall (λ r, NoDup (roundPlayers r)) rounds ∧ NoDup (scheduledIds rounds)).
Proof.
  unfold validateSchedule.
  destruct (checkRounds_spec 0 rounds [] ∅) as (extra & seenI' & -> & Hextra).
  exists extra. split; [done|]. rewrite Hextra. set_solver.
Qed.

(** X17. [validateSchedule] accepts a list of rounds exactly when, in every
    round, no player is in two matches (a player on both sides of one
    match is not noticed, the players of a match being a set) and no two
    matches of the schedule have the same identifier; and it accepts
    exactly when it reports no error. *)
Theorem validateSchedule_spec rounds :
  (valid (validateSchedule rounds) = true ↔ errors (validateSchedule rounds) = [])
  ∧ (valid (validateSchedule rounds) = true ↔
     Forall (λ r, NoDup (roundPlayers r)) rounds ∧ NoDup (scheduledIds rounds)).
Proof.
  destruct (validateSchedule_errors rounds) as (errs & -> & Herrs). simpl.
  assert ((length errs =? 0)%nat = true ↔ errs = []) as ->.
  { rewrite Nat.eqb_eq. by destruct errs. }
  done.
Qed.

(** ** The checks of the test-suite: [calculateRestStats] *)

Lemma occurrences_app p l1 l2 :
  occurrences p (l1 ++ l2) = (occurrences p l1 + occurrences p l2)%nat.
Proof. unfold occurrences. by rewrite filter_app, length_app. Qed.

Lemma occurrences_zero p l : p ∉ l → occurrences p l = 0%nat.
Proof.
  intros Hp. unfold occurrences. rewrite filter_none; [done|]. by intros x Hx ->.
Qed.

Lemma bump_lookup (acc : gmap string Z) l p :
  foldl (λ acc player, <[player := orElse (acc !! player) 0 + 1]> acc) acc l !! p
  = if decide (p ∈ l) then Some (default 0 (acc !! p) + Z.of_nat (occurrences p l))
    else acc !! p.
Proof.
  revert acc. induction l as [|q l IH]; intros acc.
  - cbn [foldl]. by rewrite decide_False by apply not_elem_of_nil.
  - cbn [foldl]. rewrite IH. unfold occurrences. rewrite filter_cons.
    destruct (decide (q = p)) as [->|Hne].
    + rewrite (decide_True (P := p ∈ p :: l)) by left.
      rewrite lookup_insert_eq, orElse_zero.
      destruct (decide (p ∈ l)) as [Hin|Hin].
      * unfold default. simpl. f_equal. lia.
      * rewrite (filter_none (λ q, q = p) l) by (by intros x Hx ->).
        unfold default. simpl. try (f_equal; lia).
    + rewrite lookup_insert_ne by done.
      destruct (decide (p ∈ l)) as [Hin|Hin].
      * by rewrite (decide_True (P := p ∈ q :: l)) by (by right).
      * rewrite (decide_False (P := p ∈ q :: l)); [done|]. set_solver.
Qed.

Lemma tally_lookup {A} (f : A → list Player) (xs : list A) (acc : gmap string Z) p :
  foldl (λ acc x,
           foldl (λ acc player, <[player := orElse (acc !! player) 0 + 1]> acc)
                 acc (f x))
        acc xs !! p
  = if decide (p ∈ xs ≫= f)
    then Some (default 0 (acc !! p) + Z.of_nat (occurrences p (xs ≫= f)))
    else acc !! p.
Proof.
  revert acc. induction xs as [|x xs IH]; intros acc.
  - cbn [foldl]. by rewrite decide_False by apply not_elem_of_nil.
  - cbn [foldl]. rewrite IH, bump_lookup, bind_cons.
    unfold occurrences. rewrite filter_app, length_app.
    fold (occurrences p (f x)). fold (occurrences p (xs ≫= f)).
    destruct (decide (p ∈ xs ≫= f)) as [Hin|Hin],
             (decide (p ∈ f x)) as [Hin'|Hin'].
    + rewrite decide_True by set_solver. simpl. f_equal. lia.
    + rewrite decide_True by set_solver. f_equal.
      assert (occurrences p (f x) = 0%nat) as ->; [|lia].
      unfold occurrences. rewrite filter_none; [done|]. by intros y Hy ->.
    + rewrite decide_True by set_solver. f_equal.
      assert (occurrences p (xs ≫= f) = 0%nat) as ->; [|lia].
      unfold occurrences. rewrite filter_none; [done|]. by intros y Hy ->.
    + rewrite decide_False; [done|]. set_solver.
Qed.

Lemma zeroCounts_lookup players p :
  foldl (λ acc player, <[player := 0]> acc) (∅ : gmap string Z) players !! p
  = if decide (p ∈ players) then Some 0 else None.
Proof.
  assert (∀ (m : gmap string Z),
    foldl (λ acc player, <[player := 0]> acc) m players !! p
    = if decide (p ∈ players) then Some 0 else m !! p) as H.
  { induction players as [|x rest IH]; intros m; [done|]. simpl.
    rewrite IH. destruct (decide (p ∈ rest)) as [Hin|Hin].
    - by rewrite decide_True by (by right).
    - destruct (decide (p = x)) as [->|Hne].
      + rewrite decide_True by left. by rewrite lookup_insert_eq.
      + rewrite decide_False by set_solver. by rewrite lookup_insert_ne. }
  by rewrite H, lookup_empty.
Qed.

Lemma fold_left_min_le rest x :
  fold_left Z.min rest x ≤ x ∧ ∀ y, y ∈ rest → fold_left Z.min rest x ≤ y.
Proof.
  revert x. induction rest as [|z rest IH]; intros x; simpl.
  - split; [lia|by intros ? ?%elem_of_nil].
  - destruct (IH (Z.min x z)) as [H1 H2]. split; [lia|].
    intros y [->|Hy]%elem_of_cons; [lia|auto].
Qed.

Lemma fold_left_min_elem rest x :
  fold_left Z.min rest x = x ∨ fold_left Z.min rest x ∈ rest.
Proof.
  revert x. induction rest as [|z rest IH]; intros x; simpl; [by left|].
  destruct (IH (Z.min x z)) as [E|Hin]; [|right; by right].
  rewrite E. destruct (Z.min_spec x z) as [[_ ->]|[_ ->]]; [by left|right; left].
Qed.

Lemma mathMin_le xs y : y ∈ xs → mathMin xs ≤ y.
Proof.
  destruct xs as [|x rest]; [by intros ?%elem_of_nil|]. simpl.
  destruct (fold_left_min_le rest x) as [H1 H2].
  intros [->|Hy]%elem_of_cons; auto.
Qed.

Lemma mathMin_elem xs : xs ≠ [] → mathMin xs ∈ xs.
Proof.
  destruct xs as [|x rest]; [done|]. intros _. simpl.
  destruct (fold_left_min_elem rest x) as [->|?]; [left|by right].
Qed.

Lemma restCounts_lookup rounds players p :
  restCounts (calculateRestStats rounds players) !! p
  = if decide (p ∈ players ∨ p ∈ rounds ≫= resting)
    then Some (Z.of_nat (occurrences p (rounds ≫= resting))) else None.
Proof.
  unfold calculateRestStats. cbn [restCounts].
  rewrite (tally_lookup resting), zeroCounts_lookup.
  destruct (decide (p ∈ rounds ≫= resting)) as [Hin|Hin],
           (decide (p ∈ players)) as [Hin'|Hin'].
  - rewrite decide_True by tauto. done.
  - rewrite decide_True by tauto. done.
  - rewrite decide_True by tauto. f_equal.
    unfold occurrences. rewrite filter_none; [done|]. by intros x Hx ->.
  - rewrite decide_False by tauto. done.
Qed.

Lemma maxDiff_spread rounds players :
  let stats := calculateRestStats rounds players in
  (∀ p q c d, restCounts stats !! p = Some c → restCounts stats !! q = Some d →
     c - d ≤ maxDiff stats)
  ∧ ((restCounts stats = ∅ ∧ maxDiff stats = 0)
     ∨ ∃ p q c d, restCounts stats !! p = Some c ∧ restCounts stats !! q = Some d
                  ∧ maxDiff stats = c - d).
Proof.
  intros stats. subst stats. unfold calculateRestStats. cbn [restCounts maxDiff].
  set (rc := foldl _ (foldl _ ∅ players) rounds).
  split.
  - intros p q c d Hp Hq.
    assert (c ∈ (map_to_list rc).*2) as Hc.
    { apply list_elem_of_fmap. exists (p, c). split; [done|]. by apply elem_of_map_to_list. }
    assert (d ∈ (map_to_list rc).*2) as Hd.
    { apply list_elem_of_fmap. exists (q, d). split; [done|]. by apply elem_of_map_to_list. }
    destruct ((map_to_list rc).*2) as [|x xs] eqn:E; [by apply elem_of_nil in Hc|].
    replace (0 <? Z.of_nat (length (x :: xs))) with true
      by (symmetry; apply Z.ltb_lt; simpl; lia).
    pose proof (mathMax_ge _ _ Hc). pose proof (mathMin_le _ _ Hd). lia.
  - destruct ((map_to_list rc).*2) as [|x xs] eqn:E.
    + left. split; [|done]. apply fmap_nil_inv in E. by apply map_to_list_empty_iff.
    + right.
      replace (0 <? Z.of_nat (length (x :: xs))) with true
        by (symmetry; apply Z.ltb_lt; simpl; lia).
      pose proof (mathMax_elem (x :: xs) ltac:(done)) as Hmax.
      pose proof (mathMin_elem (x :: xs) ltac:(done)) as Hmin.
      rewrite <-E in Hmax at 2. rewrite <-E in Hmin at 2.
      apply list_elem_of_fmap in Hmax as ([p c] & Ec & Hp%elem_of_map_to_list).
      apply list_elem_of_fmap in Hmin as ([q d] & Ed & Hq%elem_of_map_to_list).
      simpl in *. exists p, q, c, d. split_and!; [done..|]. by rewrite Ec, Ed.
Qed.

(** X18. [calculateRestStats] gives every player of [players], and every
    player named in a resting list, the number of times the player is
    named in the resting lists of the rounds; [maxDiff] is the largest
    difference between two of these counts, and 0 when there is no count. *)
Theorem calculateRestStats_spec rounds players :
  let stats := calculateRestStats rounds players in
  (∀ p, restCounts stats !! p
        = if decide (p ∈ players ∨ p ∈ rounds ≫= resting)
          then Some (Z.of_nat (occurrences p (rounds ≫= resting))) else None)
  ∧ (∀ p q c d, restCounts stats !! p = Some c → restCounts stats !! q = Some d →
       c - d ≤ maxDiff stats)
  ∧ ((restCounts stats = ∅ ∧ maxDiff stats = 0)
     ∨ ∃ p q c d, restCounts stats !! p = Some c ∧ restCounts stats !! q = Some d
                  ∧ maxDiff stats = c - d).
Proof.
  intros stats. split.
  - intros p. apply restCounts_lookup.
  - apply maxDiff_spread.
Qed.

Lemma occurrences_NoDup p l :
  NoDup l → occurrences p l = if decide (p ∈ l) then 1%nat else 0%nat.
Proof.
  unfold occurrences. induction 1 as [|q l Hq Hnd IH]; [done|].
  rewrite filter_cons. destruct (decide (q = p)) as [->|Hne].
  - rewrite (decide_True (P := p ∈ p :: l)) by left. simpl. rewrite IH.
    by rewrite decide_False.
  - rewrite IH. destruct (decide (p ∈ l)).
    + by rewrite (decide_True (P := p ∈ q :: l)) by (by right).
    + rewrite (decide_False (P := p ∈ q :: l)); [done|]. set_solver.
Qed.

Lemma occurrences_bind {A} (f : A → list Player) (xs : list A) p :
  (∀ x, x ∈ xs → NoDup (f x)) →
  occurrences p (xs ≫= f) = length (filter (λ x, p ∈ f x) xs).
Proof.
  induction xs as [|x xs IH]; intros Hnd; [done|].
  rewrite bind_cons. unfold occurrences in *. rewrite filter_app, length_app.
  rewrite IH by set_solver. fold (occurrences p (f x)).
  rewrite occurrences_NoDup by (apply Hnd; left). rewrite filter_cons.
  destruct (decide (p ∈ f x)); simpl; lia.
Qed.

Section Checks.
Variable sortBy :
  (MatchCandidate → MatchCandidate → Z) → list MatchCandidate → list MatchCandidate.
Hypothesis sortBy_perm : ∀ cmp l, sortBy cmp l ≡ₚ l.

(** X19. Every schedule that [generateSchedule] returns passes
    [validateSchedule], with no error reported. *)
Theorem returned_schedule_valid inputPlayers courts matchType s :
  generateSchedule sortBy inputPlayers courts matchType = Returned s →
  validateSchedule (rounds s) = {| valid := true; errors := [] |}.
Proof using sortBy_perm.
  intros (_ & _ & st & -> & HI & _)%(generateSchedule_Returned sortBy sortBy_perm).
  destruct (validateSchedule_errors (St.rounds st)) as (errs & -> & Herrs).
  assert (errs = []) as ->; [|done].
  apply Herrs. split.
  - apply Forall_forall. intros r [k Hk]%list_elem_of_lookup.
    apply (inv_rounds _ _ _ HI k r Hk).
  - pose proof (inv_ids _ _ _ HI) as Hids. by apply NoDup_app in Hids as (_ & _ & ?).
Qed.

(** X20. The rest statistics of a returned schedule, taken over the roster:
    the counts are those of the roster's players and of nobody else, a
    player's count is the number of rounds in which the player rests, and
    with the number of rounds in which the player plays it adds up to the
    number of rounds. *)
Theorem returned_schedule_rest_stats inputPlayers courts matchType s :
  generateSchedule sortBy inputPlayers courts matchType = Returned s →
  let players := arrayFromSet inputPlayers in
  let stats := calculateRestStats (rounds s) players in
  dom (restCounts stats) = list_to_set players
  ∧ (∀ p, p ∈ players →
       restCounts stats !! p = Some (Z.of_nat (roundsRested (rounds s) p))
       ∧ (roundsPlayed (rounds s) p + roundsRested (rounds s) p
          = length (rounds s))%nat)
  ∧ 0 ≤ maxDiff stats ≤ Z.of_nat (length (rounds s)).
Proof using sortBy_perm.
  intros (_ & _ & st & -> & HI & _)%(generateSchedule_Returned sortBy sortBy_perm)
         players stats.
  pose proof (arrayFromSet_NoDup inputPlayers) as Hnd. fold players in Hnd, HI.
  pose proof (restCounts_lookup (St.rounds st) players) as Hlookup.
  destruct (maxDiff_spread (St.rounds st) players) as (Hdiff & Hmax).
  fold stats in Hlookup, Hdiff, Hmax.
  assert (∀ r, r ∈ St.rounds st →
            (∀ p, p ∈ resting r → p ∈ players ∧ p ∉ roundPlayers r)
            ∧ (∀ p, p ∈ players → p ∉ roundPlayers r → p ∈ resting r)
            ∧ NoDup (resting r)) as Hrounds.
  { intros r [k Hk]%list_elem_of_lookup.
    pose proof (inv_rounds _ _ _ HI k r Hk) as Hok.
    destruct (RoundOk_partition _ _ _ _ Hnd Hok) as [Hdisj Hperm].
    split_and!.
    - intros p Hp. split; [|by apply Hdisj]. rewrite <-Hperm. set_solver.
    - intros p Hp Hnot. rewrite <-Hperm in Hp. set_solver.
    - rewrite <-Hperm in Hnd. by apply NoDup_app in Hnd as (? & _ & _). }
  assert (∀ p, p ∈ St.rounds st ≫= resting → p ∈ players) as Hsub.
  { intros p (r & Hp & Hr)%list_elem_of_bind. by apply (Hrounds r Hr). }
  assert (∀ p, p ∈ players →
            restCounts stats !! p = Some (Z.of_nat (roundsRested (St.rounds st) p)))
    as Hcount.
  { intros p Hp. rewrite Hlookup, decide_True by (by left).
    rewrite (occurrences_bind resting); [done|]. intros r Hr. apply (Hrounds r Hr). }
  assert (∀ p, (roundsRested (St.rounds st) p ≤ length (St.rounds st))%nat) as Hle
    by (intros p; apply length_filter).
  split; [|split].
  - apply set_eq. intros p. rewrite elem_of_dom, Hlookup, elem_of_list_to_set.
    destruct (decide _) as [[?|?]|Hno].
    + split; [done|by eexists].
    + split; [intros _; by apply Hsub|by eexists].
    + split; [by intros [? ?]|tauto].
  - intros p Hp. split; [by apply Hcount|].
    apply roundsPlayed_roundsRested. intros r Hr. split.
    + intros Hrest. by apply (Hrounds r Hr).
    + intros Hnot. by apply (Hrounds r Hr).
  - destruct Hmax as [[_ E]|(p & q & c & d & Hp & Hq & Emax)]; [rewrite E; lia|].
    pose proof (Hdiff q p d c Hq Hp).
    assert (p ∈ players ∧ q ∈ players) as [Hpin Hqin].
    { split.
      - rewrite Hlookup in Hp. destruct (decide _) as [[?|?]|?]; [done|auto|done].
      - rewrite Hlookup in Hq. destruct (decide _) as [[?|?]|?]; [done|auto|done]. }
    rewrite (Hcount p Hpin) in Hp. rewrite (Hcount q Hqin) in Hq.
    injection Hp as <-. injection Hq as <-.
    pose proof (Hle p). pose proof (Hle q).
    pose proof (Hdiff p q _ _ (Hcount p Hpin) (Hcount q Hqin)). lia.
Qed.
End Checks.

(** ** Overlap, frequency and rarity *)

(** X21. [matchesOverlap] holds of two matches exactly when some player is
    in both; it does not depend on the order of the two matches, and a
    match overlaps itself unless it has no player. *)
Theorem matchesOverlap_spec m1 m2 :
  (matchesOverlap m1 m2 = true ↔
   ∃ p, (p ∈ teamA m1 ∨ p ∈ teamB m1) ∧ (p ∈ teamA m2 ∨ p ∈ teamB m2))
  ∧ matchesOverlap m1 m2 = matchesOverlap m2 m1
  ∧ (matchesOverlap m1 m1 = false ↔ teamA m1 = [] ∧ teamB m1 = []).
Proof.
  assert (∀ a b, matchesOverlap a b = true ↔
            ∃ p, p ∈ getMatchPlayers a ∧ p ∈ getMatchPlayers b) as H.
  { intros a b. unfold matchesOverlap. rewrite existsb_exists. split.
    - intros (p & Hp%list_elem_of_In & Hq%bool_decide_eq_true). eauto.
    - intros (p & Hp & Hq). exists p. split; [by apply list_elem_of_In|].
      by apply bool_decide_eq_true. }
  split_and!.
  - rewrite H. by setoid_rewrite getMatchPlayers_elem_of.
  - apply eq_true_iff_eq. rewrite !H. naive_solver.
  - rewrite <-not_true_iff_false, H. setoid_rewrite getMatchPlayers_elem_of. split.
    + intros Hno. destruct (teamA m1) as [|p ?] eqn:EA.
      * destruct (teamB m1) as [|q ?] eqn:EB; [done|].
        exfalso. apply Hno. exists q. set_solver.
      * exfalso. apply Hno. exists p. set_solver.
    + intros [-> ->] (p & [?%elem_of_nil|?%elem_of_nil] & _); done.
Qed.

Lemma frequency_lookup matches p :
  calculatePlayerFrequency matches !! p
  = if decide (p ∈ playersOfMatches matches)
    then Some (Z.of_nat (appearances p matches)) else None.
Proof.
  unfold calculatePlayerFrequency, playersOfMatches.
  rewrite (tally_lookup getMatchPlayers), lookup_empty. simpl.
  by rewrite (occurrences_bind getMatchPlayers) by (intros; apply getMatchPlayers_NoDup).
Qed.

(** X22. [calculatePlayerFrequency] maps every player of some match of the
    list to the number of matches of the list that the player is in, which
    is at least 1, and has no entry for anybody else. *)
Theorem calculatePlayerFrequency_spec matches p :
  calculatePlayerFrequency matches !! p
  = (if decide (p ∈ playersOfMatches matches)
     then Some (Z.of_nat (appearances p matches)) else None)
  ∧ (p ∈ playersOfMatches matches ↔ (1 ≤ appearances p matches)%nat).
Proof.
  split; [apply frequency_lookup|]. unfold appearances, playersOfMatches.
  rewrite list_elem_of_bind. split.
  - intros (m & Hp & Hm).
    assert (m ∈ filter (λ m0, p ∈ getMatchPlayers m0) matches) as Hin
      by (by apply list_elem_of_filter).
    destruct (filter _ matches); [by apply elem_of_nil in Hin|simpl; lia].
  - destruct (filter (λ m0, p ∈ getMatchPlayers m0) matches) as [|m ?] eqn:E;
      [simpl; lia|]. intros _.
    assert (m ∈ filter (λ m0, p ∈ getMatchPlayers m0) matches) as Hin
      by (rewrite E; left).
    apply list_elem_of_filter in Hin as [? ?]. eauto.
Qed.

(** X23. Against the frequencies of a list of matches, the rarity of a match
    is the sum, over the players of the match, of the number of matches of
    the list that the player is in (0 for a player in none); for a match
    of the list it is at least the number of its players. *)
Theorem calculateMatchRarity_spec m matches :
  let rarity := calculateMatchRarity m (calculatePlayerFrequency matches) in
  rarity = sumZ ((λ p, Z.of_nat (appearances p matches)) <$> getMatchPlayers m)
  ∧ (m ∈ matches → Z.of_nat (length (getMatchPlayers m)) ≤ rarity).
Proof.
  intros rarity. subst rarity. unfold calculateMatchRarity, sumZ.
  assert (∀ l z,
    foldl (λ sum player, sum + orElse (calculatePlayerFrequency matches !! player) 0) z l
    = fold_left Z.add ((λ p, Z.of_nat (appearances p matches)) <$> l) z) as Hsum.
  { induction l as [|p l IH]; intros z; [done|]. simpl. rewrite IH. f_equal. f_equal.
    rewrite frequency_lookup, orElse_zero.
    destruct (decide _) as [|Hno]; [done|]. simpl.
    unfold appearances. rewrite filter_none; [done|]. intros m' Hm' Hp. apply Hno.
    unfold playersOfMatches. apply list_elem_of_bind. eauto. }
  split; [apply Hsum|]. intros Hm. rewrite Hsum.
  assert (∀ l z, (∀ p, p ∈ l → p ∈ getMatchPlayers m) →
    z + Z.of_nat (length l)
    ≤ fold_left Z.add ((λ p, Z.of_nat (appearances p matches)) <$> l) z) as Hle.
  { induction l as [|p l IH]; intros z Hl; [simpl; lia|]. simpl.
    etrans; [|apply IH; set_solver].
    assert (1 ≤ appearances p matches)%nat; [|lia].
    unfold appearances.
    assert (m ∈ filter (λ m0, p ∈ getMatchPlayers m0) matches) as Hin
      by (apply list_elem_of_filter; split; [apply Hl; left|done]).
    destruct (filter _ matches); [by apply elem_of_nil in Hin|simpl; lia]. }
  specialize (Hle (getMatchPlayers m) 0 ltac:(done)). lia.
Qed.

(** ** Team keys *)

Lemma string_compare_refl s : String.compare s s = Eq.
Proof.
  induction s as [|c s IH]; [done|]. simpl.
  unfold Ascii.compare. by rewrite N.compare_refl.
Qed.

Lemma string_compare_trans s1 s2 s3 :
  String.compare s1 s2 ≠ Gt → String.compare s2 s3 ≠ Gt → String.compare s1 s3 ≠ Gt.
Proof.
  revert s2 s3. induction s1 as [|c1 s1 IH]; intros [|c2 s2] [|c3 s3]; simpl; try done.
  unfold Ascii.compare.
  destruct (N.compare_spec (Ascii.N_of_ascii c1) (Ascii.N_of_ascii c2)) as [E12|L12|G12]; [| |done].
  - rewrite E12. destruct (Ascii.N_of_ascii c2 ?= Ascii.N_of_ascii c3)%N; [apply IH|done|done].
  - intros _.
    destruct (N.compare_spec (Ascii.N_of_ascii c2) (Ascii.N_of_ascii c3)) as [E23|L23|G23]; [| |done].
    + intros _. rewrite <-E23. by rewrite (proj2 (N.compare_lt_iff _ _) L12).
    + intros _. rewrite (proj2 (N.compare_lt_iff (Ascii.N_of_ascii c1) (Ascii.N_of_ascii c3))); [done|].
      by etrans.
Qed.

#[local] Instance stringLe_trans : Transitive stringLe.
Proof.
  intros x y z. unfold stringLe, String.leb. intros Hxy Hyz.
  pose proof (string_compare_trans x y z) as H.
  destruct (String.compare x y); try done;
    destruct (String.compare y z); try done;
    destruct (String.compare x z); try done; by exfalso; apply H.
Qed.

#[local] Instance stringLe_antisym : AntiSymm (=) stringLe.
Proof. intros x y. apply String.leb_antisym. Qed.

Lemma stringLe_total x y : stringLe x y ∨ stringLe y x.
Proof. apply String.leb_total. Qed.

Lemma insertString_perm x xs : insertString x xs ≡ₚ x :: xs.
Proof.
  induction xs as [|y rest IH]; simpl; [done|].
  destruct (String.leb x y); [done|]. rewrite IH. apply Permutation_swap.
Qed.

Lemma sortStrings_perm xs : sortStrings xs ≡ₚ xs.
Proof.
  induction xs as [|x rest IH]; [done|].
  unfold sortStrings in *. simpl. by rewrite insertString_perm, IH.
Qed.

Lemma insertString_Sorted x xs :
  Sorted stringLe xs → Sorted stringLe (insertString x xs).
Proof.
  induction 1 as [|y rest Hs IH Hhd]; simpl; [by repeat constructor|].
  destruct (String.leb x y) eqn:E.
  - constructor; [by constructor|]. by constructor.
  - assert (stringLe y x) as Hyx by (destruct (stringLe_total x y); [congruence|done]).
    constructor; [done|].
    destruct rest as [|z rest]; simpl in *; [by constructor|].
    destruct (String.leb x z); constructor; [done|].
    by inversion Hhd.
Qed.

Lemma sortStrings_Sorted xs : Sorted stringLe (sortStrings xs).
Proof.
  induction xs as [|x rest IH]; [constructor|].
  unfold sortStrings in *. simpl. by apply insertString_Sorted.
Qed.

Lemma sortStrings_canonical t t' : t ≡ₚ t' ↔ sortStrings t = sortStrings t'.
Proof.
  split.
  - intros Hp. apply (Sorted_unique stringLe); [apply sortStrings_Sorted..|].
    by rewrite !sortStrings_perm.
  - intros E. by rewrite <-(sortStrings_perm t), E, sortStrings_perm.
Qed.

(** X24. The team key is canonical: two teams with the same players, in
    whatever order, have the same key. *)
Theorem getTeamKey_canonical t t' :
  t ≡ₚ t' → getTeamKey t = getTeamKey t'.
Proof.
  intros Hp. unfold getTeamKey. by rewrite (proj1 (sortStrings_canonical t t') Hp).
Qed.

Lemma string_app_nil (y : string) : "" +:+ y = y.
Proof. reflexivity. Qed.

Lemma string_app_cons c (x y : string) : String c x +:+ y = String c (x +:+ y).
Proof. reflexivity. Qed.

Lemma comma_split x x' r r' :
  commaFree x = true → commaFree x' = true →
  x +:+ "," +:+ r = x' +:+ "," +:+ r' → x = x' ∧ r = r'.
Proof.
  revert x'. induction x as [|c x IH]; intros [|c' x'];
    repeat (rewrite string_app_nil || rewrite string_app_cons); cbn [commaFree].
  - intros _ _ [= ->]. done.
  - intros _ [Hc _]%andb_true_iff [= <- _]. done.
  - intros [Hc _]%andb_true_iff _ [= -> _]. done.
  - intros [_ Hx]%andb_true_iff [_ Hx']%andb_true_iff [= -> E].
    destruct (IH x' Hx Hx' E) as [-> ->]. done.
Qed.

Lemma concat_comma_inj l l' :
  length l = length l' →
  Forall (λ p, commaFree p = true) l → Forall (λ p, commaFree p = true) l' →
  String.concat "," l = String.concat "," l' → l = l'.
Proof.
  revert l'. induction l as [|x l IH]; intros [|x' l'] Hlen Hl Hl'; simpl in Hlen;
    try done.
  apply Forall_cons in Hl as [Hx Hl], Hl' as [Hx' Hl'].
  destruct l as [|y l], l' as [|y' l']; simpl in Hlen; try done.
  - simpl. by intros ->.
  - cbn [String.concat].
    intros (-> & E)%comma_split; [|done..].
    f_equal. apply IH; [simpl; lia|done..].
Qed.

(** X25. With names that hold no comma, the key determines the team: two
    teams of the same size with the same key have the same players. *)
Theorem getTeamKey_inj t t' :
  length t = length t' →
  (∀ p, p ∈ t ++ t' → commaFree p = true) →
  getTeamKey t = getTeamKey t' → t ≡ₚ t'.
Proof.
  intros Hlen Hfree E. apply sortStrings_canonical.
  apply concat_comma_inj; [| | |exact E].
  - by rewrite !sortStrings_perm.
  - apply Forall_forall. intros p Hp. rewrite sortStrings_perm in Hp.
    apply Hfree. set_solver.
  - apply Forall_forall. intros p Hp. rewrite sortStrings_perm in Hp.
    apply Hfree. set_solver.
Qed.

(** Names with a comma can make the keys of two teams collide. *)
Example getTeamKey_collision :
  getTeamKey ["a,b"; "c"] = getTeamKey ["a"; "b,c"].
Proof. reflexivity. Qed.

(** ** The schedule store *)

Lemma toggleFirst_twice rid rounds rounds' :
  Store.toggleFirst rid rounds = Some rounds' →
  Store.toggleFirst rid rounds' = Some rounds.
Proof.
  revert rounds'. induction rounds as [|r rest IH]; intros rounds'; simpl; [done|].
  destruct (String.eqb (roundId r) rid) eqn:E.
  - intros [= <-]. simpl. rewrite E. destruct r as [i m re c]. simpl.
    by rewrite negb_involutive.
  - destruct (Store.toggleFirst rid rest) as [rest'|] eqn:E'; [|done].
    simpl. intros [= <-]. simpl. rewrite E. by rewrite (IH rest').
Qed.

Lemma toggleFirst_None rid rounds :
  Store.toggleFirst rid rounds = None ↔ rid ∉ roundId <$> rounds.
Proof.
  induction rounds as [|r rest IH]; simpl; [split; [intros _; apply not_elem_of_nil|done]|].
  destruct (String.eqb_spec (roundId r) rid) as [E|E].
  - split; [done|]. intros H. exfalso. apply H. rewrite E. left.
  - rewrite fmap_None, IH, not_elem_of_cons. naive_solver.
Qed.

Lemma toggleFirst_lookup rid rounds rounds' :
  Store.toggleFirst rid rounds = Some rounds' →
  ∃ i r, rounds !! i = Some r ∧ roundId r = rid
    ∧ (∀ j r0, (j < i)%nat → rounds !! j = Some r0 → roundId r0 ≠ rid)
    ∧ rounds' = <[i := {| roundId := roundId r; matches := matches r;
                          resting := resting r; completed := negb (completed r) |}]> rounds.
Proof.
  revert rounds'. induction rounds as [|r rest IH]; intros rounds'; simpl; [done|].
  destruct (String.eqb_spec (roundId r) rid) as [E|E].
  - intros [= <-]. exists 0%nat, r. split_and!; [done..|lia|done].
  - destruct (Store.toggleFirst rid rest) as [rest'|] eqn:E'; [|done].
    simpl. intros [= <-]. destruct (IH rest' eq_refl) as (i & r0 & Hi & Hid & Hfirst & ->).
    exists (S i), r0. split_and!; [done..| |done].
    intros [|j] r1 Hj Hr1; simpl in Hr1; [by injection Hr1 as <-|].
    apply (Hfirst j); [lia|done].
Qed.

(** A call answers [null], and changes nothing, exactly when the schedule
    or the round is missing. *)
Lemma toggle_None scheduleId rid (store : Store.t) :
  (∀ schedule, store !! scheduleId = Some schedule →
               rid ∉ roundId <$> Store.rounds schedule)
  → Store.toggleRoundComplete scheduleId rid store = (None, store).
Proof.
  intros Hno. unfold Store.toggleRoundComplete.
  destruct (store !! scheduleId) as [schedule|] eqn:Hs; [|done].
  by rewrite (proj2 (toggleFirst_None rid (Store.rounds schedule)) (Hno _ eq_refl)).
Qed.

Lemma toggle_Some scheduleId rid (store : Store.t) schedule :
  store !! scheduleId = Some schedule → rid ∈ roundId <$> Store.rounds schedule →
  ∃ schedule' store',
    Store.toggleRoundComplete scheduleId rid store = (Some schedule', store')
    ∧ Store.toggleRoundComplete scheduleId rid store' = (Some schedule, store).
Proof.
  intros Hs Hin. unfold Store.toggleRoundComplete. rewrite Hs.
  destruct (Store.toggleFirst rid (Store.rounds schedule)) as [rounds'|] eqn:Ht.
  2:{ apply toggleFirst_None in Ht. done. }
  eexists _, _. split; [done|].
  rewrite lookup_insert_eq. cbn [Store.rounds].
  rewrite (toggleFirst_twice _ _ _ Ht), insert_insert_eq.
  destruct schedule as [i p c m r]. cbn. f_equal. by apply insert_id.
Qed.

(** X26. Marking a round is undone by marking it again: two calls of
    [toggleRoundComplete] with the same identifiers leave the store as it
    was.  A call changes nothing and answers [null] exactly when the store
    has no such schedule or the schedule has no round with the
    identifier. *)
Theorem toggleRoundComplete_twice scheduleId rid (store : Store.t) :
  let first := Store.toggleRoundComplete scheduleId rid store in
  let second := Store.toggleRoundComplete scheduleId rid first.2 in
  second.2 = store
  ∧ (first.1 = None ↔
     ∀ schedule, store !! scheduleId = Some schedule →
                 rid ∉ roundId <$> Store.rounds schedule)
  ∧ (first.1 = None → first.2 = store)
  ∧ (first.1 ≠ None → second.1 = store !! scheduleId).
Proof.
  intros first second. subst first second.
  destruct (store !! scheduleId) as [schedule|] eqn:Hs.
  - destruct (decide (rid ∈ roundId <$> Store.rounds schedule)) as [Hin|Hin].
    + destruct (toggle_Some scheduleId rid store schedule Hs Hin)
        as (schedule' & store' & -> & H2).
      cbn [fst snd]. rewrite H2. cbn [fst snd]. split_and!; try done.
      split; [done|]. intros Hno. by destruct (Hno schedule).
    + assert (∀ schedule0, store !! scheduleId = Some schedule0 →
                           rid ∉ roundId <$> Store.rounds schedule0) as Hno
        by (intros ?; rewrite Hs; by intros [= <-]).
      rewrite !(toggle_None scheduleId rid store Hno). cbn [fst snd].
      rewrite !(toggle_None scheduleId rid store Hno). cbn [fst snd].
      split_and!; try done. split; [|done]. by intros _ ? [= <-].
  - assert (∀ schedule0, store !! scheduleId = Some schedule0 →
                         rid ∉ roundId <$> Store.rounds schedule0) as Hno
      by (intros ?; by rewrite Hs).
    rewrite !(toggle_None scheduleId rid store Hno). cbn [fst snd].
    rewrite !(toggle_None scheduleId rid store Hno). cbn [fst snd].
    split_and!; try done.
Qed.

(** A call of [toggleRoundComplete] that answers a schedule has
    changed one thing: the [completed] flag of the first round with the
    identifier, which is inverted.  The other rounds, the matches and the
    resting players of every round, the other fields of the schedule and
    the other schedules of the store are as before. *)
Lemma toggleRoundComplete_frame scheduleId rid (store : Store.t) schedule' store' :
  Store.toggleRoundComplete scheduleId rid store = (Some schedule', store') →
  ∃ schedule i r,
    store !! scheduleId = Some schedule
    ∧ store' = <[scheduleId := schedule']> store
    ∧ Store.id schedule' = Store.id schedule
    ∧ Store.players schedule' = Store.players schedule
    ∧ Store.courts schedule' = Store.courts schedule
    ∧ Store.matchType schedule' = Store.matchType schedule
    ∧ Store.rounds schedule !! i = Some r ∧ roundId r = rid
    ∧ (∀ j r0, (j < i)%nat → Store.rounds schedule !! j = Some r0 → roundId r0 ≠ rid)
    ∧ Store.rounds schedule'
      = <[i := {| roundId := roundId r; matches := matches r; resting := resting r;
                  completed := negb (completed r) |}]> (Store.rounds schedule).
Proof.
  unfold Store.toggleRoundComplete.
  destruct (store !! scheduleId) as [schedule|] eqn:Hs; [|done].
  destruct (Store.toggleFirst rid (Store.rounds schedule)) as [rounds'|] eqn:Ht; [|done].
  intros [= <- <-].
  destruct (toggleFirst_lookup _ _ _ Ht) as (i & r & Hi & Hid & Hfirst & ->).
  exists schedule, i, r. simpl. split_and!; done.
Qed.

(** ** The request handlers *)

Lemma parseMatchType_Some v matchType :
  parseMatchType v = Some matchType ↔ v = Some (Api.JStr (matchTypeName matchType)).
Proof.
  unfold parseMatchType. split.
  - destruct v as [[| | |s| |]|]; try done.
    destruct (String.eqb_spec s "singles") as [->|_]; [by intros [= <-]|].
    destruct (String.eqb_spec s "doubles") as [->|_]; [by intros [= <-]|done].
  - intros ->. by destruct matchType.
Qed.

Lemma length_arrayFromSet_le xs : (length (arrayFromSet xs) ≤ length xs)%nat.
Proof.
  unfold arrayFromSet. generalize (@nil string).
  induction xs as [|x xs IH]; intros seen; simpl; [done|].
  case_bool_decide; [specialize (IH seen); lia|].
  specialize (IH (x :: seen)). simpl. lia.
Qed.

Lemma cleanPlayers_nonempty trim items :
  Forall (λ p, p ≠ "") (cleanPlayers trim items).
Proof.
  apply Forall_forall. intros p [Hp _]%list_elem_of_filter. intros ->. simpl in Hp. lia.
Qed.

(** X27. [POST /api/schedule] answers every request, with status 201 or
    400.  It answers 201 exactly when the request is acceptable: [players]
    is an array, [courts] a number that is not below 1, [matchType] is
    singles or doubles, and the players hold at least five different
    names that are not empty once trimmed.  On 400 the body is an error
    message and the store is unchanged. *)
Theorem postSchedule_status trim sortBy uuid request (store : Store.t) :
  ∃ response store',
    postSchedule trim sortBy uuid request store = Some (response, store')
    ∧ ((Api.status response = 201 ∧ acceptable trim request)
       ∨ (Api.status response = 400 ∧ ¬ acceptable trim request
          ∧ store' = store ∧ ∃ error, Api.body response = Api.Error error)).
Proof.
  unfold postSchedule, acceptable.
  destruct (Api.players request) as [[| | | |items|]|] eqn:Hp;
    try (eexists _, _; split; [done|]; right; split_and!; [done| |done|by eexists];
         by intros (? & ? & ? & [=] & _)).
  destruct (length items =? 0)%nat eqn:Hlen.
  { eexists _, _. split; [done|]. right. split_and!; [done| |done|by eexists].
    intros (? & ? & ? & [= <-] & _ & _ & _ & H).
    apply Nat.eqb_eq in Hlen. destruct items; [|done].
    unfold cleanPlayers in H. simpl in H. lia. }
  destruct (Api.courts request) as [[| |courts| | |]|] eqn:Hc;
    try (eexists _, _; split; [done|]; right; split_and!; [done| |done|by eexists];
         by intros (? & ? & ? & _ & [=] & _)).
  destruct (Num.ltb courts (Num.ofZ 1)) eqn:Hc1.
  { eexists _, _. split; [done|]. right. split_and!; [done| |done|by eexists].
    intros (? & ? & ? & _ & [= <-] & ? & _). congruence. }
  destruct (parseMatchType (Api.matchType request)) as [matchType|] eqn:Hm.
  2:{ eexists _, _. split; [done|]. right. split_and!; [done| |done|by eexists].
      intros (? & ? & mt & _ & _ & _ & H%parseMatchType_Some & _). congruence. }
  apply parseMatchType_Some in Hm.
  destruct (length (cleanPlayers trim items) <? 5)%nat eqn:H5.
  { eexists _, _. split; [done|]. right. split_and!; [done| |done|by eexists].
    intros (? & ? & ? & [= <-] & _ & _ & _ & H). apply Nat.ltb_lt in H5.
    pose proof (length_arrayFromSet_le (cleanPlayers trim items)). lia. }
  pose proof (generateSchedule_validation sortBy (cleanPlayers trim items) courts matchType)
    as Hv.
  cbv zeta in Hv. destruct (decide _) as [[Hlen5 _]|Hno].
  - destruct Hv as (st & _ & ->). eexists _, _. split; [done|]. left.
    split; [done|]. exists items, courts, matchType. done.
  - destruct Hv as [message ->]. eexists _, _. split; [done|]. right.
    split_and!; [done| |done|by eexists].
    intros (? & ? & ? & [= <-] & _ & _ & _ & H). apply Hno. split; [done|done].
Qed.

(** X28. What [POST /api/schedule] creates.  On status 201 the body holds
    the identifier ["sch_"] followed by the fresh uuid, and the rounds and
    the warning that [generateSchedule] returned for the trimmed,
    non-empty names; the store holds, under that identifier, these rounds
    with the names (repetitions included), the courts and the match type
    of the request, which is what [GET /api/schedule/:scheduleId] then
    answers; the other schedules of the store are as before. *)
Theorem postSchedule_created trim sortBy uuid request (store : Store.t) response store' :
  postSchedule trim sortBy uuid request store = Some (response, store') →
  Api.status response = 201 →
  ∃ items courts matchType result,
    Api.players request = Some (Api.JArr items)
    ∧ Api.courts request = Some (Api.JNum courts)
    ∧ Api.matchType request = Some (Api.JStr (matchTypeName matchType))
    ∧ Forall (λ p, p ≠ "") (cleanPlayers trim items)
    ∧ generateSchedule sortBy (cleanPlayers trim items) courts matchType = Returned result
    ∧ Api.body response = Api.Created ("sch_" +:+ uuid) (rounds result) (warning result)
    ∧ getScheduleById ("sch_" +:+ uuid) store'
      = {| Api.status := 200;
           Api.body := Api.Found ("sch_" +:+ uuid) (rounds result)
                         (cleanPlayers trim items) courts matchType |}
    ∧ ∀ other, other ≠ "sch_" +:+ uuid →
        Store.getSchedule other store' = Store.getSchedule other store.
Proof.
  unfold postSchedule.
  destruct (Api.players request) as [[| | | |items|]|] eqn:Hp;
    try (by intros [= <- <-]).
  destruct (length items =? 0)%nat; [by intros [= <- <-]|].
  destruct (Api.courts request) as [[| |courts| | |]|] eqn:Hc;
    try (by intros [= <- <-]).
  destruct (Num.ltb courts (Num.ofZ 1)); [by intros [= <- <-]|].
  destruct (parseMatchType (Api.matchType request)) as [matchType|] eqn:Hm;
    [|by intros [= <- <-]].
  apply parseMatchType_Some in Hm.
  destruct (length (cleanPlayers trim items) <? 5)%nat; [by intros [= <- <-]|].
  pose proof (generateSchedule_validation sortBy (cleanPlayers trim items) courts matchType)
    as Hv.
  cbv zeta in Hv.
  destruct (generateSchedule sortBy (cleanPlayers trim items) courts matchType)
    as [result|message|] eqn:Hg; [|by intros [= <- <-]|done].
  intros [= <- <-] _.
  exists items, courts, matchType, result.
  split_and!; [done..|apply cleanPlayers_nonempty|done| | |].
  - simpl. do 2 f_equal.
    destruct (decide _); [|destruct Hv as [? [=]]].
    destruct Hv as (st & _ & [= ->]). simpl. by destruct (_ <? _)%nat.
  - unfold getScheduleById, Store.getSchedule, Store.saveSchedule. simpl.
    by rewrite lookup_insert_eq.
  - intros other Hne. unfold Store.getSchedule, Store.saveSchedule. simpl.
    by rewrite lookup_insert_ne.
Qed.

(** X29. [POST /api/schedule/:scheduleId/round/:roundId/complete] answers
    404, leaving the store unchanged, exactly when the schedule or the
    round is missing; otherwise it answers 200 with the new value of the
    flag of the first round with the identifier, the inverse of the old
    one, and a second call answers the old value.  After two calls the
    store is as it was. *)
Theorem round_completion_round_trip scheduleId rid (store : Store.t) :
  let first := postRoundComplete scheduleId rid store in
  let second := postRoundComplete scheduleId rid first.2 in
  second.2 = store
  ∧ ((Api.status first.1 = 404 ∧ first.2 = store
      ∧ ∀ schedule, store !! scheduleId = Some schedule →
                    rid ∉ roundId <$> Store.rounds schedule)
     ∨ ∃ schedule i r,
         store !! scheduleId = Some schedule
         ∧ Store.rounds schedule !! i = Some r ∧ roundId r = rid
         ∧ (∀ j r0, (j < i)%nat → Store.rounds schedule !! j = Some r0 → roundId r0 ≠ rid)
         ∧ first.1 = {| Api.status := 200;
                        Api.body := Api.Toggled (Store.id schedule) rid
                                      (negb (completed r)) |}
         ∧ second.1 = {| Api.status := 200;
                         Api.body := Api.Toggled (Store.id schedule) rid (completed r) |}).
Proof.
  intros first second.
  assert (∀ rs i r b,
    rs !! i = Some r →
    (∀ j r0, (j < i)%nat → rs !! j = Some r0 → roundId r0 ≠ roundId r) →
    find (λ r0, bool_decide (roundId r0 = roundId r))
         (<[i := {| roundId := roundId r; matches := matches r; resting := resting r;
                    completed := b |}]> rs)
    = Some {| roundId := roundId r; matches := matches r; resting := resting r;
              completed := b |}) as Hfind.
  { clear. intros rs. induction rs as [|r0 rs IH]; intros i r b Hi Hfirst; [done|].
    destruct i as [|i]; simpl in *.
    - injection Hi as ->. by rewrite bool_decide_eq_true_2.
    - rewrite bool_decide_eq_false_2 by (apply (Hfirst 0%nat); [lia|done]).
      apply IH; [done|]. intros j r1 Hj Hr1. apply (Hfirst (S j)); [lia|done]. }
  assert ((∀ schedule, store !! scheduleId = Some schedule →
                       rid ∉ roundId <$> Store.rounds schedule)
          ∨ ∃ schedule, store !! scheduleId = Some schedule
                        ∧ rid ∈ roundId <$> Store.rounds schedule) as [Hno|Hyes].
  { destruct (store !! scheduleId) as [schedule|]; [|by left].
    destruct (decide (rid ∈ roundId <$> Store.rounds schedule)); [right; eauto|left].
    by intros ? [= <-]. }
  - subst first second. unfold postRoundComplete.
    rewrite (toggle_None _ _ _ Hno). cbn [fst snd].
    rewrite (toggle_None _ _ _ Hno). cbn [fst snd].
    split; [done|]. left. done.
  - destruct Hyes as (schedule & Hs & Hin).
    destruct (toggle_Some _ _ _ _ Hs Hin) as (schedule1 & store1 & H1 & H2).
    destruct (toggleRoundComplete_frame _ _ _ _ _ H1)
      as (schedule0 & i & r & Hs0 & _ & Eid & _ & _ & _ & Hi & Hrid & Hfirst & Erounds).
    rewrite Hs in Hs0. injection Hs0 as <-.
    subst first second. unfold postRoundComplete.
    rewrite H1. cbn [fst snd]. rewrite H2. cbn [fst snd].
    split; [done|]. right.
    exists schedule, i, r. split_and!; [done..| |].
    + rewrite Erounds, Eid. subst rid. by rewrite Hfind.
    + f_equal. f_equal. subst rid.
      pose proof (Hfind (Store.rounds schedule) i r (completed r) Hi Hfirst) as Hf.
      replace (<[i := _]> (Store.rounds schedule)) with (Store.rounds schedule) in Hf.
      * by rewrite Hf.
      * symmetry. apply list_insert_id. by destruct r.
Qed.

(** ** What the team maps keep account of *)

Lemma lastUseFrom_snoc i rs r key last :
  lastUseFrom i (rs ++ [r]) key last
  = if bool_decide (key ∈ roundKeys r) then i + Z.of_nat (length rs)
    else lastUseFrom i rs key last.
Proof.
  revert i last. induction rs as [|r0 rs IH]; intros i last; simpl.
  - case_bool_decide; [lia|done].
  - rewrite IH. case_bool_decide; [lia|done].
Qed.

Lemma lastUseFrom_bounds i rs key last :
  last < i →
  let u := lastUseFrom i rs key last in
  (u = last ∧ key ∉ rs ≫= roundKeys)
  ∨ (i ≤ u < i + Z.of_nat (length rs) ∧ key ∈ rs ≫= roundKeys).
Proof.
  revert i last. induction rs as [|r rs IH]; intros i last Hlt;
    cbv zeta; cbn [lastUseFrom length].
  - left. split; [done|apply not_elem_of_nil].
  - rewrite bind_cons, elem_of_app. case_bool_decide as Hk.
    + destruct (IH (i + 1) i ltac:(lia)) as [[-> ?]|[? ?]]; right; split; [lia|auto|lia|auto].
    + destruct (IH (i + 1) last ltac:(lia)) as [[-> ?]|[? ?]]; [left|right].
      * split; [done|tauto].
      * split; [lia|auto].
Qed.

Lemma updateTeamTracking_cons m ms r (usage lastUsed : gmap string Z) :
  updateTeamTracking (m :: ms) r (usage, lastUsed)
  = updateTeamTracking ms r
      (foldl (λ acc key, <[key := orElse (acc !! key) 0 + 1]> acc) usage (matchKeys m),
       <[getTeamKey (teamB m) := r]> (<[getTeamKey (teamA m) := r]> lastUsed)).
Proof. reflexivity. Qed.

Lemma updateTeamTracking_usage roundMatches r (usage lastUsed : gmap string Z) :
  (updateTeamTracking roundMatches r (usage, lastUsed)).1
  = foldl (λ acc m,
             foldl (λ acc key, <[key := orElse (acc !! key) 0 + 1]> acc) acc (matchKeys m))
          usage roundMatches.
Proof.
  revert usage lastUsed.
  induction roundMatches as [|m ms IH]; intros usage lastUsed; [done|].
  rewrite updateTeamTracking_cons, IH. done.
Qed.

Lemma updateTeamTracking_lastUsed roundMatches r (usage lastUsed : gmap string Z) key :
  (updateTeamTracking roundMatches r (usage, lastUsed)).2 !! key
  = if decide (key ∈ roundMatches ≫= matchKeys) then Some r else lastUsed !! key.
Proof.
  revert usage lastUsed.
  induction roundMatches as [|m ms IH]; intros usage lastUsed.
  - cbn [updateTeamTracking foldl snd]. by rewrite decide_False by apply not_elem_of_nil.
  - rewrite updateTeamTracking_cons, IH, bind_cons.
    destruct (decide (key ∈ ms ≫= matchKeys)) as [Hin|Hin].
    + by rewrite decide_True by set_solver.
    + unfold matchKeys at 1.
      destruct (decide (key = getTeamKey (teamB m))) as [->|HB].
      * rewrite lookup_insert_eq. by rewrite decide_True by set_solver.
      * rewrite lookup_insert_ne by done.
        destruct (decide (key = getTeamKey (teamA m))) as [->|HA].
        -- rewrite lookup_insert_eq. by rewrite decide_True by set_solver.
        -- rewrite lookup_insert_ne by done. rewrite decide_False; [done|]. set_solver.
Qed.

Lemma loopIteration_tracking sortBy players courts matchType st st' :
  loopIteration sortBy players courts matchType st = Some st' →
  ∃ r, St.rounds st' = St.rounds st ++ [r]
    ∧ (St.teamUsageCount st', St.teamLastUsedRound st')
      = updateTeamTracking (matches r) (St.roundNumber st)
          (St.teamUsageCount st, St.teamLastUsedRound st).
Proof.
  unfold loopIteration.
  destruct (negb _); [done|]. destruct (_ && negb _); [done|].
  destruct (if hasUrgentPlayer players st then _ else _) as [roundMatches next].
  destruct (_ =? 0); [done|].
  destruct (updateTeamTracking _ _ _) as [usage lastUsed] eqn:E.
  intros [= <-]. eexists.
  cbn [St.rounds St.teamUsageCount St.teamLastUsedRound]. split; [done|].
  cbn [matches]. by rewrite E.
Qed.

Lemma initialTracking_lookup (teams : list Team) (v : Z) key :
  foldl (λ acc team, <[getTeamKey team := v]> acc) (∅ : gmap string Z) teams !! key
  = if decide (key ∈ getTeamKey <$> teams) then Some v else None.
Proof.
  assert (∀ (m : gmap string Z),
    foldl (λ acc team, <[getTeamKey team := v]> acc) m teams !! key
    = if decide (key ∈ getTeamKey <$> teams) then Some v else m !! key) as H.
  { induction teams as [|t rest IH]; intros m; [done|]. cbn [foldl]. rewrite IH, fmap_cons.
    destruct (decide (key ∈ getTeamKey <$> rest)) as [Hin|Hin].
    - by rewrite decide_True by (by right).
    - destruct (decide (key = getTeamKey t)) as [->|Hne].
      + rewrite decide_True by left. by rewrite lookup_insert_eq.
      + rewrite decide_False by set_solver. by rewrite lookup_insert_ne. }
  by rewrite H, lookup_empty.
Qed.

Lemma initialState_Tracked players matchType :
  Tracked players matchType (initialState players matchType).
Proof.
  intros key Hkey. unfold initialState.
  destruct (generateAllMatches _ _). simpl.
  rewrite !initialTracking_lookup, !decide_True by done. done.
Qed.

Lemma loopIteration_Tracked sortBy players courts matchType st st' :
  Inv players courts st → Tracked players matchType st →
  loopIteration sortBy players courts matchType st = Some st' →
  Tracked players matchType st'.
Proof.
  intros HI HT Hstep key Hkey.
  destruct (loopIteration_tracking _ _ _ _ _ _ Hstep) as (r & Erounds & Etrack).
  assert (St.teamUsageCount st'
          = (updateTeamTracking (matches r) (St.roundNumber st)
               (St.teamUsageCount st, St.teamLastUsedRound st)).1) as Eu
    by (by rewrite <-Etrack).
  assert (St.teamLastUsedRound st'
          = (updateTeamTracking (matches r) (St.roundNumber st)
               (St.teamUsageCount st, St.teamLastUsedRound st)).2) as El
    by (by rewrite <-Etrack).
  destruct (HT key Hkey) as [Hu Hl].
  rewrite Erounds. split.
  - rewrite Eu, updateTeamTracking_usage, (tally_lookup matchKeys), Hu.
    unfold teamUses. rewrite bind_app, bind_singleton, occurrences_app.
    fold (roundKeys r). simpl.
    destruct (decide (key ∈ roundKeys r)) as [Hin|Hin]; f_equal; [lia|].
    rewrite (occurrences_zero key (roundKeys r)) by done. lia.
  - rewrite El, updateTeamTracking_lastUsed, Hl. unfold lastUse.
    rewrite lastUseFrom_snoc. fold (roundKeys r).
    rewrite (inv_roundNumber _ _ _ HI).
    destruct (decide (key ∈ roundKeys r)).
    + rewrite bool_decide_eq_true_2 by done. f_equal; lia.
    + by rewrite bool_decide_eq_false_2 by done.
Qed.

(** X30. The team maps are a ledger of the rounds.  At the top of the
    iteration that follows [k] rounds, for the key of every team of the
    roster, [teamUsageCount] holds the number of times a team with this key
    was on court and [teamLastUsedRound] the index of the last round in
    which one was, [-10] when there was none. *)
Theorem team_tracking_account sortBy players courts matchType k st :
  (∀ cmp l, sortBy cmp l ≡ₚ l) → NoDup players →
  Num.ltb courts (Num.ofZ 1) = false →
  iterations sortBy players courts matchType k (initialState players matchType) = Some st →
  ∀ team, team ∈ generateTeams players matchType →
    let key := getTeamKey team in
    St.teamUsageCount st !! key = Some (Z.of_nat (teamUses (St.rounds st) key))
    ∧ St.teamLastUsedRound st !! key = Some (lastUse (St.rounds st) key)
    ∧ ((teamUses (St.rounds st) key = 0%nat ∧ lastUse (St.rounds st) key = -10)
       ∨ ((0 < teamUses (St.rounds st) key)%nat
          ∧ 0 ≤ lastUse (St.rounds st) key < Z.of_nat k)).
Proof.
  intros sortBy_perm Hnd Hc Hk team Hteam key.
  assert (∀ k st0 st, Inv players courts st0 → Tracked players matchType st0 →
            iterations sortBy players courts matchType k st0 = Some st →
            Inv players courts st ∧ Tracked players matchType st) as Hiter.
  { clear k st Hk. induction k as [|k IH]; intros st0 st HI HT; simpl; [by intros [= <-]|].
    destruct (loopIteration _ _ _ _ st0) as [st1|] eqn:Hstep; [|done].
    apply IH; [by eapply loopIteration_Inv|by eapply loopIteration_Tracked]. }
  destruct (Hiter k _ st (initialState_Inv players courts matchType Hnd Hc)
              (initialState_Tracked players matchType) Hk) as [HI HT].
  destruct (HT key) as [Hu Hl]; [by apply list_elem_of_fmap_2|].
  split_and!; [done..|].
  destruct (iterations_roundNumber _ _ _ _ _ _ _ Hk) as [Hrn _].
  destruct (initialState_rounds players matchType) as [_ Ern0]. rewrite Ern0 in Hrn.
  pose proof (inv_roundNumber _ _ _ HI) as Hlen.
  destruct (lastUseFrom_bounds 0 (St.rounds st) key (-10) ltac:(lia)) as [[E Hno]|[Hb Hin]].
  - left. split; [|done]. unfold teamUses, occurrences.
    rewrite filter_none; [done|]. by intros x Hx ->.
  - right. split; [|unfold lastUse; lia]. unfold teamUses, occurrences.
    assert (key ∈ filter (λ q, q = key) (St.rounds st ≫= roundKeys)) as Hf
      by (by apply list_elem_of_filter).
    destruct (filter _ _); [by apply elem_of_nil in Hf|simpl; lia].
Qed.

(** ** The further properties at concrete inputs *)

Lemma playersS1_NoDup : NoDup playersS1.
Proof. apply (bool_decide_unpack _). vm_compute. exact I. Qed.

Lemma generateTeams_enumerates_witness :
  NoDup playersS1
  ∧ (let teams := generateTeams playersS1 doubles in
     ((2 * length teams = length playersS1 * (length playersS1 - 1))%nat
      ∧ ∀ t, t ∈ teams ↔
             ∃ i j p q, (i < j)%nat ∧ playersS1 !! i = Some p ∧ playersS1 !! j = Some q
                        ∧ t = [p; q])
     ∧ NoDup ((list_to_set (C := gset string)) <$> teams)).
Proof.
  split; [exact playersS1_NoDup|].
  exact (generateTeams_enumerates playersS1 doubles playersS1_NoDup).
Defined.

Lemma generateAllMatches_count_witness :
  NoDup playersS1
  ∧ (let n := length playersS1 in
     let result := generateAllMatches (generateTeams playersS1 doubles) 0 in
     result.2 = (0 + length result.1)%nat
     ∧ (8 * length result.1 = n * (n - 1) * (n - 2) * (n - 3))%nat).
Proof.
  split; [exact playersS1_NoDup|].
  exact (generateAllMatches_count playersS1 doubles 0 playersS1_NoDup).
Defined.

Lemma generateAllMatches_exactly_once_witness :
  NoDup playersS1
  ∧ (let teams := generateTeams playersS1 singles in
     let pool := (generateAllMatches teams 0).1 in
     (∀ m, m ∈ pool →
        teamA m ∈ teams ∧ teamB m ∈ teams ∧ ∀ p, p ∈ teamA m → p ∉ teamB m)
     ∧ ∀ t u, t ∈ teams → u ∈ teams → (∀ p, p ∈ t → p ∉ u) →
         length (filter (meets t u) pool) = 1%nat).
Proof.
  split; [exact playersS1_NoDup|].
  exact (generateAllMatches_exactly_once playersS1 singles 0 playersS1_NoDup).
Defined.

Lemma selectRoundMatches_empty_iff_witness :
  (∀ cmp l, stableSort (A := MatchCandidate) cmp l ≡ₚ l)
  ∧ (selectRoundMatches stableSort [] (Num.ofZ 1) ∅ ∅ ∅ 0 = []
     ↔ @nil MatchObj = [] ∨ Num.geb (Num.ofNat 0) (Num.ofZ 1) = true).
Proof.
  split; [apply stableSort_perm|].
  exact (selectRoundMatches_empty_iff stableSort (stableSort_perm (A := MatchCandidate))
           [] (Num.ofZ 1) ∅ ∅ ∅ 0).
Defined.

Lemma selectRoundMatches_maximal_witness :
  (∀ cmp l, stableSort (A := MatchCandidate) cmp l ≡ₚ l)
  ∧ (let st := initialState playersS1 singles in
     let selected :=
       selectRoundMatches stableSort (St.remainingMatches st) (Num.ofZ 3)
         (St.playerStats st) (St.teamUsageCount st) (St.teamLastUsedRound st) 0 in
     Num.geb (Num.ofNat (length selected)) (Num.ofZ 3) = false
     ∧ (∀ m, m ∈ selected → m ∈ St.remainingMatches st)
     ∧ ∀ m, m ∈ St.remainingMatches st →
         m ∈ selected ∨ ∃ p, p ∈ getMatchPlayers m ∧ p ∈ playersOfMatches selected).
Proof.
  split; [apply stableSort_perm|].
  assert (Num.geb (Num.ofNat (length
            (selectRoundMatches stableSort
               (St.remainingMatches (initialState playersS1 singles)) (Num.ofZ 3)
               (St.playerStats (initialState playersS1 singles))
               (St.teamUsageCount (initialState playersS1 singles))
               (St.teamLastUsedRound (initialState playersS1 singles)) 0)))
            (Num.ofZ 3) = false) as Hlen
    by (vm_compute; reflexivity).
  split; [exact Hlen|].
  exact (selectRoundMatches_maximal stableSort (stableSort_perm (A := MatchCandidate))
           _ (Num.ofZ 3) _ _ _ 0 Hlen).
Defined.

Lemma rounds_numbered_witness :
  (∀ cmp l, stableSort (A := MatchCandidate) cmp l ≡ₚ l)
  ∧ generateSchedule stableSort playersS1 (Num.ofZ 1) singles = Returned scheduleS1
  ∧ (∀ k r, rounds scheduleS1 !! k = Some r →
       roundId r = "r" +:+ pretty (Z.of_nat k + 1) ∧ completed r = false)
  ∧ NoDup (roundId <$> rounds scheduleS1).
Proof.
  split; [apply stableSort_perm|]. split; [exact scheduleS1_returned|].
  exact (rounds_numbered stableSort (stableSort_perm (A := MatchCandidate))
           playersS1 (Num.ofZ 1) singles scheduleS1 scheduleS1_returned).
Defined.

Lemma rounds_bounded_by_pool_witness :
  (∀ cmp l, stableSort (A := MatchCandidate) cmp l ≡ₚ l)
  ∧ generateSchedule stableSort playersS1 (Num.ofZ 1) singles = Returned scheduleS1
  ∧ (let players := arrayFromSet playersS1 in
     let n := length players in
     Forall (λ r, ∃ m, matches r !! 0%nat = Some m ∧ m ∈ initialPool players singles)
       (rounds scheduleS1)
     ∧ (length (rounds scheduleS1) ≤ length (initialPool players singles))%nat
     ∧ (2 * length (rounds scheduleS1) ≤ n * (n - 1))%nat).
Proof.
  split; [apply stableSort_perm|]. split; [exact scheduleS1_returned|].
  exact (rounds_bounded_by_pool stableSort (stableSort_perm (A := MatchCandidate))
           playersS1 (Num.ofZ 1) singles scheduleS1 scheduleS1_returned).
Defined.

Lemma schedule_ends_witness :
  (∀ cmp l, stableSort (A := MatchCandidate) cmp l ≡ₚ l)
  ∧ generateSchedule stableSort playersSix (Num.ofZ 3) singles = Returned scheduleSix
  ∧ (let players := arrayFromSet playersSix in
     let threshold := restThreshold (length players) in
     (∀ m, m ∈ initialPool players singles → m ∈ rounds scheduleSix ≫= matches)
     ∨ length (rounds scheduleSix) = 1000%nat
     ∨ ((∃ p, p ∈ players ∧ urgentAfter threshold (rounds scheduleSix) p)
        ∧ ∀ m p, m ∈ initialPool players singles → m ∉ rounds scheduleSix ≫= matches →
            p ∈ players → urgentAfter threshold (rounds scheduleSix) p →
            p ∉ getMatchPlayers m)).
Proof.
  split; [apply stableSort_perm|]. split; [exact scheduleSix_returned|].
  exact (schedule_ends stableSort (stableSort_perm (A := MatchCandidate))
           playersSix (Num.ofZ 3) singles scheduleSix scheduleSix_returned).
Defined.

Lemma small_roster_complete_witness :
  (∀ cmp l, stableSort (A := MatchCandidate) cmp l ≡ₚ l)
  ∧ generateSchedule stableSort playersSix (Num.ofZ 3) singles = Returned scheduleSix
  ∧ (length (arrayFromSet playersSix) ≤ 7)%nat
  ∧ (let players := arrayFromSet playersSix in
     (∀ m, m ∈ initialPool players singles → m ∈ rounds scheduleSix ≫= matches)
     ∧ ∀ t u, t ∈ generateTeams players singles → u ∈ generateTeams players singles →
         (∀ p, p ∈ t → p ∉ u) →
         ∃ m, m ∈ rounds scheduleSix ≫= matches ∧ meets t u m).
Proof.
  assert (length (arrayFromSet playersSix) ≤ 7)%nat as Hfew by (vm_compute; lia).
  split; [apply stableSort_perm|]. split; [exact scheduleSix_returned|].
  split; [exact Hfew|].
  exact (small_roster_complete stableSort (stableSort_perm (A := MatchCandidate))
           playersSix (Num.ofZ 3) singles scheduleSix scheduleSix_returned Hfew).
Defined.

Lemma schedule_nonempty_witness :
  (∀ cmp l, stableSort (A := MatchCandidate) cmp l ≡ₚ l)
  ∧ generateSchedule stableSort playersS1 (Num.ofZ 1) singles = Returned scheduleS1
  ∧ rounds scheduleS1 ≠ [].
Proof.
  split; [apply stableSort_perm|]. split; [exact scheduleS1_returned|].
  exact (schedule_nonempty stableSort (stableSort_perm (A := MatchCandidate))
           playersS1 (Num.ofZ 1) singles scheduleS1 scheduleS1_returned).
Defined.

Lemma duplicates_ignored_witness :
  (5 ≤ length (arrayFromSet playersRepeated))%nat
  ∧ generateSchedule stableSort playersRepeated (Num.ofZ 1) singles
    = generateSchedule stableSort (arrayFromSet playersRepeated) (Num.ofZ 1) singles.
Proof.
  assert (5 ≤ length (arrayFromSet playersRepeated))%nat as Hlen by (vm_compute; lia).
  split; [exact Hlen|].
  exact (duplicates_ignored stableSort playersRepeated (Num.ofZ 1) singles Hlen).
Defined.

Lemma iterationsS1 :
  ∃ st, iterations stableSort playersS1 (Num.ofZ 1) singles 2 (initialState playersS1 singles)
        = Some st.
Proof.
  destruct (iterations stableSort playersS1 (Num.ofZ 1) singles 2 (initialState playersS1 singles))
    as [st|] eqn:E; [by exists st|].
  vm_compute in E. discriminate.
Qed.

Lemma playerStats_account_witness :
  (∀ cmp l, stableSort (A := MatchCandidate) cmp l ≡ₚ l)
  ∧ NoDup playersS1 ∧ Num.ltb (Num.ofZ 1) (Num.ofZ 1) = false
  ∧ ∃ st,
      iterations stableSort playersS1 (Num.ofZ 1) singles 2 (initialState playersS1 singles) = Some st
      ∧ length (St.rounds st) = 2%nat ∧ St.roundNumber st = Z.of_nat 2
      ∧ dom (St.playerStats st) = list_to_set playersS1
      ∧ ∀ p, p ∈ playersS1 →
          ∃ stats, St.playerStats st !! p = Some stats
            ∧ playCount stats = Z.of_nat (roundsPlayed (St.rounds st) p)
            ∧ restCount stats = Z.of_nat (roundsRested (St.rounds st) p)
            ∧ playCount stats + restCount stats = Z.of_nat 2
            ∧ lastPlayedRound stats
              = Z.of_nat 2 - 1 - Z.of_nat (restingRun (St.rounds st) p).
Proof.
  split; [apply stableSort_perm|]. split; [exact playersS1_NoDup|]. split; [reflexivity|].
  destruct iterationsS1 as [st Hst]. exists st. split; [exact Hst|].
  exact (playerStats_account stableSort playersS1 (Num.ofZ 1) singles 2 st
           (stableSort_perm (A := MatchCandidate)) playersS1_NoDup eq_refl Hst).
Defined.

Lemma scheduled_matches_shape_witness :
  (∀ cmp l, stableSort (A := MatchCandidate) cmp l ≡ₚ l)
  ∧ generateSchedule stableSort playersSix (Num.ofZ 3) singles = Returned scheduleSix
  ∧ ∀ m, m ∈ rounds scheduleSix ≫= matches →
      ∃ a b, teamA m = [a] ∧ teamB m = [b] ∧ NoDup [a; b]
             ∧ (∀ p, p ∈ [a; b] → p ∈ arrayFromSet playersSix)
             ∧ getMatchPlayers m = [a; b].
Proof.
  split; [apply stableSort_perm|]. split; [exact scheduleSix_returned|].
  exact (scheduled_matches_shape stableSort (stableSort_perm (A := MatchCandidate))
           playersSix (Num.ofZ 3) singles scheduleSix scheduleSix_returned).
Defined.

Lemma round_sizes_witness :
  (∀ cmp l, stableSort (A := MatchCandidate) cmp l ≡ₚ l)
  ∧ generateSchedule stableSort playersS1 (Num.ofZ 1) singles = Returned scheduleS1
  ∧ Forall (λ r,
      length (roundPlayers r) = (2 * length (matches r))%nat
      ∧ (length (resting r) + 2 * length (matches r)
         = length (arrayFromSet playersS1))%nat) (rounds scheduleS1).
Proof.
  split; [apply stableSort_perm|]. split; [exact scheduleS1_returned|].
  exact (round_sizes stableSort (stableSort_perm (A := MatchCandidate))
           playersS1 (Num.ofZ 1) singles scheduleS1 scheduleS1_returned).
Defined.

Lemma large_roster_warning_witness :
  generateSchedule stableSort playersS1 (Num.ofZ 1) singles = Returned scheduleS1
  ∧ warning scheduleS1
    = if decide (16 < length (arrayFromSet playersS1))%nat
      then Some "large_n; fallback_to_greedy" else None.
Proof.
  split; [exact scheduleS1_returned|].
  exact (large_roster_warning stableSort playersS1 (Num.ofZ 1) singles scheduleS1
           scheduleS1_returned).
Defined.

Lemma returned_schedule_valid_witness :
  (∀ cmp l, stableSort (A := MatchCandidate) cmp l ≡ₚ l)
  ∧ generateSchedule stableSort playersSix (Num.ofZ 3) singles = Returned scheduleSix
  ∧ validateSchedule (rounds scheduleSix) = {| valid := true; errors := [] |}.
Proof.
  split; [apply stableSort_perm|]. split; [exact scheduleSix_returned|].
  exact (returned_schedule_valid stableSort (stableSort_perm (A := MatchCandidate))
           playersSix (Num.ofZ 3) singles scheduleSix scheduleSix_returned).
Defined.

Lemma returned_schedule_rest_stats_witness :
  (∀ cmp l, stableSort (A := MatchCandidate) cmp l ≡ₚ l)
  ∧ generateSchedule stableSort playersS1 (Num.ofZ 1) singles = Returned scheduleS1
  ∧ (let players := arrayFromSet playersS1 in
     let stats := calculateRestStats (rounds scheduleS1) players in
     dom (restCounts stats) = list_to_set players
     ∧ (∀ p, p ∈ players →
          restCounts stats !! p = Some (Z.of_nat (roundsRested (rounds scheduleS1) p))
          ∧ (roundsPlayed (rounds scheduleS1) p + roundsRested (rounds scheduleS1) p
             = length (rounds scheduleS1))%nat)
     ∧ 0 ≤ maxDiff stats ≤ Z.of_nat (length (rounds scheduleS1))).
Proof.
  split; [apply stableSort_perm|]. split; [exact scheduleS1_returned|].
  exact (returned_schedule_rest_stats stableSort (stableSort_perm (A := MatchCandidate))
           playersS1 (Num.ofZ 1) singles scheduleS1 scheduleS1_returned).
Defined.

Lemma getTeamKey_canonical_witness :
  ["B"; "A"] ≡ₚ ["A"; "B"] ∧ getTeamKey ["B"; "A"] = getTeamKey ["A"; "B"].
Proof.
  assert (["B"; "A"] ≡ₚ ["A"; "B"]) as Hperm by apply Permutation_swap.
  split; [exact Hperm|].
  exact (getTeamKey_canonical ["B"; "A"] ["A"; "B"] Hperm).
Defined.

Lemma getTeamKey_inj_witness :
  length ["B"; "A"] = length ["A"; "B"]
  ∧ (∀ p, p ∈ ["B"; "A"] ++ ["A"; "B"] → commaFree p = true)
  ∧ getTeamKey ["B"; "A"] = getTeamKey ["A"; "B"]
  ∧ ["B"; "A"] ≡ₚ ["A"; "B"].
Proof.
  assert (∀ p, p ∈ ["B"; "A"] ++ ["A"; "B"] → commaFree p = true) as Hfree.
  { intros p Hp. simpl in Hp.
    repeat (apply elem_of_cons in Hp as [->|Hp]; [reflexivity|]).
    by apply elem_of_nil in Hp. }
  split; [reflexivity|]. split; [exact Hfree|]. split; [reflexivity|].
  exact (getTeamKey_inj ["B"; "A"] ["A"; "B"] eq_refl Hfree eq_refl).
Defined.

Lemma postSchedule_created_witness :
  ∃ response store',
    postSchedule (λ s, s) stableSort "1" requestS1 ∅ = Some (response, store')
    ∧ Api.status response = 201
    ∧ ∃ items courts matchType result,
        Api.players requestS1 = Some (Api.JArr items)
        ∧ Api.courts requestS1 = Some (Api.JNum courts)
        ∧ Api.matchType requestS1 = Some (Api.JStr (matchTypeName matchType))
        ∧ Forall (λ p, p ≠ "") (cleanPlayers (λ s, s) items)
        ∧ generateSchedule stableSort (cleanPlayers (λ s, s) items) courts matchType
          = Returned result
        ∧ Api.body response = Api.Created ("sch_" +:+ "1") (rounds result) (warning result)
        ∧ getScheduleById ("sch_" +:+ "1") store'
          = {| Api.status := 200;
               Api.body := Api.Found ("sch_" +:+ "1") (rounds result)
                             (cleanPlayers (λ s, s) items) courts matchType |}
        ∧ ∀ other, other ≠ "sch_" +:+ "1" →
            Store.getSchedule other store' = Store.getSchedule other ∅.
Proof.
  assert (postSchedule (λ s, s) stableSort "1" requestS1 ∅
          = Some ({| Api.status := 201;
                     Api.body := Api.Created "sch_1" (rounds scheduleS1) None |},
                  Store.saveSchedule
                    {| Store.id := "sch_1"; Store.players := playersS1;
                       Store.courts := Num.ofZ 1; Store.matchType := singles;
                       Store.rounds := rounds scheduleS1 |} ∅)) as Hpost.
  { vm_compute. reflexivity. }
  eexists _, _. split; [exact Hpost|]. split; [reflexivity|].
  exact (postSchedule_created (λ s, s) stableSort "1" requestS1 ∅ _ _ Hpost eq_refl).
Defined.

Lemma team_tracking_account_witness :
  (∀ cmp l, stableSort (A := MatchCandidate) cmp l ≡ₚ l)
  ∧ NoDup playersS1 ∧ Num.ltb (Num.ofZ 1) (Num.ofZ 1) = false
  ∧ ∃ st,
      iterations stableSort playersS1 (Num.ofZ 1) singles 2 (initialState playersS1 singles) = Some st
      ∧ ∀ team, team ∈ generateTeams playersS1 singles →
          let key := getTeamKey team in
          St.teamUsageCount st !! key = Some (Z.of_nat (teamUses (St.rounds st) key))
          ∧ St.teamLastUsedRound st !! key = Some (lastUse (St.rounds st) key)
          ∧ ((teamUses (St.rounds st) key = 0%nat ∧ lastUse (St.rounds st) key = -10)
             ∨ ((0 < teamUses (St.rounds st) key)%nat
                ∧ 0 ≤ lastUse (St.rounds st) key < Z.of_nat 2)).
Proof.
  split; [apply stableSort_perm|]. split; [exact playersS1_NoDup|]. split; [reflexivity|].
  destruct iterationsS1 as [st Hst]. exists st. split; [exact Hst|].
  exact (team_tracking_account stableSort playersS1 (Num.ofZ 1) singles 2 st
           (stableSort_perm (A := MatchCandidate)) playersS1_NoDup eq_refl Hst).
Defined.
